(** * Heuristic code-analysis engine of [src/App.js]

    A shallow embedding of the pure analysis functions of the React
    component: [detectLanguage], the real-time structural analysis,
    [analyzeIssues], [calculateQualityScore] and [highlightCode]; and of
    what its handlers compute: [handlePaste], [handleFile], [loadExample],
    [generatePrompt], [loadHistoryItem] and [escapeHtml].

    Texts are lists of 8-bit code units (the Latin-1 range of JavaScript's
    UTF-16 strings).  The regular expressions of the source are written in a
    small abstract syntax and run by a backtracking matcher that follows the
    ECMAScript matching rules (leftmost alternative first, greedy and lazy
    repetition, [\b] and multi-line [$] assertions). *)

From Stdlib Require Import String Ascii DecimalString SpecFloat.
From Stdlib Require Import Bool Arith ZArith Lia List.
Import ListNotations.

Set Implicit Arguments.

Local Open Scope char_scope.
Local Open Scope list_scope.

(** ** Characters and strings *)

Definition str := list ascii.

(** A string literal of the source as a list of code units. *)
Definition L (s : string) : str := list_ascii_of_string s.

Definition ord (c : ascii) : N := N_of_ascii c.

Definition between (lo hi c : ascii) : bool :=
  (ord lo <=? ord c)%N && (ord c <=? ord hi)%N.

(** [[0-9]] *)
Definition is_digit (c : ascii) : bool := between "0" "9" c.

(** [[A-Za-z0-9_]], the word characters of [\b]. *)
Definition is_word (c : ascii) : bool :=
  between "A" "Z" c || between "a" "z" c || is_digit c || Ascii.eqb c "_".

(** LineTerminator: LF and CR (U+2028 and U+2029 lie outside Latin-1). *)
Definition is_line_terminator (c : ascii) : bool :=
  Ascii.eqb c "010" || Ascii.eqb c "013".

(** [\s], also the characters removed by [String.prototype.trim]:
    TAB, LF, VT, FF, CR, SPACE and NBSP. *)
Definition is_space (c : ascii) : bool :=
  ((9 <=? ord c)%N && (ord c <=? 13)%N)
  || Ascii.eqb c " " || (ord c =? 160)%N.

(** [String.prototype.toLowerCase] on Latin-1: A-Z and the accented capitals
    U+00C0..U+00DE (without the multiplication sign U+00D7) move up by 32. *)
Definition lower_char (c : ascii) : ascii :=
  if between "A" "Z" c
     || ((192 <=? ord c)%N && (ord c <=? 222)%N && negb (ord c =? 215)%N)
  then ascii_of_N (ord c + 32) else c.

Definition toLowerCase (s : str) : str := map lower_char s.

(** Canonicalisation of the [i] flag restricted to what can equal an ASCII
    pattern character: only a-z fold to A-Z (a non-ASCII code unit never
    canonicalises to an ASCII one). *)
Definition upper_ascii (c : ascii) : ascii :=
  if between "a" "z" c then ascii_of_N (ord c - 32) else c.

Fixpoint drop_while (f : ascii -> bool) (s : str) : str :=
  match s with
  | [] => []
  | c :: t => if f c then drop_while f t else s
  end.

(** [String.prototype.trim] *)
Definition trim (s : str) : str :=
  rev (drop_while is_space (rev (drop_while is_space s))).

(** [s.split('\n')]: the segments between line feeds; never empty. *)
Fixpoint split_nl (s : str) : list str :=
  match s with
  | [] => [[]]
  | c :: t =>
      if Ascii.eqb c "010" then [] :: split_nl t
      else match split_nl t with
           | l :: ls => (c :: l) :: ls
           | [] => [[c]]
           end
  end.

(** Template-literal interpolation of a number: its decimal digits. *)
Definition decimal (n : nat) : string :=
  NilEmpty.string_of_uint (Nat.to_uint n).

(** ** Regular expressions *)

Inductive regex : Type :=
| Eps                                   (* the empty pattern *)
| Chr (f : ascii -> bool)               (* one character of a class *)
| Seq (a b : regex)                     (* ab *)
| Alt (a b : regex)                     (* a|b *)
| Star (greedy : bool) (a : regex)      (* a* and a*? *)
| WordB                                 (* \b *)
| Eol.                                  (* $ under the m flag *)

(** A literal string. *)
Fixpoint lit (s : str) : regex :=
  match s with
  | [] => Eps
  | c :: t => Seq (Chr (Ascii.eqb c)) (lit t)
  end.

(** A literal string under the [i] flag. *)
Fixpoint liti (s : str) : regex :=
  match s with
  | [] => Eps
  | c :: t => Seq (Chr (fun x => Ascii.eqb (upper_ascii x) (upper_ascii c))) (liti t)
  end.

(** a1|a2|...|an, tried from left to right. *)
Fixpoint alts (l : list regex) : regex :=
  match l with
  | [] => Chr (fun _ => false)
  | [a] => a
  | a :: l' => Alt a (alts l')
  end.

Definition Plus (a : regex) : regex := Seq a (Star true a).   (* a+ *)
Definition Opt (a : regex) : regex := Alt a Eps.              (* a? for an a that consumes input *)
Definition any_char : regex := Chr (fun _ => true).           (* [\s\S] *)
Definition dot : regex := Chr (fun c => negb (is_line_terminator c)).   (* . *)
Definition word (s : string) : regex := Seq WordB (Seq (lit (L s)) WordB).   (* \bs\b *)

Definition word_before (p : option ascii) : bool :=
  match p with Some c => is_word c | None => false end.

Definition word_after (s : str) : bool :=
  match s with c :: _ => is_word c | [] => false end.

(** The matcher.  A position is the character before it (if any) and the
    rest of the input; a continuation receives the position reached. *)
Section Matcher.
Variable A : Type.

Definition cont := option ascii -> str -> option A.
Definition matcher := option ascii -> str -> cont -> option A.

(** RepeatMatcher for a minimum of zero: an iteration that consumes nothing
    is rejected, so [S (length s)] rounds of fuel are never used up. *)
Fixpoint repeat_matcher (m : matcher) (greedy : bool) (fuel : nat)
         (p : option ascii) (s : str) (k : cont) : option A :=
  match fuel with
  | O => k p s
  | S fuel' =>
      let again (_ : unit) :=
        m p s (fun p' s' =>
                 if (length s' <? length s)%nat
                 then repeat_matcher m greedy fuel' p' s' k
                 else None) in
      if greedy then
        match again tt with
        | Some x => Some x
        | None => k p s
        end
      else
        match k p s with
        | Some x => Some x
        | None => again tt
        end
  end.

Fixpoint compile (r : regex) : matcher :=
  match r with
  | Eps => fun p s k => k p s
  | Chr f => fun p s k =>
      match s with
      | c :: s' => if f c then k (Some c) s' else None
      | [] => None
      end
  | Seq a b => fun p s k => compile a p s (fun p' s' => compile b p' s' k)
  | Alt a b => fun p s k =>
      match compile a p s k with
      | Some x => Some x
      | None => compile b p s k
      end
  | Star g a => fun p s k => repeat_matcher (compile a) g (S (length s)) p s k
  | WordB => fun p s k =>
      if xorb (word_before p) (word_after s) then k p s else None
  | Eol => fun p s k =>
      match s with
      | [] => k p s
      | c :: _ => if is_line_terminator c then k p s else None
      end
  end.
End Matcher.

(** A match attempt at one position: the position after the match. *)
Definition exec (r : regex) (p : option ascii) (s : str) : option (option ascii * str) :=
  compile r p s (fun p' s' => Some (p', s')).

(** The text matched, given the input at the start and what is left. *)
Definition matched (s s' : str) : str := firstn (length s - length s') s.

(** [re.test(s)] for a regex without the g flag: a match at any position. *)
Fixpoint search (r : regex) (p : option ascii) (s : str) : bool :=
  match exec r p s with
  | Some _ => true
  | None =>
      match s with
      | [] => false
      | c :: t => search r (Some c) t
      end
  end.

Definition test (r : regex) (s : str) : bool := search r None s.

(** [s.match(re)] with the g flag: all matches from left to right; after an
    empty match the search resumes one character further. *)
Fixpoint match_go (r : regex) (fuel : nat) (p : option ascii) (s : str) : list str :=
  match fuel with
  | O => []
  | S fuel' =>
      let skip (_ : unit) :=
        match s with
        | [] => []
        | c :: t => match_go r fuel' (Some c) t
        end in
      match exec r p s with
      | Some (p', s') =>
          match matched s s' with
          | [] => [] :: skip tt
          | m => m :: match_go r fuel' p' s'
          end
      | None => skip tt
      end
  end.

Definition match_all (r : regex) (s : str) : list str :=
  match_go r (S (length s)) None s.

(** [s.replace(re, f)] with the g flag. *)
Fixpoint replace_go (r : regex) (f : str -> str) (fuel : nat)
         (p : option ascii) (s : str) : str :=
  match fuel with
  | O => s
  | S fuel' =>
      let skip (_ : unit) :=
        match s with
        | [] => []
        | c :: t => c :: replace_go r f fuel' (Some c) t
        end in
      match exec r p s with
      | Some (p', s') =>
          match matched s s' with
          | [] => f [] ++ skip tt
          | m => f m ++ replace_go r f fuel' p' s'
          end
      | None => skip tt
      end
  end.

Definition replace (r : regex) (f : str -> str) (s : str) : str :=
  replace_go r f (S (length s)) None s.

(** [s.split(re)] for a regex without capture groups: [acc] holds, reversed,
    the segment since the last separator. *)
Fixpoint split_go (r : regex) (fuel : nat) (p : option ascii) (acc s : str) : list str :=
  match fuel with
  | O => [rev acc ++ s]
  | S fuel' =>
      match s with
      | [] => [rev acc]
      | c :: t =>
          match exec r p s with
          | Some (p', s') =>
              if (length s' =? length s)%nat && (length acc =? 0)%nat
              then split_go r fuel' (Some c) [c] t
              else rev acc :: split_go r fuel' p' [] s'
          | None => split_go r fuel' (Some c) (c :: acc) t
          end
      end
  end.

Definition split (r : regex) (s : str) : list str :=
  match s with
  | [] => match exec r None [] with Some _ => [] | None => [[]] end
  | _ => split_go r (2 * length s + 2) None [] s
  end.


(** ** JavaScript numbers

    The two divisions of the scorer are floating point; they are computed
    in IEEE binary64 with the reference implementation of [SpecFloat].
    Integer arithmetic on small counts is exact in binary64 and is done in
    [Z]. *)

Definition prec64 : Z := 53.
Definition emax64 : Z := 1024.

(** The Number nearest to an integer. *)
Definition Number (n : Z) : spec_float := binary_normalize prec64 emax64 n 0 false.

Definition fdiv : spec_float -> spec_float -> spec_float := SFdiv prec64 emax64.
Definition fmul : spec_float -> spec_float -> spec_float := SFmul prec64 emax64.

(** The literal [1.2]: 0x3FF3333333333333. *)
Definition Number_1_2 : spec_float := S754_finite false 5404319552844595 (-52).

(** [Math.round]: the integer nearest to x, ties towards +infinity, that is
    floor (x + 1/2) computed exactly.  An infinity is represented by a
    magnitude beyond every finite Number, which keeps its comparisons with
    finite values; NaN has no integer counterpart and is sent to 0 (lemma
    [comment_ratio_not_nan] shows that the quotient of the scorer is never
    NaN while the line count stays below 2^53; a JavaScript string has at
    most 2^53 - 1 code units). *)
Definition Math_round (x : spec_float) : Z :=
  match x with
  | S754_zero _ => 0
  | S754_nan => 0
  | S754_infinity s => if s then - 2 ^ 1024 else 2 ^ 1024
  | S754_finite s m e =>
      let mz := if s then Zneg m else Zpos m in
      match e with
      | Zneg k => (2 * mz + 2 ^ Zpos k) / 2 ^ (Zpos k + 1)
      | _ => mz * 2 ^ e
      end
  end%Z.

(** ** Data model *)

Inductive LanguageTag : Type := java | python | javascript | cpp | php | csharp.

Inductive Complexity : Type := Low | Medium | High.

Record CodeStats : Type :=
  { lines : nat; functions : nat; complexity : Complexity }.

Record Issue : Type := { type : string; detail : string }.

Record QualityReport : Type :=
  { maintainability : Z;
    commentScore : Z;
    complexityScore : Z;
    clarityScore : Z;
    docCompleteness : Z;
    risk : Z }.

(** ** Language auto-detect *)

Definition python_re : regex := Alt (word "def") (word "import").
Definition javascript_re : regex := alts [word "function"; word "const"; word "let"].
Definition java_re : regex := alts [word "public class"; word "private"; word "throws"].
Definition csharp_re : regex := alts [word "using"; word "namespace"; word "console.writeline"].
Definition cpp_re : regex := Alt (lit (L "#include")) (lit (L "std::")).
Definition php_re : regex := Alt (lit (L "<?php")) (word "echo").

(** [language] is the component's current language state. *)
Definition detectLanguage (language : LanguageTag) (codeText : str) : LanguageTag :=
  match codeText with
  | [] => language
  | _ =>
      let lower := toLowerCase codeText in
      if test python_re lower then python
      else if test javascript_re lower then javascript
      else if test java_re lower then java
      else if test csharp_re lower then csharp
      else if test cpp_re lower then cpp
      else if test php_re lower then php
      else language
  end.

(** ** Issue scanner *)

Definition todo_re : regex := alts [liti (L "TODO"); liti (L "FIXME"); liti (L "XXX")].

(** [/\/\*|\*\/|\/\/|# /g] *)
Definition comment_re : regex :=
  alts [lit (L "/*"); lit (L "*/"); lit (L "//"); lit (L "# ")].

Definition non_word : regex := Chr (fun c => negb (is_word c)).

(** [/[^A-Za-z0-9_](?:[2-9][0-9]?|[1-9][0-9]{2,})[^A-Za-z0-9_]/g] *)
Definition magic_re : regex :=
  Seq non_word
      (Seq (Alt (Seq (Chr (between "2" "9")) (Opt (Chr is_digit)))
                (Seq (Chr (between "1" "9"))
                     (Seq (Chr is_digit) (Seq (Chr is_digit) (Star true (Chr is_digit))))))
           non_word).

(** [/auto_ptr|register|gets\s*\(/i] *)
Definition deprecated_re : regex :=
  alts [liti (L "auto_ptr"); liti (L "register");
        Seq (liti (L "gets")) (Seq (Star true (Chr is_space)) (liti (L "(")))].

Definition null_re : regex := alts [lit (L "null"); lit (L "NULL"); lit (L "None")].

(** [/==\s*null|!=\s*null|is not None|is None/] *)
Definition null_check_re : regex :=
  alts [Seq (lit (L "==")) (Seq (Star true (Chr is_space)) (lit (L "null")));
        Seq (lit (L "!=")) (Seq (Star true (Chr is_space)) (lit (L "null")));
        lit (L "is not None"); lit (L "is None")].

(** [/\b(for|while|if|switch)\b/] *)
Definition opener_re : regex :=
  Seq WordB (Seq (alts [lit (L "for"); lit (L "while"); lit (L "if"); lit (L "switch")]) WordB).

Definition brace_re : regex := lit (L "}").
Definition end_re : regex := word "end".

(** [/\bfunction\b|\bdef\b|\bpublic\b|\bprivate\b/] *)
Definition block_re : regex :=
  alts [word "function"; word "def"; word "public"; word "private"].

(** The body of the [forEach] over the lines: the state is (depth, maxDepth). *)
Definition nest_step (st : Z * Z) (l : str) : Z * Z :=
  let '(depth, maxDepth) := st in
  let depth := if test opener_re l then (depth + 1)%Z else depth in
  let depth := if test brace_re l || test end_re l then Z.max 0 (depth - 1) else depth in
  let maxDepth := if (maxDepth <? depth)%Z then depth else maxDepth in
  (depth, maxDepth).

Definition maxDepth (text : str) : Z :=
  snd (fold_left nest_step (split_nl text) (0, 0)%Z).

Definition commentCount (text : str) : nat := length (match_all comment_re text).

Definition functionBlocks (text : str) : list str :=
  filter (fun s => (500 <? length s)%nat) (split block_re text).

Local Open Scope string_scope.

(** [issuesFound.push] when the condition holds. *)
Definition push_if (c : bool) (i : Issue) (issuesFound : list Issue) : list Issue :=
  if c then issuesFound ++ [i] else issuesFound.

Definition analyzeIssues (text : str) : list Issue :=
  match text with
  | [] => []
  | _ =>
      let issuesFound := [] in
      let todoMatches := match_all todo_re text in
      let issuesFound :=
        push_if (negb (length todoMatches =? 0)%nat)
          {| type := "TODOs";
             detail := decimal (length todoMatches) ++ " TODO/FIXME/XXX markers" |}
          issuesFound in
      let lineCount := length (split_nl text) in
      let issuesFound :=
        push_if (commentCount text <? Nat.max 1 (lineCount / 10))%nat
          {| type := "Missing Comments";
             detail := decimal (commentCount text) ++ " comments for "
                       ++ decimal lineCount ++ " lines" |}
          issuesFound in
      let magicMatches := match_all magic_re text in
      let issuesFound :=
        push_if (0 <? length magicMatches)%nat
          {| type := "Magic Numbers";
             detail := decimal (length magicMatches) ++ " suspicious numeric literals" |}
          issuesFound in
      let issuesFound :=
        push_if (test deprecated_re text)
          {| type := "Deprecated patterns";
             detail := "Use of deprecated/unsafe APIs detected" |}
          issuesFound in
      let hasNull := test null_re text in
      let hasNullChecks := test null_check_re text in
      let issuesFound :=
        push_if (hasNull && negb hasNullChecks)
          {| type := "Null checks"; detail := "Possible missing null checks" |}
          issuesFound in
      let issuesFound :=
        push_if (4 <=? maxDepth text)%Z
          {| type := "Deep nesting";
             detail := "Max nesting depth ~" ++ decimal (Z.to_nat (maxDepth text)) |}
          issuesFound in
      let issuesFound :=
        push_if (0 <? length (functionBlocks text))%nat
          {| type := "Long functions";
             detail := decimal (length (functionBlocks text))
                       ++ " very long function(s) detected" |}
          issuesFound in
      issuesFound
  end.

(** ** Quality score *)

Definition count_type (t : string) (foundIssues : list Issue) : nat :=
  length (filter (fun i => String.eqb (type i) t) foundIssues).

Definition complexityPenalty (complexity : Complexity) : Z :=
  match complexity with High => 30 | Medium => 15 | Low => 5 end.

Definition nestingPenalty (foundIssues : list Issue) : Z :=
  Z.min 40 (Z.of_nat (count_type "Deep nesting" foundIssues) * 10).

Definition longFuncPenalty (foundIssues : list Issue) : Z :=
  Z.min 30 (Z.of_nat (count_type "Long functions" foundIssues) * 10).

Definition magicPenalty (foundIssues : list Issue) : Z :=
  Z.min 40 (Z.of_nat (count_type "Magic Numbers" foundIssues) * 8).

Definition calculateQualityScore (codeText : str) (foundIssues : list Issue)
           (docText : str) (complexity : Complexity) : QualityReport :=
  let lines := match codeText with [] => O | _ => length (split_nl codeText) end in
  let commentCount := length (match_all comment_re codeText) in
  let commentScore :=
    Z.min 100
      (Math_round
         (fmul (fmul (fdiv (Number (Z.of_nat commentCount))
                           (Number (Z.of_nat (Nat.max 1 lines))))
                     (Number 100))
               Number_1_2)) in
  let complexityPenalty := complexityPenalty complexity in
  let nestingPenalty := nestingPenalty foundIssues in
  let longFuncPenalty := longFuncPenalty foundIssues in
  let complexityScore :=
    Z.max 10 (100 - complexityPenalty - nestingPenalty - longFuncPenalty) in
  let magicPenalty := magicPenalty foundIssues in
  let missingComments :=
    if existsb (fun i => String.eqb (type i) "Missing Comments") foundIssues
    then 25%Z else 0%Z in
  let clarityScore := Z.max 10 (100 - magicPenalty - missingComments) in
  let maintainability :=
    Math_round (fdiv (Number (commentScore + complexityScore + clarityScore)) (Number 3)) in
  let docPresence := match trim docText with [] => 0%Z | _ => 30%Z end in
  let docCompleteness := Z.min 100 (Z.of_nat commentCount * 5 + docPresence) in
  let issueCount := Z.of_nat (length foundIssues) in
  let risk := Z.min 100 (issueCount * 15 + complexityPenalty) in
  {| maintainability := maintainability;
     commentScore := commentScore;
     complexityScore := complexityScore;
     clarityScore := clarityScore;
     docCompleteness := docCompleteness;
     risk := risk |}%Z.

(** ** Real-time analysis: the effect run on every change of [code] or
    [documentation], as a function to the four pieces of state it sets. *)

(** [/function|def |public |private |protected |class /g] *)
Definition function_re : regex :=
  alts [lit (L "function"); lit (L "def "); lit (L "public "); lit (L "private ");
        lit (L "protected "); lit (L "class ")].

Definition classify (lines functions : nat) : Complexity :=
  let complexity := Low in
  let complexity := if (50 <? lines)%nat || (5 <? functions)%nat then Medium else complexity in
  let complexity := if (100 <? lines)%nat || (10 <? functions)%nat then High else complexity in
  complexity.

Record Analysis : Type :=
  { codeStats : CodeStats;
    showStats : bool;
    issues : list Issue;
    qualityReport : option QualityReport }.

(** The statistics computed in the branch taken for a text that is not
    blank. *)
Definition structuralStats (code : str) : CodeStats :=
  let lines := length (split_nl code) in
  let functions := length (match_all function_re code) in
  let complexity := classify lines functions in
  {| lines := lines; functions := functions; complexity := complexity |}.

Definition analysis (code documentation : str) : Analysis :=
  match trim code with
  | _ :: _ =>
      let stats := structuralStats code in
      let found := analyzeIssues code in
      let quality := calculateQualityScore code found documentation (complexity stats) in
      {| codeStats := stats;
         showStats := true;
         issues := found;
         qualityReport := Some quality |}
  | [] =>
      {| codeStats := {| lines := 0; functions := 0; complexity := Low |};
         showStats := false;
         issues := [];
         qualityReport := None |}
  end.

(** ** Syntax highlight preview *)

Definition dq : ascii := "034"%char.

(** [s.replace(/&/g, '&amp;').replace(/</g, '&lt;').replace(/>/g, '&gt;')] *)
Definition esc (s : str) : str :=
  replace (Chr (Ascii.eqb ">")) (fun _ => L "&gt;")
    (replace (Chr (Ascii.eqb "<")) (fun _ => L "&lt;")
       (replace (Chr (Ascii.eqb "&")) (fun _ => L "&amp;") s)).

(** [/(\/\*[\s\S]*?\*\/|\/\/.*$|#.*$)/gm] *)
Definition hl_comment_re : regex :=
  alts [Seq (lit (L "/*")) (Seq (Star false any_char) (lit (L "*/")));
        Seq (lit (L "//")) (Seq (Star true dot) Eol);
        Seq (lit (L "#")) (Seq (Star true dot) Eol)].

Definition quoted (q : ascii) : regex :=
  Seq (Chr (Ascii.eqb q))
      (Seq (Star true (Chr (fun c => negb (Ascii.eqb c q)))) (Chr (Ascii.eqb q))).

(** The strings pattern, [/(D[^D]*D|'[^']*'|`[^`]*`)/g] with D the double
    quote. *)
Definition hl_string_re : regex := alts [quoted dq; quoted "'"; quoted "`"].

(** [/\b([0-9]+(?:\.[0-9]+)?)\b/g] *)
Definition hl_number_re : regex :=
  Seq WordB
      (Seq (Seq (Plus (Chr is_digit))
                (Opt (Seq (Chr (Ascii.eqb ".")) (Plus (Chr is_digit)))))
           WordB).

(** An opening span tag with the given class attribute. *)
Definition span_open (cls : string) : str :=
  (L "<span class=" ++ [dq] ++ L cls ++ [dq] ++ L ">")%list.

Definition span_close : str := L "</span>".

Definition span (cls : string) (body : str) : str :=
  (span_open cls ++ body ++ span_close)%list.

Definition keywords_common : list string :=
  ["return"; "const"; "let"; "var"; "if"; "else"; "for"; "while"; "switch"; "case";
   "break"; "continue"; "class"; "new"; "throw"; "try"; "catch"; "finally";
   "import"; "from"; "export"].

Definition keywords_of (lang : LanguageTag) : list string :=
  match lang with
  | java => ["public"; "private"; "protected"; "void"; "throws"; "implements"; "extends"]
  | python => ["def"; "None"; "True"; "False"; "self"; "elif"; "lambda"; "with"; "as"]
  | javascript => ["async"; "await"; "=>"; "function"]
  | cpp => ["#include"; "std::"; "template"; "typename"; "constexpr"]
  | php => ["<?php"; "echo"; "$this"]
  | csharp => ["using"; "namespace"; "Console"; "static"]
  end.

(** Insertion into a [Set]: the first occurrence of each element, in order. *)
Fixpoint set_of (seen l : list string) : list string :=
  match l with
  | [] => []
  | k :: t =>
      if existsb (String.eqb k) seen then set_of seen t
      else k :: set_of (k :: seen) t
  end.

Definition allKeywords (lang : LanguageTag) : list string :=
  set_of [] (keywords_common ++ keywords_of lang).

(** One round of the [forEach] over the keywords.  The pattern is the
    keyword with its metacharacters escaped, between two [\b]; no keyword
    makes a [$] pattern of the replacement string, which is inserted as it
    is. *)
Definition highlight_keyword (html : str) (k : string) : str :=
  replace (word k) (fun _ => span "text-purple-300 font-semibold" (L k)) html.

Definition pre_open : str :=
  (L "<pre style=" ++ [dq]
     ++ L "margin:0;padding:12px;font-family:ui-monospace, SFMono-Regular, Menlo, Monaco, monospace;"
     ++ [dq] ++ L ">")%list.

Definition highlightCode (text : str) (lang : LanguageTag) : str :=
  match text with
  | [] => (pre_open ++ L "// Preview will appear here</pre>")%list
  | _ =>
      let html := esc text in
      let html := replace hl_comment_re (fun m => span "text-slate-400" (esc m)) html in
      let html := replace hl_string_re (fun m => span "text-green-300" (esc m)) html in
      let html := replace hl_number_re (fun m => span "text-yellow-300" m) html in
      let html := fold_left highlight_keyword (allKeywords lang) html in
      (pre_open ++ L "<code>" ++ html ++ L "</code></pre>")%list
  end.


Local Open Scope list_scope.

(** ** Example code map *)

Definition example_java : str := L "public class DataProcessor {
    private Map<String, Object> cache;
    
    public Object processData(String key, byte[] data) throws Exception {
        if (cache.containsKey(key)) {
            return cache.get(key);
        }
        Object result = transform(data);
        cache.put(key, result);
        return result;
    }
    
    private Object transform(byte[] data) {
        return new String(data);
    }
}".

Definition example_python : str := L "def process_records(records, threshold=100):
    results = []
    for r in records:
        val = r.get('value', 0)
        if val > threshold:
            results.append({'id': r['id'], 'processed': val * 1.5})
    return results

def calculate_metrics(data):
    total = sum(data)
    avg = total / len(data) if data else 0
    return {'total': total, 'average': avg}".

Definition example_javascript : str := L "function processData(items) {
    const cache = new Map();
    return items.map(item => {
        if (cache.has(item.id)) {
            return cache.get(item.id);
        }
        const result = transform(item);
        cache.set(item.id, result);
        return result;
    });
}

async function fetchAndProcess(url) {
    const response = await fetch(url);
    const data = await response.json();
    return processData(data);
}".

Definition example_cpp : str := L "#include <iostream>
#include <map>
#include <string>

class DataProcessor {
private:
    std::map<std::string, int> cache;
    
public:
    int processData(std::string key, int* data, int size) {
        if (cache.find(key) != cache.end()) {
            return cache[key];
        }
        int result = transform(data, size);
        cache[key] = result;
        return result;
    }
    
    int transform(int* data, int size) {
        int sum = 0;
        for (int i = 0; i < size; i++) {
            sum += data[i];
        }
        return sum;
    }
};".

Definition example_php : str := L "<?php
class DataProcessor {
    private $cache = [];
    
    public function processData($key, $data) {
        if (isset($this->cache[$key])) {
            return $this->cache[$key];
        }
        $result = $this->transform($data);
        $this->cache[$key] = $result;
        return $result;
    }
    
    private function transform($data) {
        return array_map(function($item) {
            return $item * 2;
        }, $data);
    }
}
?>".

Definition example_csharp : str := L "using System;
using System.Collections.Generic;

public class DataProcessor {
    private Dictionary<string, object> cache;
    
    public object ProcessData(string key, byte[] data) {
        if (cache.ContainsKey(key)) {
            return cache[key];
        }
        var result = Transform(data);
        cache[key] = result;
        return result;
    }
    
    private object Transform(byte[] data) {
        return System.Text.Encoding.UTF8.GetString(data);
    }
}".

Definition exampleCode (language : LanguageTag) : str :=
  match language with
  | java => example_java
  | python => example_python
  | javascript => example_javascript
  | cpp => example_cpp
  | php => example_php
  | csharp => example_csharp
  end.

(** ** Paste handler (auto-detect language) *)

Definition language_eqb (a b : LanguageTag) : bool :=
  match a, b with
  | java, java | python, python | javascript, javascript
  | cpp, cpp | php, php | csharp, csharp => true
  | _, _ => false
  end.

(** The language and the code set by the paste handler. *)
Definition handlePaste (language : LanguageTag) (pastedText : str) : LanguageTag * str :=
  let detectedLang := detectLanguage language pastedText in
  (if negb (language_eqb detectedLang language) then detectedLang else language,
   pastedText).

(** The code and the language set once the dropped file has been read. *)
Definition handleFile (language : LanguageTag) (text : str) : str * LanguageTag :=
  let detected := detectLanguage language text in
  (text, detected).

(** [exampleCode[language] || exampleCode.java]: every entry is a non-empty
    string. *)
Definition loadExample (language : LanguageTag) : str :=
  match exampleCode language with
  | [] => exampleCode java
  | exampleCodeText => exampleCodeText
  end.

(** ** Generate Prompt *)

Inductive DocStyle : Type := comprehensive | concise | tutorial | migration.

Inductive Audience : Type := general | junior | expert | non_technical.

(** The values of the three selects, as the strings the state holds. *)
Definition language_name (language : LanguageTag) : string :=
  match language with
  | java => "java" | python => "python" | javascript => "javascript"
  | cpp => "cpp" | php => "php" | csharp => "csharp"
  end.

Definition audience_name (audience : Audience) : string :=
  match audience with
  | general => "general" | junior => "junior" | expert => "expert"
  | non_technical => "non-technical"
  end.

Definition styleDescriptions (docStyle : DocStyle) : string :=
  match docStyle with
  | comprehensive => "detailed API reference with full explanations"
  | concise => "brief technical summaries"
  | tutorial => "educational style with examples"
  | migration => "refactoring focused with modernization suggestions"
  end.

(** [Array.prototype.join] *)
Fixpoint join (sep : str) (l : list str) : str :=
  match l with
  | [] => []
  | [x] => x
  | x :: l' => x ++ sep ++ join sep l'
  end.

(** [issues.map(i => i.type).join(', ') || 'None'] *)
Definition issue_summary (issues : list Issue) : str :=
  match join (L ", ") (map (fun i => L (type i)) issues) with
  | [] => L "None"
  | s => s
  end.

(** The template literal of the prompt. *)
Definition generatedPrompt (language : LanguageTag) (code : str) (docStyle : DocStyle)
           (audience : Audience) (issues : list Issue) : str :=
  L "You are a technical documentation expert. Analyze and document the following "
  ++ L (language_name language)
  ++ L " code.

CODE:
```"
  ++ L (language_name language)
  ++ L "
"
  ++ code
  ++ L "
```

Documentation style: "
  ++ L (styleDescriptions docStyle)
  ++ L "
Target audience: "
  ++ L (audience_name audience)
  ++ L "

Please provide:
1. **Overview** - What this code does and its purpose
2. **Key Components** - Main classes, functions, and their responsibilities
3. **Parameters & Returns** - All inputs and outputs with types
4. **Usage Examples** - How to use this code correctly
5. **Critical Issues & Fixes** - Identify ALL problems including:
   - Uninitialized variables (null references, missing constructors)
   - Thread safety issues (race conditions, concurrent access)
   - Exception handling problems (overly broad catches, missing checks)
   - Null pointer risks (missing null checks on inputs/outputs)
   - Type safety issues (unsafe casts, generic type problems)
   - Security vulnerabilities
   - Performance bottlenecks
   
   For each issue, provide specific fixes with corrected code examples.

Additionally, summarize the top 5 most important issues found: "
  ++ issue_summary issues
  ++ L ".

Be concise and actionable.".

Module HistoryItem.
Record t : Type :=
  { id : Z;
    language : LanguageTag;
    preview : str;
    timestamp : str;
    style : DocStyle;
    code : str;
    audience : Audience }.
End HistoryItem.

(** The state set by the callback of [generatePrompt]: the prompt, the
    documentation and the history.  [now] and [stamp] stand for [Date.now()]
    and [new Date().toLocaleString()]; [prev] is the history the functional
    update receives.  Nothing is set, and an alert is shown, when the code is
    blank. *)
Definition generatePrompt (now : Z) (stamp : str) (language : LanguageTag) (code : str)
           (docStyle : DocStyle) (audience : Audience) (issues : list Issue)
           (prev : list HistoryItem.t) : option (str * str * list HistoryItem.t) :=
  match trim code with
  | [] => None
  | _ =>
      let generatedPrompt := generatedPrompt language code docStyle audience issues in
      let historyItem :=
        {| HistoryItem.id := now;
           HistoryItem.language := language;
           HistoryItem.preview :=
             firstn 80 code ++ (if (80 <? length code)%nat then L "..." else []);
           HistoryItem.timestamp := stamp;
           HistoryItem.style := docStyle;
           HistoryItem.code := code;
           HistoryItem.audience := audience |} in
      Some (generatedPrompt, [], firstn 100 (historyItem :: prev))
  end.

(** The code, language, style and audience set from a history item (every
    field of an item holds a value, so that no default applies). *)
Definition loadHistoryItem (item : HistoryItem.t)
  : str * LanguageTag * DocStyle * Audience :=
  (HistoryItem.code item, HistoryItem.language item, HistoryItem.style item,
   HistoryItem.audience item).

(** ** Helpers: escape HTML *)

Definition escapeHtml (s : str) : str :=
  match s with
  | [] => []
  | _ =>
      replace (Chr (Ascii.eqb ">")) (fun _ => L "&gt;")
        (replace (Chr (Ascii.eqb "<")) (fun _ => L "&lt;")
           (replace (Chr (Ascii.eqb "&")) (fun _ => L "&amp;") s))
  end.

(** ** Vocabulary of the statements *)

Local Open Scope list_scope.

(** Zero, a finite number or an infinity of sign [s]; in particular not NaN. *)
Inductive signed_as (s : bool) : spec_float -> Prop :=
| signed_zero : signed_as s (S754_zero s)
| signed_infinity : signed_as s (S754_infinity s)
| signed_finite : forall m e, signed_as s (S754_finite s m e).

(** NaN, or a Number whose sign bit is clear. *)
Definition no_minus (x : spec_float) : Prop := x = S754_nan \/ signed_as false x.

(** The division of the maintainability average agrees with the exact
    rounding of n/3. *)
Definition third_ok (n : Z) : bool :=
  (Math_round (fdiv (Number n) (Number 3)) =? (n + 1) / 3)%Z.

(** The order in which the scanner runs its checks. *)
Definition issue_order : list string :=
  ["TODOs"; "Missing Comments"; "Magic Numbers"; "Deprecated patterns";
   "Null checks"; "Deep nesting"; "Long functions"].

(** [l1] is [l2] with some elements left out. *)
Inductive subseq (A : Type) : list A -> list A -> Prop :=
| subseq_nil : subseq [] []
| subseq_skip : forall x l1 l2, subseq l1 l2 -> subseq l1 (x :: l2)
| subseq_take : forall x l1 l2, subseq l1 l2 -> subseq (x :: l1) (x :: l2).

(** [s'] is what is left of [s] after reading a prefix. *)
Definition suffix (s' s : str) : Prop := exists m, s = m ++ s'.

(** A matcher only hands suffixes of its input to its continuation. *)
Definition forwards (A : Type) (m : matcher A) : Prop :=
  forall p s k x, m p s k = Some x ->
                  exists p' s', suffix s' s /\ k p' s' = Some x.

(** The result of a matcher depends on its continuation only at suffixes of
    the input. *)
Definition local (A : Type) (m : matcher A) : Prop :=
  forall p s k k',
    (forall p' s', suffix s' s -> k p' s' = k' p' s') -> m p s k = m p s k'.

(** The character before the position reached after reading [u] from a
    position preceded by [p]. *)
Fixpoint last_char (p : option ascii) (u : str) : option ascii :=
  match u with
  | [] => p
  | c :: t => last_char (Some c) t
  end.

(** [needle] occurs in [s] as a substring. *)
Definition occurs (needle s : str) : Prop := exists u v, s = u ++ needle ++ v.

(** [w] occurs in [s] as a whole word: no word character on either side. *)
Definition contains_word (w : string) (s : str) : Prop :=
  exists u v, s = u ++ L w ++ v
              /\ word_before (last_char None u) = false /\ word_after v = false.

(** The markers of the first two rules of the language detector. *)
Definition python_marker (s : str) : Prop :=
  contains_word "def" s \/ contains_word "import" s.

Definition javascript_marker (s : str) : Prop :=
  contains_word "function" s \/ contains_word "const" s \/ contains_word "let" s.

(** The issue list holds an issue of kind [k]. *)
Definition reports (k : string) (found : list Issue) : bool :=
  existsb (fun i => String.eqb (type i) k) found.

(** A character that is not a word character stands before (after) the
    position. *)
Definition sep_before (p : option ascii) : bool :=
  match p with Some a => negb (is_word a) | None => false end.

Definition sep_after (s : str) : bool :=
  match s with b :: _ => negb (is_word b) | [] => false end.

(** Every digit of the text is a numeric literal of its own: a non-word
    character stands on each side of it. *)
Fixpoint single_digits (p : option ascii) (s : str) : bool :=
  match s with
  | [] => true
  | c :: t =>
      (if is_digit c then sep_before p && sep_after t else true)
      && single_digits (Some c) t
  end.

Definition single_digit_literals (text : str) : bool := single_digits None text.

(** No digit from 2 to 9: the digits of the text are 0 and 1. *)
Definition digits_below_2 (text : str) : bool :=
  forallb (fun c => negb (between "2" "9" c)) text.

(** A line that holds one of the four opening words. *)
Definition opener_line (l : str) : Prop :=
  contains_word "for" l \/ contains_word "while" l
  \/ contains_word "if" l \/ contains_word "switch" l.

(** A line that holds a closing brace or the word end. *)
Definition closer_line (l : str) : Prop :=
  In "}"%char l \/ contains_word "end" l.

(** A line that passes the opener test of the nesting check and neither of
    its closer tests. *)
Definition opens_only (l : str) : Prop :=
  test opener_re l = true /\ test brace_re l = false /\ test end_re l = false.

Definition head_is (b : ascii) (s : str) : bool :=
  match s with x :: _ => Ascii.eqb x b | [] => false end.

(** The last character of [x :: s]. *)
Fixpoint last_of (x : ascii) (s : str) : ascii :=
  match s with [] => x | y :: t => last_of y t end.

Definition ends_with (a : ascii) (s : str) : bool :=
  match s with [] => false | x :: t => Ascii.eqb (last_of x t) a end.

(** No [a] is immediately followed by [b]. *)
Fixpoint pair_free (a b : ascii) (s : str) : bool :=
  match s with
  | [] => true
  | x :: t => negb (Ascii.eqb x a && head_is b t) && pair_free a b t
  end.

(** The text a rendered string shows once its markup is taken away: every
    tag, from a [<] to the next [>], is dropped. *)
Fixpoint strip_tags (in_tag : bool) (s : str) : str :=
  match s with
  | [] => []
  | c :: t =>
      if in_tag then strip_tags (negb (Ascii.eqb c ">")) t
      else if Ascii.eqb c "<" then strip_tags true t
           else c :: strip_tags false t
  end.

Definition visible_text (s : str) : str := strip_tags false s.

(** What a pattern matches: [matches r p m after] when [r] matches the text
    [m] read from a position preceded by [p] and followed by [after]. *)
Inductive matches : regex -> option ascii -> str -> str -> Prop :=
| m_eps : forall p after, matches Eps p [] after
| m_chr : forall f p c after, f c = true -> matches (Chr f) p [c] after
| m_seq : forall a b p m1 m2 after,
    matches a p m1 (m2 ++ after) -> matches b (last_char p m1) m2 after ->
    matches (Seq a b) p (m1 ++ m2) after
| m_alt_l : forall a b p m after, matches a p m after -> matches (Alt a b) p m after
| m_alt_r : forall a b p m after, matches b p m after -> matches (Alt a b) p m after
| m_star_nil : forall g a p after, matches (Star g a) p [] after
| m_star_cons : forall g a p m1 m2 after,
    m1 <> [] ->
    matches a p m1 (m2 ++ after) -> matches (Star g a) (last_char p m1) m2 after ->
    matches (Star g a) p (m1 ++ m2) after
| m_wordb : forall p after,
    xorb (word_before p) (word_after after) = true -> matches WordB p [] after
| m_eol : forall p after,
    match after with [] => true | c :: _ => is_line_terminator c end = true ->
    matches Eol p [] after.

(** Soundness: whatever the matcher hands to its continuation was reached
    by reading a text the pattern matches. *)
Definition sound_for (A : Type) (r : regex) (m : matcher A) : Prop :=
  forall p s k x, m p s k = Some x ->
    exists t after, s = t ++ after /\ matches r p t after
                    /\ k (last_char p t) after = Some x.

(** The markers of the other rules of the language detector. *)
Definition java_marker (s : str) : Prop :=
  contains_word "public class" s \/ contains_word "private" s \/ contains_word "throws" s.

Definition csharp_marker (s : str) : Prop :=
  contains_word "using" s \/ contains_word "namespace" s
  \/ contains_word "console.writeline" s.

Definition cpp_marker (s : str) : Prop :=
  occurs (L "#include") s \/ occurs (L "std::") s.

Definition php_marker (s : str) : Prop :=
  occurs (L "<?php") s \/ contains_word "echo" s.

(** [w] occurs in [s] up to the case of its letters. *)
Definition occurs_nocase (w s : str) : Prop :=
  exists u m v, s = u ++ m ++ v /\ map upper_ascii m = map upper_ascii w.

(** [a], any run of white space, then [b] occurs in [s]. *)
Definition occurs_spaced (a b s : str) : Prop :=
  exists ws, forallb is_space ws = true /\ occurs (a ++ ws ++ b) s.

(** What the null heuristics look for. *)
Definition has_null (text : str) : Prop :=
  occurs (L "null") text \/ occurs (L "NULL") text \/ occurs (L "None") text.

Definition has_null_check (text : str) : Prop :=
  occurs_spaced (L "==") (L "null") text \/ occurs_spaced (L "!=") (L "null") text
  \/ occurs (L "is not None") text \/ occurs (L "is None") text.

Definition has_todo (text : str) : Prop :=
  occurs_nocase (L "TODO") text \/ occurs_nocase (L "FIXME") text
  \/ occurs_nocase (L "XXX") text.

(** auto_ptr, register, or gets followed by white space and an opening
    parenthesis, in any letter case. *)
Definition has_deprecated (text : str) : Prop :=
  occurs_nocase (L "auto_ptr") text \/ occurs_nocase (L "register") text
  \/ exists g ws, map upper_ascii g = L "GETS" /\ forallb is_space ws = true
                  /\ occurs (g ++ ws ++ L "(") text.

Definition has_comment_marker (text : str) : Prop :=
  occurs (L "/*") text \/ occurs (L "*/") text \/ occurs (L "//") text
  \/ occurs (L "# ") text.

(** One of the words that delimit the blocks of the long-function check. *)
Definition has_block_word (text : str) : Prop :=
  contains_word "function" text \/ contains_word "def" text
  \/ contains_word "public" text \/ contains_word "private" text.

(** The number of lines that pass the opener test. *)
Definition opener_count (text : str) : nat :=
  length (filter (test opener_re) (split_nl text)).

(** The entity written for a character, or the character itself. *)
Definition entity (c : ascii) : str :=
  if Ascii.eqb c "&" then L "&amp;"
  else if Ascii.eqb c "<" then L "&lt;"
  else if Ascii.eqb c ">" then L "&gt;"
  else [c].

(** One of the three characters that are escaped. *)
Definition is_special (c : ascii) : bool :=
  Ascii.eqb c "&" || Ascii.eqb c "<" || Ascii.eqb c ">".

Fixpoint starts_with (w s : str) : bool :=
  match w, s with
  | [], _ => true
  | a :: w', b :: s' => Ascii.eqb a b && starts_with w' s'
  | _ :: _, [] => false
  end.

(** Reading the entities back: [skip] characters of an entity already read
    are still to be passed over. *)
Fixpoint unescape_go (skip : nat) (s : str) : str :=
  match s with
  | [] => []
  | c :: t =>
      match skip with
      | S k => unescape_go k t
      | O =>
          if starts_with (L "&amp;") s then "&"%char :: unescape_go 4 t
          else if starts_with (L "&lt;") s then "<"%char :: unescape_go 3 t
          else if starts_with (L "&gt;") s then ">"%char :: unescape_go 3 t
          else c :: unescape_go 0 t
      end
  end.

Definition unescapeHtml (s : str) : str := unescape_go 0 s.

(** A character other than the two angle brackets. *)
Definition not_angle (c : ascii) : bool := negb (Ascii.eqb c "<" || Ascii.eqb c ">").

(** The names that follow the [<] of the tags the highlighter writes. *)
Definition tag_openers : list string :=
  ["span "; "/span>"; "pre "; "code>"; "/code>"; "/pre>"].

(** A character that stands before the [>] of such a tag: the double quote
    that ends an attribute, the last letter of span, of code and of pre, or
    the [>] of a tag that ends just before. *)
Definition closes_tag (a : ascii) : bool :=
  Ascii.eqb a dq || Ascii.eqb a "n" || Ascii.eqb a "e" || Ascii.eqb a ">".

(** [w] occurs in [s], as a test. *)
Fixpoint occursb (w s : str) : bool :=
  starts_with w s || match s with [] => false | _ :: t => occursb w t end.

(** A scanner for the tag names.  Outside a tag name nothing is pending;
    after a [<] the names of [tag_openers] are; inside a name, what is left
    of the names that begin with the characters read since the [<].  The
    scanner stops at a character that continues none of them. *)
Definition advance (c : ascii) (w : str) : list str :=
  match w with
  | a :: w' => if Ascii.eqb a c then [w'] else []
  | [] => []
  end.

Definition is_nil (w : str) : bool := match w with [] => true | _ :: _ => false end.

Definition tag_step (pending : list str) (c : ascii) : option (list str) :=
  match pending with
  | [] => Some (if Ascii.eqb c "<" then map L tag_openers else [])
  | _ :: _ =>
      match flat_map (advance c) pending with
      | [] => None
      | next => Some (if existsb is_nil next then [] else next)
      end
  end.

Fixpoint tag_run (pending : list str) (s : str) : option (list str) :=
  match s with
  | [] => Some pending
  | c :: t =>
      match tag_step pending c with
      | Some next => tag_run next t
      | None => None
      end
  end.

(** What can be pending: nothing, or what a proper prefix of a tag name
    leaves. *)
Definition tag_states : list (list str) :=
  Eval vm_compute in
  [] :: flat_map
          (fun w => flat_map
                      (fun n => match tag_run (map L tag_openers) (firstn n (L w)) with
                                | Some q => [q]
                                | None => []
                                end)
                      (seq 0 (String.length w)))
          tag_openers.

(** Neither a character of a tag name nor a [<]. *)
Definition plain (c : ascii) : bool :=
  negb (existsb (Ascii.eqb c) (L "< />acdenoprs")).

Definition plain_first (m : str) : bool :=
  match m with c :: _ => plain c | [] => false end.

(** A keyword whose occurrences lie outside the tag names: the scanner
    reads it only when nothing is pending, and nothing is pending after
    it. *)
Definition keyword_outside (k : string) : bool :=
  forallb (fun q => match tag_run q (L k) with
                    | None => true
                    | Some q1 => match q, q1 with [], [] => true | _, _ => false end
                    end)
          tag_states.

(** * Properties *)

(** ** Floating point: sign and definedness of the scorer's quotients *)

Section FloatFacts.
Local Open Scope Z_scope.

Lemma iter_pos_invariant (A : Type) (P : A -> Prop) (f : A -> A) :
  (forall x, P x -> P (f x)) -> forall n x, P x -> P (SpecFloat.iter_pos f n x).
Proof.
  intros Hf n; induction n as [n IH | n IH | ]; intros x Hx; simpl; auto.
Qed.

Lemma shr_1_nonneg mrs : 0 <= shr_m mrs -> 0 <= shr_m (shr_1 mrs).
Proof.
  destruct mrs as [m r s]; destruct m as [ | [p | p | ] | p ]; simpl; intros; lia.
Qed.

Lemma shr_nonneg mrs e n : 0 <= shr_m mrs -> 0 <= shr_m (fst (shr mrs e n)).
Proof.
  intros H; destruct n as [ | p | p ]; simpl; auto.
  apply iter_pos_invariant with (P := fun x => 0 <= shr_m x); auto using shr_1_nonneg.
Qed.

Lemma shr_record_of_loc_m m l : shr_m (shr_record_of_loc m l) = m.
Proof. destruct l as [ | [ | | ] ]; reflexivity. Qed.

Lemma shr_fexp_nonneg p em m e l :
  0 <= m -> 0 <= shr_m (fst (shr_fexp p em m e l)).
Proof.
  intros H; unfold shr_fexp; apply shr_nonneg; now rewrite shr_record_of_loc_m.
Qed.

Lemma round_nearest_even_nonneg m l : 0 <= m -> 0 <= round_nearest_even m l.
Proof.
  intros H; destruct l as [ | [ | | ] ]; simpl; try lia.
  destruct (Z.even m); lia.
Qed.

(** Rounding a non-negative mantissa keeps the sign and is never NaN. *)
Lemma binary_round_aux_signed p em sx mx ex lx :
  0 <= mx -> signed_as sx (binary_round_aux p em sx mx ex lx).
Proof.
  intros H; unfold binary_round_aux.
  pose proof (shr_fexp_nonneg p em ex lx H) as H1.
  destruct (shr_fexp p em mx ex lx) as [mrs' e']; simpl in H1.
  pose proof (shr_fexp_nonneg p em e' loc_Exact
                (round_nearest_even_nonneg (loc_of_shr_record mrs') H1)) as H2.
  destruct (shr_fexp p em (round_nearest_even (shr_m mrs') (loc_of_shr_record mrs'))
              e' loc_Exact) as [mrs'' e'']; simpl in H2.
  destruct (shr_m mrs'') as [ | m | m ].
  - constructor.
  - destruct (e'' <=? em - p); constructor.
  - lia.
Qed.

Lemma Number_signed n : 0 <= n -> signed_as false (Number n).
Proof.
  intros H; unfold Number, binary_normalize.
  destruct n as [ | m | m ]; [ constructor | | lia ].
  unfold binary_round.
  destruct (shl_align m 0 (fexp prec64 emax64 (Z.pos (digits2_pos m) + 0))) as [mz ez].
  apply binary_round_aux_signed; lia.
Qed.

Lemma div_core_nonneg p em mx ex my ey :
  0 <= fst (fst (SFdiv_core_binary p em (Zpos mx) ex (Zpos my) ey)).
Proof.
  unfold SFdiv_core_binary.
  set (s := _ - _ - Z.min _ _).
  set (m' := match s with Zpos _ => _ | 0 => _ | Zneg _ => _ end).
  assert (Hm : 0 <= m').
  { subst m'; destruct s; try lia. apply Z.shiftl_nonneg; lia. }
  pose proof (Z_div_mod m' (Zpos my) ltac:(lia)) as Hd.
  destruct (Z.div_eucl m' (Z.pos my)) as [q r]; simpl.
  destruct Hd as [Hq Hr]. nia.
Qed.

Lemma fdiv_no_minus x y : no_minus x -> no_minus y -> no_minus (fdiv x y).
Proof.
  intros [-> | Hx] [-> | Hy]; try (left; reflexivity);
    try (left; destruct x; reflexivity).
  destruct Hx, Hy; simpl; try (left; reflexivity); try (right; constructor).
  right. unfold fdiv, SFdiv. simpl xorb.
  pose proof (div_core_nonneg prec64 emax64 m e m0 e0) as H.
  destruct (SFdiv_core_binary prec64 emax64 (Z.pos m) e (Z.pos m0) e0) as [[mz ez] lz].
  now apply binary_round_aux_signed.
Qed.

Lemma fmul_no_minus x y : no_minus x -> no_minus y -> no_minus (fmul x y).
Proof.
  intros [-> | Hx] [-> | Hy]; try (left; reflexivity);
    try (left; destruct x; reflexivity).
  destruct Hx, Hy; simpl; try (left; reflexivity); try (right; constructor).
  right. unfold fmul, SFmul. simpl xorb.
  apply binary_round_aux_signed; lia.
Qed.

Lemma Math_round_nonneg x : no_minus x -> 0 <= Math_round x.
Proof.
  intros [-> | H]; [ simpl; lia | ].
  destruct H as [ | | m e ]; cbn [Math_round]; try lia.
  destruct e as [ | e | e ].
  - rewrite Z.pow_0_r; lia.
  - apply Z.mul_nonneg_nonneg; [ lia | apply Z.pow_nonneg; lia ].
  - apply Z.div_pos; [ | apply Z.pow_pos_nonneg; lia ].
    assert (0 <= 2 ^ Z.pos e) by (apply Z.pow_nonneg; lia). lia.
Qed.

Lemma digits2_pos_lower m : 2 ^ (Z.pos (digits2_pos m) - 1) <= Z.pos m.
Proof.
  induction m as [m IH | m IH | ]; simpl digits2_pos.
  - rewrite Pos2Z.inj_succ.
    replace (Z.succ (Z.pos (digits2_pos m)) - 1) with (Z.succ (Z.pos (digits2_pos m) - 1)) by lia.
    rewrite Z.pow_succ_r by lia. lia.
  - rewrite Pos2Z.inj_succ.
    replace (Z.succ (Z.pos (digits2_pos m)) - 1) with (Z.succ (Z.pos (digits2_pos m) - 1)) by lia.
    rewrite Z.pow_succ_r by lia. lia.
  - simpl. lia.
Qed.

Lemma digits2_pos_bound m : Z.pos m < 2 ^ 53 -> Z.pos (digits2_pos m) <= 53.
Proof.
  intros H. destruct (Z_le_gt_dec (Z.pos (digits2_pos m)) 53) as [ | Hgt ]; auto.
  pose proof (digits2_pos_lower m) as Hl.
  assert (2 ^ 53 <= 2 ^ (Z.pos (digits2_pos m) - 1)) by (apply Z.pow_le_mono_r; lia).
  lia.
Qed.

Lemma digits2_pos_shift m d :
  digits2_pos (Pos.iter xO m d) = (digits2_pos m + d)%positive.
Proof.
  induction d as [ | d IH ] using Pos.peano_ind.
  - simpl. lia.
  - rewrite Pos.iter_succ. simpl. rewrite IH. lia.
Qed.

(** A positive integer of at most 53 bits is a finite Number. *)
Lemma Number_finite n :
  0 < n < 2 ^ 53 -> exists m e, Number n = S754_finite false m e.
Proof.
  intros [Hpos Hlt]. destruct n as [ | m | m ]; try lia.
  unfold Number, binary_normalize, binary_round.
  pose proof (@digits2_pos_bound m Hlt) as Hd.
  assert (Hf : fexp prec64 emax64 (Z.pos (digits2_pos m) + 0) = Z.pos (digits2_pos m) - 53).
  { unfold fexp, emin, prec64, emax64. lia. }
  rewrite Hf.
  assert (Hal : exists mz ez, shl_align m 0 (Z.pos (digits2_pos m) - 53) = (mz, ez)
                 /\ Z.pos (digits2_pos mz) + ez = 53 + ez /\ -52 <= ez <= 0).
  { unfold shl_align.
    destruct (Z.pos (digits2_pos m) - 53 - 0) as [ | d | d ] eqn:E; try lia.
    - exists m, 0. repeat split; lia.
    - exists (Pos.iter xO m d), (Z.pos (digits2_pos m) - 53).
      rewrite digits2_pos_shift. repeat split; lia. }
  destruct Hal as (mz & ez & -> & Hdig & Hez).
  assert (Hs : forall l, shr_fexp prec64 emax64 (Z.pos mz) ez l = (shr_record_of_loc (Z.pos mz) l, ez)).
  { intros l. unfold shr_fexp. simpl Zdigits2.
    replace (fexp prec64 emax64 (Z.pos (digits2_pos mz) + ez) - ez) with 0.
    - reflexivity.
    - unfold fexp, emin, prec64, emax64. lia. }
  unfold binary_round_aux. rewrite Hs. simpl. rewrite Hs. simpl.
  replace (ez <=? 971) with true by (symmetry; apply Z.leb_le; lia).
  eauto.
Qed.

Lemma fdiv_finite_signed x m e :
  signed_as false x -> signed_as false (fdiv x (S754_finite false m e)).
Proof.
  intros Hx; destruct Hx as [ | | mx ex ]; simpl; try constructor.
  unfold fdiv, SFdiv. simpl xorb.
  pose proof (div_core_nonneg prec64 emax64 mx ex m e) as H.
  destruct (SFdiv_core_binary prec64 emax64 (Z.pos mx) ex (Z.pos m) e) as [[mz ez] lz].
  now apply binary_round_aux_signed.
Qed.

Lemma fmul_finite_signed x m e :
  signed_as false x -> signed_as false (fmul x (S754_finite false m e)).
Proof.
  intros Hx; destruct Hx as [ | | mx ex ]; simpl; try constructor.
  unfold fmul, SFmul. simpl xorb.
  apply binary_round_aux_signed; lia.
Qed.

(** The quotient behind [commentScore] is a non-negative Number, never
    NaN, whenever the line count is below 2^53. *)
Lemma comment_ratio_not_nan (c l : nat) :
  0 < Z.of_nat l < 2 ^ 53 ->
  signed_as false
    (fmul (fmul (fdiv (Number (Z.of_nat c)) (Number (Z.of_nat l))) (Number 100)) Number_1_2).
Proof.
  intros Hl. destruct (@Number_finite (Z.of_nat l) Hl) as (m & e & ->).
  destruct (@Number_finite 100 ltac:(lia)) as (m1 & e1 & ->).
  unfold Number_1_2.
  apply fmul_finite_signed, fmul_finite_signed, fdiv_finite_signed, Number_signed. lia.
Qed.

Lemma third_table : forallb third_ok (map Z.of_nat (seq 0 301)) = true.
Proof. vm_compute. reflexivity. Qed.

Lemma round_third n :
  0 <= n <= 300 -> Math_round (fdiv (Number n) (Number 3)) = (n + 1) / 3.
Proof.
  intros H. pose proof third_table as T. rewrite forallb_forall in T.
  specialize (T n). apply Z.eqb_eq. apply T.
  rewrite <- (Z2Nat.id n) by lia. apply in_map, in_seq. lia.
Qed.
End FloatFacts.

(** ** The matcher reads forwards *)

Section Engine.
Lemma suffix_refl s : suffix s s.
Proof. now exists []. Qed.

Lemma suffix_trans s1 s2 s3 : suffix s1 s2 -> suffix s2 s3 -> suffix s1 s3.
Proof. intros [m1 ->] [m2 ->]. exists (m2 ++ m1). now rewrite app_assoc. Qed.

Lemma suffix_cons c s : suffix s (c :: s).
Proof. now exists [c]. Qed.

Lemma suffix_length s' s : suffix s' s -> length s' <= length s.
Proof. intros [m ->]. rewrite length_app. lia. Qed.

Lemma repeat_matcher_forwards (A : Type) (m : matcher A) g fuel :
  forwards m -> forwards (repeat_matcher m g fuel).
Proof.
  intros Hm. induction fuel as [ | fuel IH ]; intros p s k x; simpl.
  - intros H. exists p, s. split; [ apply suffix_refl | exact H ].
  - assert (Hagain :
              m p s (fun p' s' => if (length s' <? length s)%nat
                                  then repeat_matcher m g fuel p' s' k else None) = Some x ->
              exists p' s', suffix s' s /\ k p' s' = Some x).
    { intros H. apply Hm in H. destruct H as (p1 & s1 & Hs1 & H).
      destruct (length s1 <? length s)%nat; [ | discriminate ].
      apply IH in H. destruct H as (p2 & s2 & Hs2 & H).
      exists p2, s2. split; [ eapply suffix_trans; eauto | exact H ]. }
    destruct g.
    + destruct (m p s _) eqn:E.
      * intros H; injection H as <-. auto.
      * intros H. exists p, s. split; [ apply suffix_refl | exact H ].
    + destruct (k p s) eqn:E.
      * intros H; injection H as <-. exists p, s. split; [ apply suffix_refl | exact E ].
      * auto.
Qed.

Lemma compile_forwards (A : Type) (r : regex) : forwards (compile (A := A) r).
Proof.
  induction r as [ | f | a IHa b IHb | a IHa b IHb | g a IHa | | ];
    intros p s k x; cbn [compile].
  - intros H. exists p, s. split; [ apply suffix_refl | exact H ].
  - destruct s as [ | c s ]; [ discriminate | ].
    destruct (f c); [ | discriminate ].
    intros H. exists (Some c), s. split; [ apply suffix_cons | exact H ].
  - intros H. apply IHa in H. destruct H as (p1 & s1 & Hs1 & H).
    apply IHb in H. destruct H as (p2 & s2 & Hs2 & H).
    exists p2, s2. split; [ eapply suffix_trans; eauto | exact H ].
  - destruct (compile a p s k) eqn:E.
    + intros H; injection H as <-. now apply IHa in E.
    + apply IHb.
  - apply (repeat_matcher_forwards g (S (length s)) IHa).
  - destruct (xorb _ _); [ | discriminate ].
    intros H. exists p, s. split; [ apply suffix_refl | exact H ].
  - destruct s as [ | c s ].
    + intros H. exists p, []. split; [ apply suffix_refl | exact H ].
    + destruct (is_line_terminator c); [ | discriminate ].
      intros H. exists p, (c :: s). split; [ apply suffix_refl | exact H ].
Qed.

Lemma exec_suffix r p s p' s' : exec r p s = Some (p', s') -> suffix s' s.
Proof.
  unfold exec. intros H. apply compile_forwards in H.
  destruct H as (p1 & s1 & Hs & H). now injection H as <- <-.
Qed.

Lemma matched_app m s' : matched (m ++ s') s' = m.
Proof.
  unfold matched. rewrite length_app.
  replace (length m + length s' - length s') with (length m) by lia.
  rewrite firstn_app, firstn_all, Nat.sub_diag. simpl. apply app_nil_r.
Qed.
End Engine.

(** ** The fuel is enough *)

Section Fuel.
Lemma repeat_matcher_local (A : Type) (m : matcher A) g fuel :
  local m -> local (repeat_matcher m g fuel).
Proof.
  intros Hm. induction fuel as [ | fuel IH ]; intros p s k k' Hk; cbn [repeat_matcher].
  - apply Hk, suffix_refl.
  - rewrite (Hk p s (suffix_refl s)).
    replace (m p s (fun p' s' => if (length s' <? length s)%nat
                                 then repeat_matcher m g fuel p' s' k else None))
      with (m p s (fun p' s' => if (length s' <? length s)%nat
                                then repeat_matcher m g fuel p' s' k' else None));
      [ reflexivity | ].
    apply Hm. intros p' s' Hs. destruct (length s' <? length s)%nat; [ | reflexivity ].
    symmetry. apply IH. intros p2 s2 H2. apply Hk. eapply suffix_trans; eauto.
Qed.

Lemma compile_local (A : Type) (r : regex) : local (compile (A := A) r).
Proof.
  induction r as [ | f | a IHa b IHb | a IHa b IHb | g a IHa | | ];
    intros p s k k' Hk; cbn [compile].
  - apply Hk, suffix_refl.
  - destruct s as [ | c s ]; [ reflexivity | ].
    destruct (f c); [ apply Hk, suffix_cons | reflexivity ].
  - apply IHa. intros p1 s1 H1. apply IHb. intros p2 s2 H2.
    apply Hk. eapply suffix_trans; eauto.
  - rewrite (IHa p s k k' Hk), (IHb p s k k' Hk). reflexivity.
  - apply repeat_matcher_local; [ exact IHa | exact Hk ].
  - destruct (xorb _ _); [ apply Hk, suffix_refl | reflexivity ].
  - destruct s as [ | c s ]; [ apply Hk, suffix_refl | ].
    destruct (is_line_terminator c); [ apply Hk, suffix_refl | reflexivity ].
Qed.

(** The fuel of a repetition is never used up: any amount beyond the length
    of the input gives the same result. *)
Lemma repeat_matcher_fuel (A : Type) (m : matcher A) g :
  local m ->
  forall fuel1 fuel2 p s (k : cont A),
    length s < fuel1 -> length s < fuel2 ->
    repeat_matcher m g fuel1 p s k = repeat_matcher m g fuel2 p s k.
Proof.
  intros Hm. induction fuel1 as [ | fuel1 IH ]; intros fuel2 p s k H1 H2; [ lia | ].
  destruct fuel2 as [ | fuel2 ]; [ lia | ]. cbn [repeat_matcher].
  replace (m p s (fun p' s' => if (length s' <? length s)%nat
                               then repeat_matcher m g fuel1 p' s' k else None))
    with (m p s (fun p' s' => if (length s' <? length s)%nat
                              then repeat_matcher m g fuel2 p' s' k else None));
    [ reflexivity | ].
  apply Hm. intros p' s' Hs.
  destruct (Nat.ltb_spec (length s') (length s)); [ | reflexivity ].
  symmetry. apply IH; lia.
Qed.

Variable r : regex.

Lemma matched_nonempty s s' c m :
  matched s s' = c :: m -> suffix s' s -> length s' < length s.
Proof.
  unfold matched. intros H Hs. apply suffix_length in Hs.
  destruct (Nat.eq_dec (length s') (length s)) as [ E | ]; [ | lia ].
  rewrite E, Nat.sub_diag in H. discriminate.
Qed.

(** Nor is the fuel of the global drivers. *)
Lemma match_go_fuel fuel1 : forall fuel2 p s,
    length s < fuel1 -> length s < fuel2 ->
    match_go r fuel1 p s = match_go r fuel2 p s.
Proof.
  induction fuel1 as [ | fuel1 IH ]; intros fuel2 p s H1 H2; [ lia | ].
  destruct fuel2 as [ | fuel2 ]; [ lia | ]. cbn [match_go].
  assert (Hskip : match s with [] => [] | c :: t => match_go r fuel1 (Some c) t end
                  = match s with [] => [] | c :: t => match_go r fuel2 (Some c) t end).
  { destruct s as [ | c t ]; [ reflexivity | ]. cbn [length] in *. apply IH; lia. }
  destruct (exec r p s) as [ [p' s'] | ] eqn:E; [ | exact Hskip ].
  apply exec_suffix in E.
  destruct (matched s s') as [ | c m ] eqn:Em; [ now rewrite Hskip | ].
  pose proof (matched_nonempty Em E). f_equal. apply IH; lia.
Qed.

Lemma replace_go_fuel f fuel1 : forall fuel2 p s,
    length s < fuel1 -> length s < fuel2 ->
    replace_go r f fuel1 p s = replace_go r f fuel2 p s.
Proof.
  induction fuel1 as [ | fuel1 IH ]; intros fuel2 p s H1 H2; [ lia | ].
  destruct fuel2 as [ | fuel2 ]; [ lia | ]. cbn [replace_go].
  assert (Hskip : match s with [] => [] | c :: t => c :: replace_go r f fuel1 (Some c) t end
                  = match s with [] => [] | c :: t => c :: replace_go r f fuel2 (Some c) t end).
  { destruct s as [ | c t ]; [ reflexivity | ]. cbn [length] in *. f_equal. apply IH; lia. }
  destruct (exec r p s) as [ [p' s'] | ] eqn:E; [ | exact Hskip ].
  apply exec_suffix in E.
  destruct (matched s s') as [ | c m ] eqn:Em; [ now rewrite Hskip | ].
  pose proof (matched_nonempty Em E). f_equal. apply IH; lia.
Qed.

Lemma split_go_fuel fuel1 : forall fuel2 p acc s,
    2 * length s + (if (length acc =? 0)%nat then 0 else 1) < fuel1 ->
    2 * length s + (if (length acc =? 0)%nat then 0 else 1) < fuel2 ->
    split_go r fuel1 p acc s = split_go r fuel2 p acc s.
Proof.
  induction fuel1 as [ | fuel1 IH ]; intros fuel2 p acc s H1 H2; [ lia | ].
  destruct fuel2 as [ | fuel2 ]; [ lia | ]. cbn [split_go].
  destruct s as [ | c t ]; [ reflexivity | ]. cbn [length] in H1, H2.
  destruct (exec r p (c :: t)) as [ [p' s'] | ] eqn:E.
  - apply exec_suffix, suffix_length in E. cbn [length] in E.
    destruct (Nat.eqb_spec (length s') (length (c :: t))) as [ El | El ];
      destruct (Nat.eqb_spec (length acc) 0) as [ Ea | Ea ]; cbn [andb length] in *.
    + apply IH; cbn [length Nat.eqb]; lia.
    + f_equal. apply IH; cbn [length Nat.eqb]; lia.
    + f_equal. apply IH; cbn [length Nat.eqb]; lia.
    + f_equal. apply IH; cbn [length Nat.eqb]; lia.
  - apply IH; cbn [length Nat.eqb];
      destruct (Nat.eqb_spec (length acc) 0); lia.
Qed.
End Fuel.

(** ** Searching, and what the global match finds *)

Section Scan.
Variable r : regex.

Lemma search_eq p s :
  search r p s =
  match exec r p s with
  | Some _ => true
  | None => match s with [] => false | c :: t => search r (Some c) t end
  end.
Proof. destruct s; reflexivity. Qed.

Lemma search_complete u : forall p v,
    exec r (last_char p u) v <> None -> search r p (u ++ v) = true.
Proof.
  induction u as [ | c u IH ]; intros p v H; rewrite search_eq; simpl in *.
  - destruct (exec r p v); congruence.
  - destruct (exec r p (c :: u ++ v)); auto.
Qed.

Lemma search_sound s : forall p,
    search r p s = true ->
    exists u v, s = u ++ v /\ exec r (last_char p u) v <> None.
Proof.
  induction s as [ | c s IH ]; intros p; rewrite search_eq.
  - destruct (exec r p []) eqn:E; [ | discriminate ].
    intros _. exists [], []. simpl. split; congruence.
  - destruct (exec r p (c :: s)) eqn:E.
    + intros _. exists [], (c :: s). simpl. split; congruence.
    + intros H. apply IH in H. destruct H as (u & v & -> & H).
      exists (c :: u), v. auto.
Qed.

Lemma match_go_nil fuel : forall p s,
    length s < fuel -> (match_go r fuel p s = [] <-> search r p s = false).
Proof.
  induction fuel as [ | fuel IH ]; intros p s Hl; [ lia | ].
  rewrite search_eq. cbn [match_go].
  destruct (exec r p s) as [ [p' s'] | ].
  - split; [ | discriminate ]. destruct (matched s s'); discriminate.
  - destruct s as [ | c t ]; [ tauto | ]. apply IH. simpl in Hl. lia.
Qed.

Lemma match_all_nil s : match_all r s = [] <-> test r s = false.
Proof. apply match_go_nil. lia. Qed.

Lemma match_all_count s : (0 <? length (match_all r s))%nat = test r s.
Proof.
  pose proof (match_all_nil s) as H.
  destruct (match_all r s); destruct (test r s); simpl; intuition congruence.
Qed.
End Scan.

(** ** Character classes *)

Section Chars.
Lemma between_sub lo hi lo' hi' c :
  (ord lo' <= ord lo)%N -> (ord hi <= ord hi')%N ->
  between lo hi c = true -> between lo' hi' c = true.
Proof.
  unfold between. rewrite !andb_true_iff, !N.leb_le. lia.
Qed.

Lemma digit_is_word c : is_digit c = true -> is_word c = true.
Proof. unfold is_word. intros ->. now rewrite !orb_true_r. Qed.

Lemma non_word_not_digit c : is_word c = false -> is_digit c = false.
Proof.
  intros H. destruct (is_digit c) eqn:E; auto.
  apply digit_is_word in E. congruence.
Qed.

Lemma between_2_9_digit c : between "2" "9" c = true -> is_digit c = true.
Proof. apply between_sub; vm_compute; discriminate. Qed.

Lemma between_1_9_digit c : between "1" "9" c = true -> is_digit c = true.
Proof. apply between_sub; vm_compute; discriminate. Qed.
End Chars.
(** ** The magic-number pattern *)

Section Magic.
(** No match can start where the text has isolated digits below 2. *)
Lemma magic_no_match p s :
  single_digits p s = true -> digits_below_2 s = true -> exec magic_re p s = None.
Proof.
  intros Hs Hd. unfold exec, magic_re, non_word, Opt.
  destruct s as [ | c0 s ]; [ reflexivity | ].
  cbn [compile]. destruct (negb (is_word c0)); [ | reflexivity ].
  destruct s as [ | c1 s ]; [ reflexivity | ].
  cbn [single_digits digits_below_2 forallb] in Hs, Hd.
  apply andb_prop in Hd; destruct Hd as [_ Hd].
  apply andb_prop in Hd; destruct Hd as [H1 _].
  apply negb_true_iff in H1. rewrite H1.
  destruct (between "1" "9" c1) eqn:E1; [ | reflexivity ].
  apply between_1_9_digit in E1.
  apply andb_prop in Hs; destruct Hs as [_ Hs].
  apply andb_prop in Hs; destruct Hs as [Hs _].
  rewrite E1 in Hs. apply andb_prop in Hs; destruct Hs as [_ Hs].
  destruct s as [ | c2 s ]; [ reflexivity | ].
  cbn [sep_after] in Hs. apply negb_true_iff, non_word_not_digit in Hs.
  now rewrite Hs.
Qed.

Lemma magic_quiet s : forall p,
    single_digits p s = true -> digits_below_2 s = true -> search magic_re p s = false.
Proof.
  induction s as [ | c s IH ]; intros p Hs Hd; rewrite search_eq, magic_no_match; auto.
  cbn [single_digits digits_below_2 forallb] in Hs, Hd.
  apply andb_prop in Hs; destruct Hs as [_ Hs].
  apply andb_prop in Hd; destruct Hd as [_ Hd]. auto.
Qed.

(** A digit from 2 to 9 between two non-word characters is matched. *)
Lemma magic_single p a d b post :
  is_word a = false -> between "2" "9" d = true -> is_word b = false ->
  exec magic_re p (a :: d :: b :: post) <> None.
Proof.
  intros Ha Hd Hb. unfold exec, magic_re, non_word, Opt. cbn [compile].
  rewrite Ha, Hd, Hb, (non_word_not_digit _ Hb). simpl. discriminate.
Qed.

(** So is a first digit from 2 to 9 followed by one more digit. *)
Lemma magic_double p a d1 d2 b post :
  is_word a = false -> between "2" "9" d1 = true -> is_digit d2 = true ->
  is_word b = false ->
  exec magic_re p (a :: d1 :: d2 :: b :: post) <> None.
Proof.
  intros Ha H1 H2 Hb. unfold exec, magic_re, non_word, Opt. cbn [compile].
  rewrite Ha, H1, H2, Hb. simpl. discriminate.
Qed.
End Magic.

(** ** Texts without a given pair of adjacent characters *)

Section PairFree.
Variables a b : ascii.

Lemma ends_with_cons x s : s <> [] -> ends_with a (x :: s) = ends_with a s.
Proof. destruct s; [ congruence | reflexivity ]. Qed.

Lemma pair_free_app u v :
  pair_free a b u = true -> pair_free a b v = true ->
  ends_with a u && head_is b v = false ->
  pair_free a b (u ++ v) = true.
Proof.
  induction u as [ | x u IH ]; intros Hu Hv Hj; [ exact Hv | ].
  cbn [pair_free app] in *. apply andb_prop in Hu; destruct Hu as [H1 H2].
  destruct u as [ | y u ].
  - cbn [app] in *. rewrite Hv, andb_true_r.
    cbn [ends_with last_of] in Hj. now rewrite Hj.
  - rewrite IH; auto. now rewrite andb_true_r.
Qed.

Lemma pair_free_split u v :
  pair_free a b (u ++ v) = true -> pair_free a b u = true /\ pair_free a b v = true.
Proof.
  induction u as [ | x u IH ]; cbn [pair_free app]; intros H; [ auto | ].
  apply andb_prop in H; destruct H as [H1 H2]. apply IH in H2. destruct H2 as [H2 H3].
  split; auto. rewrite H2, andb_true_r.
  destruct u as [ | y u ]; [ cbn; now rewrite andb_false_r | exact H1 ].
Qed.

Lemma pair_free_suffix s' s : suffix s' s -> pair_free a b s = true -> pair_free a b s' = true.
Proof. intros [m ->] H. now apply pair_free_split in H. Qed.

Lemma pair_free_matched s s' : pair_free a b s = true -> pair_free a b (matched s s') = true.
Proof.
  unfold matched. intros H.
  rewrite <- (firstn_skipn (length s - length s') s) in H.
  now apply pair_free_split in H.
Qed.

Lemma pair_free_absent s : ~ In b s -> pair_free a b s = true.
Proof.
  induction s as [ | x s IH ]; cbn [pair_free]; intros H; auto.
  rewrite IH by (intros ?; apply H; now right).
  destruct s as [ | y s ]; cbn [head_is]; [ now rewrite andb_false_r | ].
  destruct (Ascii.eqb_spec y b) as [-> | _ ]; [ | now rewrite andb_false_r ].
  exfalso; apply H; right; now left.
Qed.

Lemma pair_free_occurs u v : pair_free a b (u ++ a :: b :: v) = false.
Proof.
  induction u as [ | x u IH ]; cbn [pair_free app head_is].
  - now rewrite !Ascii.eqb_refl.
  - rewrite IH. apply andb_false_r.
Qed.

(** Global replacement keeps a text pair-free when every replacement is
    pair-free, does not begin with [b] and does not end with [a]. *)
Section Replace.
Variables (r : regex) (f : str -> str).
Hypothesis f_free : forall m, pair_free a b m = true -> pair_free a b (f m) = true.
Hypothesis f_head : forall m, f m <> [] /\ head_is b (f m) = false.
Hypothesis f_last : forall m, ends_with a (f m) = false.

Lemma replace_go_head fuel : forall p s,
    head_is b (replace_go r f fuel p s) = true -> head_is b s = true.
Proof.
  destruct fuel as [ | fuel ]; intros p s; cbn [replace_go]; auto.
  assert (Hf : forall m x, head_is b (f m ++ x) = true -> head_is b s = true).
  { intros m x. destruct (f_head m) as [Hn Hh].
    destruct (f m); [ congruence | ]. cbn [app head_is] in *. congruence. }
  destruct (exec r p s) as [ [p' s'] | ].
  - destruct (matched s s'); apply Hf.
  - destruct s; auto.
Qed.

Lemma replace_go_pair_free fuel : forall p s,
    pair_free a b s = true -> pair_free a b (replace_go r f fuel p s) = true.
Proof.
  induction fuel as [ | fuel IH ]; intros p s Hs; cbn [replace_go]; auto.
  assert (Hskip : pair_free a b
                    match s with [] => [] | c :: t => c :: replace_go r f fuel (Some c) t end
                  = true).
  { destruct s as [ | c t ]; auto. cbn [pair_free] in *.
    apply andb_prop in Hs; destruct Hs as [H1 H2]. rewrite IH by auto.
    rewrite andb_true_r. destruct (Ascii.eqb c a); auto. cbn [andb negb] in *.
    destruct (head_is b (replace_go r f fuel (Some c) t)) eqn:E; auto.
    apply replace_go_head in E. now rewrite E in H1. }
  destruct (exec r p s) as [ [p' s'] | ] eqn:E; auto.
  apply exec_suffix in E.
  destruct (matched s s') eqn:Em.
  - apply pair_free_app; auto. now rewrite f_last.
  - rewrite <- Em. apply pair_free_app.
    + apply f_free, pair_free_matched, Hs.
    + apply IH. eapply pair_free_suffix; eauto.
    + now rewrite f_last.
Qed.

Lemma replace_pair_free s :
  pair_free a b s = true -> pair_free a b (replace r f s) = true.
Proof. apply replace_go_pair_free. Qed.
End Replace.
End PairFree.

(** ** Escaping *)

Section Escape.
(** Replacing a one-character pattern by a constant is a [flat_map]. *)
Lemma replace_go_chr f by_ fuel : forall p s,
    length s < fuel ->
    replace_go (Chr f) (fun _ => by_) fuel p s
    = flat_map (fun c => if f c then by_ else [c]) s.
Proof.
  induction fuel as [ | fuel IH ]; intros p s Hl; [ lia | ].
  destruct s as [ | c t ]; [ reflexivity | ].
  cbn [replace_go exec compile flat_map]. simpl in Hl.
  destruct (f c).
  - replace (matched (c :: t) t) with [c].
    + rewrite IH by lia. reflexivity.
    + unfold matched. cbn [length].
      replace (S (length t) - length t) with 1 by lia. reflexivity.
  - rewrite IH by lia. reflexivity.
Qed.

Lemma replace_chr f by_ s :
  replace (Chr f) (fun _ => by_) s = flat_map (fun c => if f c then by_ else [c]) s.
Proof. apply replace_go_chr. lia. Qed.

Lemma esc_flat_map s :
  esc s = flat_map (fun c => if Ascii.eqb ">" c then L "&gt;" else [c])
            (flat_map (fun c => if Ascii.eqb "<" c then L "&lt;" else [c])
               (flat_map (fun c => if Ascii.eqb "&" c then L "&amp;" else [c]) s)).
Proof. unfold esc. now rewrite !replace_chr. Qed.

Lemma esc_no_gt s : ~ In ">"%char (esc s).
Proof.
  rewrite esc_flat_map. intros H. apply in_flat_map in H.
  destruct H as (c & _ & H). destruct (Ascii.eqb_spec ">" c) as [ | Hn ].
  - simpl in H. intuition discriminate.
  - simpl in H. intuition congruence.
Qed.

Lemma esc_no_lt s : ~ In "<"%char (esc s).
Proof.
  rewrite esc_flat_map. intros H. apply in_flat_map in H.
  destruct H as (c & Hc & H). destruct (Ascii.eqb_spec ">" c) as [ | _ ].
  - simpl in H. intuition discriminate.
  - simpl in H. destruct H as [ -> | [] ].
    apply in_flat_map in Hc. destruct Hc as (c & _ & H).
    destruct (Ascii.eqb_spec "<" c) as [ | Hn ]; simpl in H;
      intuition (discriminate || congruence).
Qed.
End Escape.
(** ** The highlighter never writes [t>] *)

Section Highlight.
Local Abbreviation tfree := (pair_free "t" ">").

Lemma ends_with_snoc a u c : ends_with a (u ++ [c]) = Ascii.eqb c a.
Proof.
  destruct u as [ | x u ]; [ reflexivity | ]. cbn [app ends_with].
  revert x; induction u as [ | y u IH ]; intros x; [ reflexivity | apply IH ].
Qed.

Lemma span_free cls body :
  tfree (span_open cls) = true -> tfree body = true -> tfree (span cls body) = true.
Proof.
  intros Ho Hb. unfold span. apply pair_free_app; auto.
  - apply pair_free_app; auto. apply andb_false_r.
  - unfold span_open. rewrite !app_assoc.
    change (L ">") with [">"%char]. now rewrite ends_with_snoc.
Qed.

Lemma span_head cls body : span cls body <> [] /\ head_is ">" (span cls body) = false.
Proof. split; [ discriminate | reflexivity ]. Qed.

Lemma span_last cls body : ends_with "t" (span cls body) = false.
Proof.
  unfold span, span_close.
  change (L "</span>") with (L "</span" ++ [">"%char]).
  now rewrite !app_assoc, ends_with_snoc.
Qed.

Lemma highlight_keyword_free k html :
  tfree (L k) = true -> tfree html = true -> tfree (highlight_keyword html k) = true.
Proof.
  intros Hk Hh. unfold highlight_keyword. apply replace_pair_free; auto.
  - intros m _. apply span_free; auto.
  - intros m. apply span_head.
  - intros m. apply span_last.
Qed.

Lemma keywords_free lang : forallb (fun k => tfree (L k)) (allKeywords lang) = true.
Proof. destruct lang; reflexivity. Qed.

Lemma fold_keywords_free ks : forall html,
    forallb (fun k => tfree (L k)) ks = true -> tfree html = true ->
    tfree (fold_left highlight_keyword ks html) = true.
Proof.
  induction ks as [ | k ks IH ]; intros html Hk Hh; cbn [fold_left]; auto.
  cbn [forallb] in Hk. apply andb_prop in Hk. destruct Hk as [H1 H2].
  apply IH; auto. now apply highlight_keyword_free.
Qed.

Lemma highlightCode_free text lang : tfree (highlightCode text lang) = true.
Proof.
  unfold highlightCode. destruct text as [ | c t ]; [ reflexivity | ].
  set (text := c :: t). cbv zeta.
  apply pair_free_app; [ reflexivity | | reflexivity ].
  apply pair_free_app; [ reflexivity | | reflexivity ].
  apply pair_free_app; [ | reflexivity | ].
  - apply fold_keywords_free; [ apply keywords_free | ].
    apply replace_pair_free;
      [ intros m Hm; apply span_free; [ reflexivity | exact Hm ]
      | intros m; apply span_head | intros m; apply span_last | ].
    apply replace_pair_free;
      [ intros m Hm; apply span_free; [ reflexivity | apply pair_free_absent, esc_no_gt ]
      | intros m; apply span_head | intros m; apply span_last | ].
    apply replace_pair_free;
      [ intros m Hm; apply span_free; [ reflexivity | apply pair_free_absent, esc_no_gt ]
      | intros m; apply span_head | intros m; apply span_last | ].
    apply pair_free_absent, esc_no_gt.
  - apply andb_false_r.
Qed.

Lemma highlightCode_no_script text lang : ~ occurs (L "<script>") (highlightCode text lang).
Proof.
  intros (u & v & H). pose proof (highlightCode_free text lang) as Hf.
  rewrite H in Hf.
  change (L "<script>" ++ v) with (L "<scrip" ++ "t"%char :: ">"%char :: v) in Hf.
  rewrite app_assoc, pair_free_occurs in Hf. discriminate.
Qed.
End Highlight.

(** ** Whole words *)

Section Words.
Lemma lit_run (A : Type) w : forall p s (k : cont A),
    compile (lit w) p (w ++ s) k = k (last_char p w) s.
Proof.
  induction w as [ | c w IH ]; intros p s k; [ reflexivity | ].
  cbn [lit compile app last_char]. now rewrite Ascii.eqb_refl, IH.
Qed.

(** [\bw\b] matches a whole-word occurrence of [w]. *)
Lemma exec_word w p v :
  word_after (L w) = true -> word_before (last_char None (L w)) = true ->
  word_before p = false -> word_after v = false ->
  exec (word w) p (L w ++ v) = Some (last_char p (L w), v).
Proof.
  intros Hf Hl Hp Hv. unfold exec, word. cbn [compile].
  assert (Hw : L w <> []) by (destruct (L w); [ discriminate | discriminate ]).
  assert (Ha : word_after (L w ++ v) = true) by (destruct (L w); [ discriminate | exact Hf ]).
  rewrite Ha, Hp. cbn [xorb]. rewrite lit_run.
  assert (Hb : forall q, word_before (last_char q (L w)) = true).
  { intros q. destruct (L w) as [ | c t ]; [ congruence | exact Hl ]. }
  now rewrite Hb, Hv.
Qed.

Lemma exec_alt_l a b p s : exec a p s <> None -> exec (Alt a b) p s <> None.
Proof. unfold exec. cbn [compile]. destruct (compile a p s _); congruence. Qed.

Lemma exec_alt_r a b p s : exec b p s <> None -> exec (Alt a b) p s <> None.
Proof. unfold exec. cbn [compile]. destruct (compile a p s _); congruence. Qed.

Lemma test_word r w s :
  (forall p v, word_before p = false -> word_after v = false ->
               exec r p (L w ++ v) <> None) ->
  contains_word w s -> test r s = true.
Proof.
  intros Hr (u & v & -> & Hu & Hv). apply search_complete. auto.
Qed.

Lemma word_matches w p v :
  word_after (L w) = true -> word_before (last_char None (L w)) = true ->
  word_before p = false -> word_after v = false ->
  exec (word w) p (L w ++ v) <> None.
Proof. intros. rewrite exec_word by assumption. discriminate. Qed.

Lemma contains_word_nonempty w s : L w <> [] -> contains_word w s -> s <> [].
Proof.
  intros Hw (u & v & -> & _). destruct u; [ | discriminate ].
  destruct (L w); [ congruence | discriminate ].
Qed.
End Words.
(** ** The first rule of the detector *)

Section Detect.
Lemma python_rule s : python_marker s -> test python_re s = true.
Proof.
  unfold python_re. intros [H | H]; revert H; apply test_word; intros p v Hp Hv.
  - apply exec_alt_l, word_matches; auto.
  - apply exec_alt_r, word_matches; auto.
Qed.

Lemma javascript_rule s : javascript_marker s -> test javascript_re s = true.
Proof.
  unfold javascript_re. cbn [alts].
  intros [H | [H | H]]; revert H; apply test_word; intros p v Hp Hv.
  - apply exec_alt_l, word_matches; auto.
  - apply exec_alt_r, exec_alt_l, word_matches; auto.
  - apply exec_alt_r, exec_alt_r, word_matches; auto.
Qed.

Lemma python_marker_nonempty s : python_marker s -> s <> [].
Proof. intros [H | H]; revert H; apply contains_word_nonempty; discriminate. Qed.

Lemma detect_python language text :
  python_marker (toLowerCase text) -> detectLanguage language text = python.
Proof.
  intros H. unfold detectLanguage.
  destruct text as [ | c t ].
  - apply python_marker_nonempty in H. now elim H.
  - now rewrite python_rule.
Qed.
End Detect.
(** ** Whole words: what a match tells *)

Section WordsSound.
Lemma lit_sound (A : Type) w : forall p s (k : cont A) x,
    compile (lit w) p s k = Some x ->
    exists s', s = w ++ s' /\ k (last_char p w) s' = Some x.
Proof.
  induction w as [ | c w IH ]; intros p s k x; cbn [lit compile last_char].
  - intros H. now exists s.
  - destruct s as [ | a s ]; [ discriminate | ].
    destruct (Ascii.eqb_spec c a) as [ <- | ]; [ | discriminate ].
    intros H. apply IH in H. destruct H as (s' & -> & H). now exists s'.
Qed.

(** What follows a [\b] at the end of a pattern. *)
Lemma boundary_after (w : str) (q : option ascii) (s' : str) x :
  word_before (last_char None w) = true -> w <> [] ->
  (if xorb (word_before (last_char q w)) (word_after s')
   then Some (last_char q w, s') else None) = Some x ->
  word_after s' = false.
Proof.
  intros Hl Hw. destruct w as [ | c w ]; [ congruence | ].
  cbn [last_char] in *. rewrite Hl.
  destruct (word_after s'); [ discriminate | reflexivity ].
Qed.

Lemma exec_word_sound w p v :
  word_after (L w) = true -> word_before (last_char None (L w)) = true ->
  exec (word w) p v <> None ->
  exists v', v = L w ++ v' /\ word_before p = false /\ word_after v' = false.
Proof.
  intros Hf Hl. unfold exec, word. cbn [compile].
  destruct (xorb (word_before p) (word_after v)) eqn:Ex; [ | congruence ].
  destruct (compile (lit (L w)) p v _) as [ x | ] eqn:E; [ intros _ | congruence ].
  apply lit_sound in E. destruct E as (v' & -> & E).
  assert (Hw : L w <> []) by (destruct (L w); discriminate).
  exists v'. split; [ reflexivity | ].
  split.
  - destruct (L w) as [ | c t ]; [ congruence | ].
    cbn [app word_after] in Ex. cbn [word_after] in Hf. rewrite Hf in Ex.
    destruct (word_before p); [ discriminate | reflexivity ].
  - eapply boundary_after; eauto.
Qed.

Lemma test_word_sound r w s :
  (forall p v, exec r p v <> None ->
               exists v', v = L w ++ v' /\ word_before p = false /\ word_after v' = false) ->
  test r s = true -> contains_word w s.
Proof.
  intros Hr H. apply search_sound in H. destruct H as (u & v & -> & H).
  apply Hr in H. destruct H as (v' & -> & Hp & Hv). now exists u, v'.
Qed.
End WordsSound.

(** ** The line tests of the nesting check, word by word *)

Section Lines.
Lemma test_brace l : test brace_re l = true <-> In "}"%char l.
Proof.
  split.
  - intros H. apply search_sound in H. destruct H as (u & v & -> & H).
    unfold exec, brace_re in H.
    destruct (compile (lit (L "}")) (last_char None u) v _) as [ x | ] eqn:E; [ | congruence ].
    apply lit_sound in E. destruct E as (v' & -> & _).
    apply in_or_app. right. now left.
  - intros H. apply in_split in H. destruct H as (u & v & ->).
    apply search_complete. unfold exec, brace_re.
    change ("}"%char :: v) with (L "}" ++ v). rewrite lit_run. discriminate.
Qed.

Lemma test_end l : test end_re l = true <-> contains_word "end" l.
Proof.
  split.
  - apply test_word_sound. intros p v. now apply exec_word_sound.
  - apply test_word. intros p v Hp Hv. now apply word_matches.
Qed.

Lemma opener_matches w p v :
  In w ["for"; "while"; "if"; "switch"]%string ->
  word_before p = false -> word_after v = false ->
  exec opener_re p (L w ++ v) <> None.
Proof.
  intros Hw Hp Hv. unfold exec, opener_re.
  cbn [In] in Hw. destruct Hw as [ <- | [ <- | [ <- | [ <- | [] ] ] ] ];
    cbn; rewrite Hp, Hv; cbn; discriminate.
Qed.

Lemma opener_sound p v :
  exec opener_re p v <> None ->
  exists w v', In w ["for"; "while"; "if"; "switch"]%string
               /\ v = L w ++ v' /\ word_before p = false /\ word_after v' = false.
Proof.
  unfold exec, opener_re. cbn [compile alts].
  destruct (xorb (word_before p) (word_after v)) eqn:Ex; [ | congruence ].
  set (k := fun (p' : option ascii) (s' : str) =>
              if xorb (word_before p') (word_after s') then Some (p', s') else None).
  assert (Hk : forall w, In w ["for"; "while"; "if"; "switch"]%string ->
                         compile (lit (L w)) p v k <> None ->
                         exists w v', In w ["for"; "while"; "if"; "switch"]%string
                                      /\ v = L w ++ v' /\ word_before p = false
                                      /\ word_after v' = false).
  { intros w Hw H.
    destruct (compile (lit (L w)) p v k) as [ x | ] eqn:E; [ | congruence ].
    apply lit_sound in E. destruct E as (v' & -> & E).
    exists w, v'. split; [ exact Hw | ]. split; [ reflexivity | ].
    cbn [In] in Hw.
    destruct Hw as [ <- | [ <- | [ <- | [ <- | [] ] ] ] ];
      (split;
       [ cbn in Ex; destruct (word_before p); [ discriminate | reflexivity ]
       | unfold k in E; cbn in E; destruct (word_after v'); [ discriminate | reflexivity ] ]). }
  destruct (compile (lit (L "for")) p v k) eqn:E1.
  { intros _. apply (Hk "for"%string); [ cbn; auto | congruence ]. }
  destruct (compile (lit (L "while")) p v k) eqn:E2.
  { intros _. apply (Hk "while"%string); [ cbn; auto | congruence ]. }
  destruct (compile (lit (L "if")) p v k) eqn:E3.
  { intros _. apply (Hk "if"%string); [ cbn; auto | congruence ]. }
  intros H. apply (Hk "switch"%string); [ cbn; auto | exact H ].
Qed.

Lemma test_opener l : test opener_re l = true <-> opener_line l.
Proof.
  split.
  - intros H. apply search_sound in H. destruct H as (u & v & -> & H).
    apply opener_sound in H. destruct H as (w & v' & Hw & -> & Hp & Hv).
    unfold opener_line. cbn [In] in Hw.
    destruct Hw as [ <- | [ <- | [ <- | [ <- | [] ] ] ] ];
      [ left | right; left | right; right; left | right; right; right ];
      now exists u, v'.
  - unfold opener_line.
    intros [H | [H | [H | H] ] ]; revert H; apply test_word; intros p v Hp Hv;
      apply opener_matches; cbn; auto.
Qed.

Lemma test_closer l : test brace_re l || test end_re l = true <-> closer_line l.
Proof.
  unfold closer_line. rewrite orb_true_iff, test_brace, test_end. tauto.
Qed.

Lemma opens_only_lines l : opener_line l -> ~ closer_line l -> opens_only l.
Proof.
  intros Ho Hc. unfold opens_only. rewrite <- test_opener in Ho.
  rewrite <- test_closer in Hc. split; [ exact Ho | ].
  destruct (test brace_re l); destruct (test end_re l); cbn in Hc; tauto.
Qed.
End Lines.

(** ** The nesting counter *)

Section Nesting.
Local Open Scope Z_scope.

Lemma nest_step_eq d m l :
  nest_step (d, m) l =
  (let d1 := if test opener_re l then d + 1 else d in
   let d2 := if test brace_re l || test end_re l then Z.max 0 (d1 - 1) else d1 in
   (d2, Z.max m d2)).
Proof.
  unfold nest_step. cbv zeta.
  set (d2 := if test brace_re l || test end_re l then _ else _).
  destruct (Z.ltb_spec m d2); f_equal; lia.
Qed.

Lemma nest_step_invariant d m l :
  0 <= d <= m ->
  0 <= fst (nest_step (d, m) l) <= snd (nest_step (d, m) l)
  /\ m <= snd (nest_step (d, m) l).
Proof.
  intros H. rewrite nest_step_eq. cbv zeta. cbn [fst snd].
  destruct (test opener_re l); destruct (test brace_re l || test end_re l); lia.
Qed.

Lemma nest_fold_invariant ls : forall d m,
    0 <= d <= m ->
    0 <= fst (fold_left nest_step ls (d, m)) <= snd (fold_left nest_step ls (d, m))
    /\ m <= snd (fold_left nest_step ls (d, m)).
Proof.
  induction ls as [ | l ls IH ]; intros d m H; cbn [fold_left fst snd]; [ lia | ].
  pose proof (nest_step_invariant l H) as Hs.
  destruct (nest_step (d, m) l) as [d' m']. cbn [fst snd] in Hs.
  specialize (IH d' m' ltac:(lia)). lia.
Qed.

Lemma nest_step_opens d m l :
  opens_only l -> nest_step (d, m) l = (d + 1, Z.max m (d + 1)).
Proof.
  intros (Ho & Hb & He). rewrite nest_step_eq, Ho, Hb, He. reflexivity.
Qed.

Lemma four_openers text pre l1 l2 l3 l4 post :
  split_nl text = pre ++ [l1; l2; l3; l4] ++ post ->
  opens_only l1 -> opens_only l2 -> opens_only l3 -> opens_only l4 ->
  4 <= maxDepth text.
Proof.
  intros E H1 H2 H3 H4. unfold maxDepth. rewrite E, !fold_left_app.
  pose proof (nest_fold_invariant pre (d := 0) (m := 0) ltac:(lia)) as Hp.
  destruct (fold_left nest_step pre (0, 0)) as [d m]. cbn [fst snd] in Hp.
  cbn [fold_left].
  rewrite (nest_step_opens _ _ H1), (nest_step_opens _ _ H2),
    (nest_step_opens _ _ H3), (nest_step_opens _ _ H4).
  match goal with
  | |- _ <= snd (fold_left _ _ (?d', ?m')) =>
      pose proof (nest_fold_invariant post (d := d') (m := m') ltac:(lia))
  end.
  lia.
Qed.
End Nesting.

(** ** Ranges of the scores *)

Lemma complexityPenalty_range (complexity : Complexity) :
  (5 <= complexityPenalty complexity <= 30)%Z.
Proof. destruct complexity; simpl; lia. Qed.

Section Scorer.
Local Open Scope Z_scope.
Variables (codeText : str) (foundIssues : list Issue) (docText : str)
          (complexity : Complexity).

Let q := calculateQualityScore codeText foundIssues docText complexity.

Lemma commentScore_range : 0 <= commentScore q <= 100.
Proof.
  unfold q, calculateQualityScore; cbn [commentScore].
  split; [ | apply Z.le_min_l ].
  apply Z.min_glb; [ lia | ].
  apply Math_round_nonneg.
  repeat first [ apply fmul_no_minus | apply fdiv_no_minus ];
    try (right; apply Number_signed; lia).
  right; constructor.
Qed.

Lemma complexityScore_range : 10 <= complexityScore q <= 95.
Proof.
  unfold q, calculateQualityScore; cbn [complexityScore].
  pose proof (complexityPenalty_range complexity).
  unfold nestingPenalty, longFuncPenalty. lia.
Qed.

Lemma clarityScore_range : 35 <= clarityScore q <= 100.
Proof.
  unfold q, calculateQualityScore; cbn [clarityScore].
  unfold magicPenalty.
  destruct (existsb _ foundIssues); lia.
Qed.

Lemma maintainability_eq :
  maintainability q = (commentScore q + complexityScore q + clarityScore q + 1) / 3.
Proof.
  pose proof commentScore_range. pose proof complexityScore_range.
  pose proof clarityScore_range.
  unfold q, calculateQualityScore in *; cbn [maintainability commentScore complexityScore clarityScore] in *.
  apply round_third. lia.
Qed.

Lemma risk_range : 5 <= risk q <= 100.
Proof.
  unfold q, calculateQualityScore; cbn [risk].
  pose proof (complexityPenalty_range complexity). lia.
Qed.

Lemma docCompleteness_range : 0 <= docCompleteness q <= 100.
Proof.
  unfold q, calculateQualityScore; cbn [docCompleteness].
  destruct (trim docText); lia.
Qed.
End Scorer.
(** ** Kinds of issues and their order *)

Section Order.
Lemma map_type_push_if c i l :
  map type (push_if c i l) = (map type l ++ (if c then [type i] else []))%list.
Proof. destruct c; simpl; [ apply map_app | now rewrite app_nil_r ]. Qed.

Lemma subseq_nodup (A : Type) (l1 l2 : list A) : subseq l1 l2 -> NoDup l2 -> NoDup l1.
Proof.
  assert (Hin : forall l1 l2 : list A, subseq l1 l2 -> forall x, In x l1 -> In x l2).
  { induction 1; simpl; intuition. }
  induction 1 as [ | x l1 l2 H IH | x l1 l2 H IH ]; intros Hn; auto.
  - inversion Hn; auto.
  - inversion Hn as [ | ? ? Hx Hn' ]; subst. constructor; auto.
    intros Hc; apply Hx; eapply Hin; eauto.
Qed.

Lemma count_type_nodup t l : NoDup (map type l) -> (count_type t l <= 1)%nat.
Proof.
  unfold count_type. induction l as [ | i l IH ]; simpl; intros Hn; [ lia | ].
  inversion Hn as [ | ? ? Hi Hn' ]; subst.
  destruct (String.eqb_spec (type i) t) as [E | E]; simpl; auto.
  assert (H0 : filter (fun i => (type i =? t)%string) l = []).
  { clear IH Hn Hn'. induction l as [ | j l IH ]; simpl in *; auto.
    destruct (String.eqb_spec (type j) t) as [E' | E'].
    - exfalso; apply Hi; left; congruence.
    - apply IH; tauto. }
  rewrite H0; simpl; lia.
Qed.

Lemma issue_order_nodup : NoDup issue_order.
Proof.
  unfold issue_order.
  repeat (constructor; [ simpl; intuition discriminate | ]). constructor.
Qed.

Lemma analyzeIssues_types text : subseq (map type (analyzeIssues text)) issue_order.
Proof.
  unfold analyzeIssues, issue_order. destruct text as [ | c t ].
  - simpl. repeat constructor.
  - cbv zeta. rewrite !map_type_push_if. cbn [map type app].
    repeat match goal with
           | |- context [if ?b then _ else _] => destruct b
           end;
      cbn [app];
      repeat first [ apply subseq_take | apply subseq_skip | apply subseq_nil ].
Qed.
End Order.

(** ** Which issues the scanner reports *)

Section Reports.
Lemma reports_push_if k c i l :
  reports k (push_if c i l) = reports k l || (c && String.eqb (type i) k).
Proof.
  unfold reports, push_if. destruct c; cbn [andb].
  - rewrite existsb_app. cbn [existsb]. now rewrite orb_false_r.
  - now rewrite orb_false_r.
Qed.

Lemma reports_magic text :
  text <> [] ->
  reports "Magic Numbers" (analyzeIssues text) = test magic_re text.
Proof.
  intros Hn. unfold analyzeIssues. destruct text as [ | c t ]; [ congruence | ].
  cbv zeta. rewrite !reports_push_if. cbn [type reports existsb].
  simpl (String.eqb _ _).
  rewrite !andb_false_r, !andb_true_r, !orb_false_r. cbn [orb].
  apply match_all_count.
Qed.

Lemma reports_nesting text :
  text <> [] ->
  reports "Deep nesting" (analyzeIssues text) = (4 <=? maxDepth text)%Z.
Proof.
  intros Hn. unfold analyzeIssues. destruct text as [ | c t ]; [ congruence | ].
  cbv zeta. rewrite !reports_push_if. cbn [type reports existsb].
  simpl (String.eqb _ _).
  rewrite !andb_false_r, !andb_true_r, !orb_false_r. reflexivity.
Qed.
End Reports.

(** ** Sample runs *)

Section Samples.
Example literal_1_2 : fdiv (Number 12) (Number 10) = Number_1_2.
Proof. reflexivity. Qed.

(** 79 comment markers on 240 lines: the exact quotient 39.5 would round to
    40, the binary64 product falls just below it. *)
Example rounding_sample :
  Z.min 100 (Math_round (fmul (fmul (fdiv (Number 79) (Number 240)) (Number 100))
                              Number_1_2)) = 39%Z.
Proof. reflexivity. Qed.

Example split_sample :
  split block_re (L "a function b def c functions")
  = [L "a "; L " b "; L " c functions"].
Proof. reflexivity. Qed.

Example detect_sample : detectLanguage java (L "Console.WriteLine(1);") = csharp.
Proof. vm_compute. reflexivity. Qed.

Example issues_sample :
  map (fun i => (type i, detail i)) (analyzeIssues (L "x = 42; // TODO null"))
  = [("TODOs", "1 TODO/FIXME/XXX markers");
     ("Magic Numbers", "1 suspicious numeric literals");
     ("Null checks", "Possible missing null checks")].
Proof. vm_compute. reflexivity. Qed.

Example score_sample :
  calculateQualityScore (L "x = 42; // TODO null")
    (analyzeIssues (L "x = 42; // TODO null")) [] Low
  = {| maintainability := 96; commentScore := 100; complexityScore := 95;
       clarityScore := 92; docCompleteness := 5; risk := 50 |}.
Proof. vm_compute. reflexivity. Qed.

Example highlight_sample :
  highlightCode (L "a < b") java = pre_open ++ L "<code>a &lt; b</code></pre>".
Proof. vm_compute. reflexivity. Qed.
End Samples.

(** * Further lemmas *)

(** ** What a pattern matches *)

Section Semantics.
Lemma last_char_app p u v : last_char p (u ++ v) = last_char (last_char p u) v.
Proof. revert p. induction u as [ | c u IH ]; intros p; cbn [app last_char]; auto. Qed.


Lemma repeat_matcher_sound (A : Type) g a fuel :
  sound_for a (compile (A := A) a) ->
  sound_for (Star g a) (repeat_matcher (compile (A := A) a) g fuel).
Proof.
  intros Ha. induction fuel as [ | fuel IH ]; intros p s k x; cbn [repeat_matcher].
  - intros H. exists [], s. repeat split; [ constructor | exact H ].
  - assert (Hnil : k p s = Some x ->
                   exists t after, s = t ++ after /\ matches (Star g a) p t after
                                   /\ k (last_char p t) after = Some x).
    { intros H. exists [], s. repeat split; [ constructor | exact H ]. }
    assert (Hagain :
              compile a p s (fun p' s' => if (length s' <? length s)%nat
                                          then repeat_matcher (compile a) g fuel p' s' k
                                          else None) = Some x ->
              exists t after, s = t ++ after /\ matches (Star g a) p t after
                              /\ k (last_char p t) after = Some x).
    { intros H. apply Ha in H. destruct H as (t1 & s1 & -> & H1 & H).
      destruct (Nat.ltb_spec (length s1) (length (t1 ++ s1))) as [ Hl | ]; [ | discriminate ].
      apply IH in H. destruct H as (t2 & after & -> & H2 & H).
      exists (t1 ++ t2), after. rewrite app_assoc. split; [ reflexivity | ].
      split.
      - apply m_star_cons; auto.
        intros ->. cbn [app] in Hl. lia.
      - now rewrite last_char_app. }
    destruct g.
    + destruct (compile a p s _) eqn:E.
      * intros H; injection H as <-. auto.
      * exact Hnil.
    + destruct (k p s) eqn:E.
      * intros H; injection H as <-. auto.
      * exact Hagain.
Qed.

Lemma compile_sound (A : Type) (r : regex) : sound_for r (compile (A := A) r).
Proof.
  induction r as [ | f | a IHa b IHb | a IHa b IHb | g a IHa | | ];
    intros p s k x; cbn [compile].
  - intros H. exists [], s. repeat split; [ constructor | exact H ].
  - destruct s as [ | c s ]; [ discriminate | ].
    destruct (f c) eqn:Ef; [ | discriminate ].
    intros H. exists [c], s. repeat split; [ now constructor | exact H ].
  - intros H. apply IHa in H. destruct H as (t1 & s1 & -> & H1 & H).
    apply IHb in H. destruct H as (t2 & after & -> & H2 & H).
    exists (t1 ++ t2), after. rewrite app_assoc. split; [ reflexivity | ].
    split; [ now constructor | now rewrite last_char_app ].
  - destruct (compile a p s k) eqn:E.
    + intros H; injection H as <-. apply IHa in E.
      destruct E as (t & after & -> & H1 & H). exists t, after. auto using m_alt_l.
    + intros H. apply IHb in H.
      destruct H as (t & after & -> & H1 & H). exists t, after. auto using m_alt_r.
  - apply (repeat_matcher_sound g (S (length s)) IHa).
  - destruct (xorb _ _) eqn:E; [ | discriminate ].
    intros H. exists [], s. repeat split; [ now constructor | exact H ].
  - intros H. exists [], s.
    assert (E : match s with [] => true | c :: _ => is_line_terminator c end = true).
    { destruct s as [ | c s ]; [ reflexivity | ].
      destruct (is_line_terminator c); [ reflexivity | discriminate ]. }
    repeat split; [ now constructor | ].
    destruct s as [ | c s ]; [ exact H | ]. now rewrite E in H.
Qed.

(** Completeness: the matcher finds a match whenever there is one that the
    continuation accepts. *)
Lemma compile_complete (A : Type) r p t after :
  matches r p t after ->
  forall k : cont A, k (last_char p t) after <> None -> compile r p (t ++ after) k <> None.
Proof.
  induction 1 as [ p after | f p c after Hf | a b p m1 m2 after H1 IH1 H2 IH2
                 | a b p m after H IH | a b p m after H IH
                 | g a p after | g a p m1 m2 after Hn H1 IH1 H2 IH2
                 | p after Hx | p after He ];
    intros k Hk; cbn [compile app last_char] in *.
  - exact Hk.
  - now rewrite Hf.
  - rewrite <- app_assoc. apply IH1. apply IH2. now rewrite <- last_char_app.
  - destruct (compile a p (m ++ after) k) eqn:E; [ discriminate | ].
    exfalso. now apply (IH k).
  - destruct (compile a p (m ++ after) k); [ discriminate | now apply IH ].
  - cbn [repeat_matcher]. destruct g.
    + destruct (compile a p after _); [ discriminate | exact Hk ].
    + destruct (k p after); [ discriminate | congruence ].
  - rewrite last_char_app in Hk.
    assert (Hagain :
              compile a p ((m1 ++ m2) ++ after)
                (fun p' s' => if (length s' <? length ((m1 ++ m2) ++ after))%nat
                              then repeat_matcher (compile a) g
                                     (length ((m1 ++ m2) ++ after)) p' s' k
                              else None) <> None).
    { rewrite <- app_assoc. apply IH1.
      destruct (Nat.ltb_spec (length (m2 ++ after)) (length (m1 ++ m2 ++ after))) as [ Hl | Hl ].
      - rewrite (@repeat_matcher_fuel A (compile a) g (@compile_local A a)
                   (length (m1 ++ m2 ++ after)) (S (length (m2 ++ after)))) by lia.
        now apply IH2.
      - rewrite !length_app in Hl. destruct m1; [ congruence | cbn [length] in Hl; lia ]. }
    cbn [repeat_matcher]. destruct g.
    + destruct (compile a p ((m1 ++ m2) ++ after) _); [ discriminate | congruence ].
    + destruct (k p ((m1 ++ m2) ++ after)); [ discriminate | exact Hagain ].
  - now rewrite Hx.
  - destruct after as [ | c after ]; [ exact Hk | now rewrite He ].
Qed.

Lemma exec_matches r p s :
  exec r p s <> None <-> exists t after, s = t ++ after /\ matches r p t after.
Proof.
  unfold exec. split.
  - destruct (compile r p s _) as [ x | ] eqn:E; [ intros _ | congruence ].
    apply compile_sound in E. destruct E as (t & after & -> & H & _). eauto.
  - intros (t & after & -> & H). apply compile_complete; [ exact H | discriminate ].
Qed.

(** [re.test(s)] holds exactly when the pattern matches somewhere in [s]. *)
Lemma test_matches r s :
  test r s = true <->
  exists u t v, s = u ++ t ++ v /\ matches r (last_char None u) t v.
Proof.
  split.
  - intros H. apply search_sound in H. destruct H as (u & w & -> & H).
    apply exec_matches in H. destruct H as (t & v & -> & H). eauto.
  - intros (u & t & v & -> & H). apply search_complete, exec_matches. eauto.
Qed.
End Semantics.

(** ** Literal patterns and alternatives *)

Section Patterns.
Lemma matches_lit w : forall p m after, matches (lit w) p m after <-> m = w.
Proof.
  induction w as [ | c w IH ]; intros p m after; cbn [lit]; split.
  - inversion 1; reflexivity.
  - intros ->. constructor.
  - inversion 1 as [ | | a b p0 m1 m2 after0 H1 H2 | | | | | | ]; subst.
    inversion H1 as [ | f p0 c0 after0 Hf | | | | | | | ]; subst.
    apply Ascii.eqb_eq in Hf. subst. apply IH in H2. now subst.
  - intros ->. change (c :: w) with ([c] ++ w). constructor.
    + constructor. apply Ascii.eqb_refl.
    + now apply IH.
Qed.

Lemma matches_alt a b p m after :
  matches (Alt a b) p m after <-> matches a p m after \/ matches b p m after.
Proof.
  split.
  - inversion 1; auto.
  - intros [ H | H ]; [ now apply m_alt_l | now apply m_alt_r ].
Qed.

Lemma test_alt a b s : test (Alt a b) s = true <-> test a s = true \/ test b s = true.
Proof.
  rewrite !test_matches. split.
  - intros (u & t & v & -> & H). apply matches_alt in H. destruct H; [ left | right ]; eauto.
  - intros [ (u & t & v & -> & H) | (u & t & v & -> & H) ];
      exists u, t, v; (split; [ reflexivity | apply matches_alt; auto ]).
Qed.

Lemma test_lit w s : test (lit w) s = true <-> occurs w s.
Proof.
  rewrite test_matches. unfold occurs. split.
  - intros (u & t & v & -> & H). apply matches_lit in H. subst. eauto.
  - intros (u & v & ->). exists u, w, v. split; [ reflexivity | now apply matches_lit ].
Qed.

(** [\bw\b] for a word that begins and ends with a word character. *)
Lemma test_whole_word w s :
  word_after (L w) = true -> word_before (last_char None (L w)) = true ->
  test (word w) s = true <-> contains_word w s.
Proof.
  intros Hf Hl. split.
  - apply test_word_sound. intros p v. now apply exec_word_sound.
  - apply test_word. intros p v Hp Hv. now apply word_matches.
Qed.
End Patterns.

Section Rules.
Ltac word_rule :=
  cbn [alts]; rewrite ?test_alt, ?test_lit, ?test_whole_word by reflexivity; tauto.

Lemma python_rule_iff s : test python_re s = true <-> python_marker s.
Proof. unfold python_re, python_marker. word_rule. Qed.

Lemma javascript_rule_iff s : test javascript_re s = true <-> javascript_marker s.
Proof. unfold javascript_re, javascript_marker. word_rule. Qed.

Lemma java_rule_iff s : test java_re s = true <-> java_marker s.
Proof. unfold java_re, java_marker. word_rule. Qed.

Lemma csharp_rule_iff s : test csharp_re s = true <-> csharp_marker s.
Proof. unfold csharp_re, csharp_marker. word_rule. Qed.

Lemma cpp_rule_iff s : test cpp_re s = true <-> cpp_marker s.
Proof. unfold cpp_re, cpp_marker. word_rule. Qed.

Lemma php_rule_iff s : test php_re s = true <-> php_marker s.
Proof. unfold php_re, php_marker. word_rule. Qed.

Lemma rule_false r (P : Prop) s : (test r s = true <-> P) -> ~ P -> test r s = false.
Proof. intros H Hn. destruct (test r s); [ tauto | reflexivity ]. Qed.

Lemma toLowerCase_nil text : toLowerCase text = [] <-> text = [].
Proof. destruct text; cbn; split; congruence. Qed.
End Rules.

Section MorePatterns.
Lemma matches_seq a b p m after :
  matches (Seq a b) p m after <->
  exists m1 m2, m = m1 ++ m2 /\ matches a p m1 (m2 ++ after)
                /\ matches b (last_char p m1) m2 after.
Proof.
  split.
  - inversion 1; subst. eauto.
  - intros (m1 & m2 & -> & H1 & H2). now constructor.
Qed.

Lemma matches_liti w : forall p m after,
    matches (liti w) p m after <-> map upper_ascii m = map upper_ascii w.
Proof.
  induction w as [ | c w IH ]; intros p m after; cbn [liti map]; split.
  - inversion 1; reflexivity.
  - intros H. apply map_eq_nil in H. subst. constructor.
  - inversion 1 as [ | | a b p0 m1 m2 after0 H1 H2 | | | | | | ]; subst.
    inversion H1 as [ | f p0 c0 after0 Hf | | | | | | | ]; subst.
    apply Ascii.eqb_eq in Hf. apply IH in H2. cbn [app map]. congruence.
  - intros H. destruct m as [ | x m ]; [ discriminate | ].
    cbn [map] in H. injection H as Hx Hm.
    change (x :: m) with ([x] ++ m). constructor.
    + constructor. rewrite Hx. apply Ascii.eqb_refl.
    + now apply IH.
Qed.

Lemma matches_star_chr g f : forall m p after,
    matches (Star g (Chr f)) p m after <-> forallb f m = true.
Proof.
  intros m p after. split.
  - remember (Star g (Chr f)) as r eqn:Er. intros H.
    induction H as [ | | | | | | g0 a p m1 m2 after Hn H1 _ H2 IH | | ];
      try discriminate; [ reflexivity | ].
    injection Er as -> ->.
    inversion H1; subst. cbn [app forallb].
    rewrite IH by reflexivity. now rewrite andb_true_r.
  - revert p. induction m as [ | c m IH ]; intros p H; [ constructor | ].
    cbn [forallb] in H. apply andb_prop in H. destruct H as [Hc Hm].
    change (c :: m) with ([c] ++ m). apply m_star_cons.
    + discriminate.
    + now constructor.
    + now apply IH.
Qed.

Lemma test_liti w s : test (liti w) s = true <-> occurs_nocase w s.
Proof.
  rewrite test_matches. unfold occurs_nocase. split.
  - intros (u & t & v & -> & H). apply matches_liti in H. eauto.
  - intros (u & t & v & -> & H). exists u, t, v. split; [ reflexivity | ].
    now apply matches_liti.
Qed.

(** [a\s*b] for literal [a] and [b]. *)
Lemma test_spaced a b s :
  test (Seq (lit a) (Seq (Star true (Chr is_space)) (lit b))) s = true
  <-> occurs_spaced a b s.
Proof.
  rewrite test_matches. unfold occurs_spaced, occurs. split.
  - intros (u & t & v & -> & H).
    apply matches_seq in H. destruct H as (m1 & m2 & -> & H1 & H2).
    apply matches_lit in H1. subst.
    apply matches_seq in H2. destruct H2 as (ws & m3 & -> & H2 & H3).
    apply matches_star_chr in H2. apply matches_lit in H3. subst.
    exists ws. split; [ exact H2 | ]. exists u, v. reflexivity.
  - intros (ws & Hws & u & v & ->). exists u, (a ++ ws ++ b), v.
    split; [ reflexivity | ].
    apply m_seq; [ now apply matches_lit | ].
    apply m_seq; [ now apply matches_star_chr | now apply matches_lit ].
Qed.

Lemma occurs_nil w : occurs w [] -> w = [].
Proof.
  intros (u & v & H). symmetry in H.
  apply app_eq_nil in H. destruct H as [_ H].
  now apply app_eq_nil in H.
Qed.
End MorePatterns.

(** ** The rules of the detector *)

Section Detector.
Lemma detect_rules language text :
  detectLanguage language text =
  let lower := toLowerCase text in
  if test python_re lower then python
  else if test javascript_re lower then javascript
  else if test java_re lower then java
  else if test csharp_re lower then csharp
  else if test cpp_re lower then cpp
  else if test php_re lower then php
  else language.
Proof. destruct text; reflexivity. Qed.
End Detector.

(** ** Entities *)

Section EscapeHtml.
Lemma flat_map_flat_map (A B C : Type) (f : A -> list B) (g : B -> list C) l :
  flat_map g (flat_map f l) = flat_map (fun x => flat_map g (f x)) l.
Proof.
  induction l as [ | x l IH ]; cbn [flat_map]; [ reflexivity | ].
  now rewrite flat_map_app, IH.
Qed.

Lemma esc_entities s : esc s = flat_map entity s.
Proof.
  rewrite esc_flat_map, !flat_map_flat_map. apply flat_map_ext. intros c.
  unfold entity. rewrite (Ascii.eqb_sym "&" c).
  destruct (Ascii.eqb_spec c "&") as [ -> | Ha ]; [ reflexivity | ].
  cbn [flat_map app]. rewrite (Ascii.eqb_sym "<" c).
  destruct (Ascii.eqb_spec c "<") as [ -> | Hl ]; [ reflexivity | ].
  cbn [flat_map app]. rewrite (Ascii.eqb_sym ">" c).
  destruct (Ascii.eqb_spec c ">") as [ -> | Hg ]; reflexivity.
Qed.

Lemma escapeHtml_esc s : escapeHtml s = esc s.
Proof. destruct s; reflexivity. Qed.

Lemma unescape_entity c s :
  unescape_go 0 (entity c ++ s) = c :: unescape_go 0 s.
Proof.
  unfold entity.
  destruct (Ascii.eqb_spec c "&") as [ -> | Ha ].
  { change (L "&amp;" ++ s) with ("&"%char :: L "amp;" ++ s).
    cbn [unescape_go]. change (starts_with (L "&amp;") ("&"%char :: L "amp;" ++ s)) with true.
    cbn iota. reflexivity. }
  destruct (Ascii.eqb_spec c "<") as [ -> | Hl ].
  { change (L "&lt;" ++ s) with ("&"%char :: L "lt;" ++ s).
    cbn [unescape_go]. change (starts_with (L "&amp;") ("&"%char :: L "lt;" ++ s)) with false.
    change (starts_with (L "&lt;") ("&"%char :: L "lt;" ++ s)) with true.
    cbn iota. reflexivity. }
  destruct (Ascii.eqb_spec c ">") as [ -> | Hg ].
  { change (L "&gt;" ++ s) with ("&"%char :: L "gt;" ++ s).
    cbn [unescape_go]. change (starts_with (L "&amp;") ("&"%char :: L "gt;" ++ s)) with false.
    change (starts_with (L "&lt;") ("&"%char :: L "gt;" ++ s)) with false.
    change (starts_with (L "&gt;") ("&"%char :: L "gt;" ++ s)) with true.
    cbn iota. reflexivity. }
  cbn [app unescape_go].
  assert (E : Ascii.eqb "&" c = false).
  { rewrite Ascii.eqb_sym. now apply Ascii.eqb_neq. }
  cbn [starts_with L list_ascii_of_string]. rewrite E. reflexivity.
Qed.

Lemma unescape_escape s : unescapeHtml (escapeHtml s) = s.
Proof.
  rewrite escapeHtml_esc, esc_entities. unfold unescapeHtml.
  induction s as [ | c s IH ]; [ reflexivity | ].
  cbn [flat_map]. now rewrite unescape_entity, IH.
Qed.

Lemma entity_plain c : is_special c = false -> entity c = [c].
Proof.
  unfold is_special, entity. intros H.
  apply orb_false_elim in H. destruct H as [H Hg].
  apply orb_false_elim in H. destruct H as [Ha Hl].
  now rewrite Ha, Hl, Hg.
Qed.

Lemma entity_special c : is_special c = true -> 4 <= length (entity c).
Proof.
  unfold is_special, entity. intros H.
  destruct (Ascii.eqb c "&"); [ cbn; lia | ].
  destruct (Ascii.eqb c "<"); [ cbn; lia | ].
  destruct (Ascii.eqb c ">"); [ cbn; lia | discriminate ].
Qed.

Lemma escape_length s :
  length s + 3 * length (filter is_special s) <= length (flat_map entity s).
Proof.
  induction s as [ | c s IH ]; cbn [flat_map filter length]; [ lia | ].
  rewrite length_app. destruct (is_special c) eqn:E.
  - apply entity_special in E. cbn [length]. lia.
  - rewrite entity_plain by exact E. cbn [length]. lia.
Qed.

Lemma escape_plain s : existsb is_special s = false -> flat_map entity s = s.
Proof.
  induction s as [ | c s IH ]; cbn [existsb flat_map]; [ reflexivity | ].
  intros H. apply orb_false_elim in H. destruct H as [Hc Hs].
  now rewrite entity_plain, IH.
Qed.

Lemma filter_nil_existsb s : filter is_special s = [] <-> existsb is_special s = false.
Proof.
  induction s as [ | c s IH ]; cbn [filter existsb]; [ tauto | ].
  destruct (is_special c); cbn [orb]; [ split; discriminate | exact IH ].
Qed.
End EscapeHtml.

(** ** The checks of the scanner *)

Section Kinds.
Ltac kind_of_issue :=
  unfold analyzeIssues; cbv zeta; rewrite !reports_push_if;
  cbn [type reports existsb]; simpl (String.eqb _ _);
  rewrite ?andb_false_r, ?andb_true_r, ?orb_false_r; cbn [orb].

Lemma reports_todos c t :
  reports "TODOs" (analyzeIssues (c :: t)) = test todo_re (c :: t).
Proof.
  kind_of_issue.
  pose proof (match_all_nil todo_re (c :: t)) as H.
  destruct (match_all todo_re (c :: t)); destruct (test todo_re (c :: t));
    cbn; intuition congruence.
Qed.

Lemma reports_missing c t :
  reports "Missing Comments" (analyzeIssues (c :: t))
  = (commentCount (c :: t) <? Nat.max 1 (length (split_nl (c :: t)) / 10))%nat.
Proof. kind_of_issue. reflexivity. Qed.

Lemma reports_deprecated c t :
  reports "Deprecated patterns" (analyzeIssues (c :: t)) = test deprecated_re (c :: t).
Proof. kind_of_issue. reflexivity. Qed.

Lemma reports_null c t :
  reports "Null checks" (analyzeIssues (c :: t))
  = test null_re (c :: t) && negb (test null_check_re (c :: t)).
Proof. kind_of_issue. reflexivity. Qed.

Lemma reports_long c t :
  reports "Long functions" (analyzeIssues (c :: t))
  = (0 <? length (functionBlocks (c :: t)))%nat.
Proof. kind_of_issue. reflexivity. Qed.

Lemma null_iff s : test null_re s = true <-> has_null s.
Proof.
  unfold null_re, has_null. cbn [alts]. rewrite !test_alt, !test_lit. tauto.
Qed.

Lemma null_check_iff s : test null_check_re s = true <-> has_null_check s.
Proof.
  unfold null_check_re, has_null_check. cbn [alts].
  rewrite !test_alt, !test_spaced, !test_lit. tauto.
Qed.

Lemma todo_iff s : test todo_re s = true <-> has_todo s.
Proof.
  unfold todo_re, has_todo. cbn [alts]. rewrite !test_alt, !test_liti. tauto.
Qed.

Lemma upper_ascii_fixed x c :
  between "A" "Z" c = false -> upper_ascii x = c -> x = c.
Proof.
  unfold upper_ascii. intros Hc. destruct (between "a" "z" x) eqn:E; [ | auto ].
  intros H. exfalso. unfold between, ord in *.
  apply andb_prop in E. destruct E as [E1 E2]. apply N.leb_le in E1, E2.
  change (N_of_ascii "a") with 97%N in E1. change (N_of_ascii "z") with 122%N in E2.
  apply (f_equal N_of_ascii) in H. rewrite N_ascii_embedding in H by lia.
  rewrite <- H in Hc.
  change (N_of_ascii "A") with 65%N in Hc. change (N_of_ascii "Z") with 90%N in Hc.
  apply andb_false_iff in Hc. rewrite !N.leb_gt in Hc. lia.
Qed.

Lemma gets_iff s :
  test (Seq (liti (L "gets")) (Seq (Star true (Chr is_space)) (liti (L "(")))) s = true
  <-> exists g ws, map upper_ascii g = L "GETS" /\ forallb is_space ws = true
                   /\ occurs (g ++ ws ++ L "(") s.
Proof.
  rewrite test_matches. unfold occurs. split.
  - intros (u & t & v & -> & H).
    apply matches_seq in H. destruct H as (g & m2 & -> & H1 & H2).
    apply matches_liti in H1.
    apply matches_seq in H2. destruct H2 as (ws & m3 & -> & H2 & H3).
    apply matches_star_chr in H2. apply matches_liti in H3.
    destruct m3 as [ | x [ | y m3 ] ]; try discriminate.
    cbn [map] in H3. injection H3 as H3.
    apply upper_ascii_fixed in H3; [ | reflexivity ].
    subst x. exists g, ws. split; [ exact H1 | ]. split; [ exact H2 | ].
    exists u, v. rewrite <- !app_assoc. reflexivity.
  - intros (g & ws & Hg & Hws & u & v & ->).
    exists u, (g ++ ws ++ L "("), v. split; [ reflexivity | ].
    apply m_seq; [ now apply matches_liti | ].
    apply m_seq; [ now apply matches_star_chr | now apply matches_liti ].
Qed.
End Kinds.

Section Splitting.
Variable r : regex.

Lemma search_false_here p s : search r p s = false -> exec r p s = None.
Proof. rewrite search_eq. destruct (exec r p s); [ discriminate | reflexivity ]. Qed.

Lemma search_false_next p c s : search r p (c :: s) = false -> search r (Some c) s = false.
Proof. rewrite search_eq. destruct (exec r p (c :: s)); [ discriminate | auto ]. Qed.

(** Without a match the text is a single fragment. *)
Lemma split_go_no_match fuel : forall p acc s,
    length s < fuel -> search r p s = false -> split_go r fuel p acc s = [rev acc ++ s].
Proof.
  induction fuel as [ | fuel IH ]; intros p acc s Hl Hs; [ lia | ].
  cbn [split_go]. destruct s as [ | c t ]; [ now rewrite app_nil_r | ].
  rewrite (search_false_here _ _ Hs). cbn [length] in Hl.
  rewrite IH; [ | lia | eapply search_false_next; eauto ].
  cbn [rev]. now rewrite <- app_assoc.
Qed.

Lemma split_no_match s : test r s = false -> split r s = [s].
Proof.
  intros H. unfold split. destruct s as [ | c t ].
  - apply search_false_here in H. now rewrite H.
  - apply split_go_no_match; [ cbn [length]; lia | exact H ].
Qed.

(** No fragment is longer than the text. *)
Lemma split_go_length fuel : forall p acc s x,
    In x (split_go r fuel p acc s) -> length x <= length acc + length s.
Proof.
  induction fuel as [ | fuel IH ]; intros p acc s x; cbn [split_go].
  - intros [ <- | [] ]. rewrite length_app, length_rev. lia.
  - destruct s as [ | c t ].
    + intros [ <- | [] ]. rewrite length_rev. cbn [length]. lia.
    + destruct (exec r p (c :: t)) as [ [p' s'] | ] eqn:E.
      * apply exec_suffix, suffix_length in E.
        destruct ((length s' =? length (c :: t))%nat && (length acc =? 0)%nat).
        -- intros H. apply IH in H. cbn [length] in *. lia.
        -- intros [ <- | H ].
           ++ rewrite length_rev. lia.
           ++ apply IH in H. cbn [length] in *. lia.
      * intros H. apply IH in H. cbn [length] in *. lia.
Qed.

Lemma split_length s x : In x (split r s) -> length x <= length s.
Proof.
  unfold split. destruct s as [ | c t ].
  - destruct (exec r None []); [ intros [] | intros [ <- | [] ]; cbn; lia ].
  - intros H. apply split_go_length in H. exact H.
Qed.
End Splitting.

Section Depth.
Local Open Scope Z_scope.

Lemma nest_fold_count ls : forall d m n,
    0 <= d <= n -> m <= n ->
    snd (fold_left nest_step ls (d, m))
    <= n + Z.of_nat (length (filter (test opener_re) ls)).
Proof.
  induction ls as [ | l ls IH ]; intros d m n Hd Hm; cbn [fold_left filter snd length].
  - lia.
  - rewrite nest_step_eq. cbv zeta.
    destruct (test opener_re l); destruct (test brace_re l || test end_re l).
    + cbn [length]. rewrite Nat2Z.inj_succ.
      specialize (IH (Z.max 0 (d + 1 - 1)) (Z.max m (Z.max 0 (d + 1 - 1))) (n + 1)
                     ltac:(lia) ltac:(lia)). lia.
    + cbn [length]. rewrite Nat2Z.inj_succ.
      specialize (IH (d + 1) (Z.max m (d + 1)) (n + 1) ltac:(lia) ltac:(lia)). lia.
    + specialize (IH (Z.max 0 (d - 1)) (Z.max m (Z.max 0 (d - 1))) n
                     ltac:(lia) ltac:(lia)). lia.
    + specialize (IH d (Z.max m d) n ltac:(lia) ltac:(lia)). lia.
Qed.

Lemma nest_fold_flat ls :
  Forall (fun l => test opener_re l = true -> test brace_re l || test end_re l = true) ls ->
  fold_left nest_step ls (0, 0) = (0, 0).
Proof.
  induction 1 as [ | l ls Hl _ IH ]; cbn [fold_left]; [ reflexivity | ].
  rewrite nest_step_eq. cbv zeta.
  destruct (test opener_re l).
  - rewrite Hl by reflexivity. exact IH.
  - destruct (test brace_re l || test end_re l); exact IH.
Qed.
End Depth.

(** ** Blank texts *)

Section Blank.
Lemma drop_while_nil f s : drop_while f s = [] <-> forallb f s = true.
Proof.
  induction s as [ | c s IH ]; cbn [drop_while forallb]; [ tauto | ].
  destruct (f c); cbn [andb]; [ exact IH | split; discriminate ].
Qed.

Lemma drop_while_head f s c t : drop_while f s = c :: t -> f c = false.
Proof.
  induction s as [ | x s IH ]; cbn [drop_while]; [ discriminate | ].
  destruct (f x) eqn:E; [ exact IH | ]. intros H. injection H as -> _. exact E.
Qed.

Lemma rev_empty (A : Type) (l : list A) : rev l = [] -> l = [].
Proof.
  intros H. apply (f_equal (@length A)) in H. rewrite length_rev in H.
  destruct l; [ reflexivity | discriminate ].
Qed.

(** [trim] leaves nothing exactly of the texts made of white space. *)
Lemma trim_nil s : trim s = [] <-> forallb is_space s = true.
Proof.
  unfold trim. split.
  - intros H. apply rev_empty in H. apply drop_while_nil in H.
    destruct (drop_while is_space s) as [ | c t ] eqn:E.
    + now apply drop_while_nil.
    + apply drop_while_head in E. rewrite forallb_forall in H.
      rewrite H in E; [ discriminate | ]. apply in_rev. rewrite rev_involutive. now left.
  - intros H. apply drop_while_nil in H. rewrite H. reflexivity.
Qed.

Lemma trim_cases s :
  (forallb is_space s = true /\ trim s = [])
  \/ (forallb is_space s = false /\ exists c t, trim s = c :: t).
Proof.
  destruct (forallb is_space s) eqn:E.
  - left. split; [ reflexivity | now apply trim_nil ].
  - right. split; [ reflexivity | ].
    destruct (trim s) as [ | c t ] eqn:Et; [ | eauto ].
    apply trim_nil in Et. congruence.
Qed.
End Blank.

(** ** The scores of a report *)

Section Report.
Local Open Scope Z_scope.

Lemma existsb_count t l :
  existsb (fun i => String.eqb (type i) t) l = (0 <? count_type t l)%nat.
Proof.
  unfold count_type. induction l as [ | i l IH ]; [ reflexivity | ].
  cbn [existsb filter]. destruct (String.eqb (type i) t); [ reflexivity | exact IH ].
Qed.

Lemma count_type_reports t l : NoDup (map type l) ->
  Z.of_nat (count_type t l) = if reports t l then 1 else 0.
Proof.
  intros H. pose proof (@count_type_nodup t l H) as Hc.
  unfold reports. rewrite existsb_count.
  destruct (count_type t l) as [ | [ | n ] ]; [ reflexivity | reflexivity | lia ].
Qed.

Lemma analyzeIssues_nodup text : NoDup (map type (analyzeIssues text)).
Proof.
  apply subseq_nodup with (l2 := issue_order); [ apply analyzeIssues_types | ].
  apply issue_order_nodup.
Qed.

Lemma subseq_length (A : Type) (l1 l2 : list A) :
  subseq l1 l2 -> (length l1 <= length l2)%nat.
Proof. induction 1; cbn [length]; lia. Qed.

Lemma analyzeIssues_length text : (length (analyzeIssues text) <= 7)%nat.
Proof.
  pose proof (subseq_length (analyzeIssues_types text)) as H.
  now rewrite length_map in H.
Qed.

Lemma round_zero_ratio l :
  (0 < l)%nat ->
  Math_round (fmul (fmul (fdiv (Number 0) (Number (Z.of_nat l))) (Number 100)) Number_1_2) = 0.
Proof.
  intros Hl. pose proof (@Number_signed (Z.of_nat l) ltac:(lia)) as H.
  destruct H as [ | | m e ]; reflexivity.
Qed.

(** The scores of the scanner's own issues: each kind counts once. *)
Lemma scored_complexity code documentation complexity :
  complexityScore (calculateQualityScore code (analyzeIssues code) documentation complexity)
  = 100 - complexityPenalty complexity
    - 10 * (if reports "Deep nesting" (analyzeIssues code) then 1 else 0)
    - 10 * (if reports "Long functions" (analyzeIssues code) then 1 else 0).
Proof.
  unfold calculateQualityScore; cbn [complexityScore].
  unfold nestingPenalty, longFuncPenalty.
  rewrite !count_type_reports by apply analyzeIssues_nodup.
  pose proof (complexityPenalty_range complexity).
  destruct (reports "Deep nesting" _); destruct (reports "Long functions" _); lia.
Qed.

Lemma scored_clarity code documentation complexity :
  clarityScore (calculateQualityScore code (analyzeIssues code) documentation complexity)
  = 100 - 8 * (if reports "Magic Numbers" (analyzeIssues code) then 1 else 0)
    - 25 * (if reports "Missing Comments" (analyzeIssues code) then 1 else 0).
Proof.
  unfold calculateQualityScore; cbn [clarityScore].
  unfold magicPenalty.
  rewrite !count_type_reports by apply analyzeIssues_nodup.
  fold (reports "Missing Comments" (analyzeIssues code)).
  destruct (reports "Magic Numbers" _); destruct (reports "Missing Comments" _); lia.
Qed.

Lemma comment_marker_iff s : test comment_re s = true <-> has_comment_marker s.
Proof.
  unfold comment_re, has_comment_marker. cbn [alts].
  rewrite !test_alt, !test_lit. tauto.
Qed.

Lemma uncommented_count code : ~ has_comment_marker code -> commentCount code = 0%nat.
Proof.
  intros Hn. unfold commentCount.
  assert (Ht : test comment_re code = false)
    by (apply (@rule_false comment_re (has_comment_marker code) code);
        [ apply comment_marker_iff | exact Hn ]).
  apply (match_all_nil comment_re code) in Ht. now rewrite Ht.
Qed.

Lemma uncommented_missing c t :
  ~ has_comment_marker (c :: t) ->
  reports "Missing Comments" (analyzeIssues (c :: t)) = true.
Proof.
  intros Hn. rewrite reports_missing, (uncommented_count Hn).
  apply Nat.ltb_lt. pose proof (Nat.le_max_l 1 (length (split_nl (c :: t)) / 10)). lia.
Qed.
End Report.

(** ** The prompt and the history *)

Section History.
Lemma nth_error_firstn_lt (A : Type) (l : list A) : forall n i,
    i < n -> nth_error (firstn n l) i = nth_error l i.
Proof.
  induction l as [ | x l IH ]; intros n i Hi.
  - now rewrite firstn_nil.
  - destruct n as [ | n ]; [ lia | ]. destruct i as [ | i ]; [ reflexivity | ].
    cbn [firstn nth_error]. apply IH. lia.
Qed.

Lemma join_head sep x l : exists rest, join sep (x :: l) = x ++ rest.
Proof.
  destruct l as [ | y l ]; cbn [join]; [ exists []; now rewrite app_nil_r | eauto ].
Qed.

Lemma subseq_in (A : Type) (l1 l2 : list A) x : subseq l1 l2 -> In x l1 -> In x l2.
Proof.
  induction 1 as [ | y l1 l2 _ IH | y l1 l2 _ IH ]; cbn [In]; intuition.
Qed.

Lemma issue_summary_none found :
  (forall i, In i found -> In (type i) issue_order) ->
  issue_summary found = L "None" <-> found = [].
Proof.
  intros Hin. split; [ | intros ->; reflexivity ].
  destruct found as [ | i found ]; [ reflexivity | ]. intros H. exfalso.
  unfold issue_summary in H. cbn [map] in H.
  destruct (join_head (L ", ") (L (type i)) (map (fun i => L (type i)) found)) as (rest & E).
  rewrite E in H. clear E.
  specialize (Hin i (or_introl eq_refl)). unfold issue_order in Hin. cbn [In] in Hin.
  destruct Hin as [ E | [ E | [ E | [ E | [ E | [ E | [ E | [] ] ] ] ] ] ] ];
    rewrite <- E in H; cbn in H; discriminate H.
Qed.
End History.

(** ** The highlighter keeps the escaped text *)

Section Keeps.
Lemma subseq_nil_l (A : Type) (l : list A) : subseq [] l.
Proof. induction l; constructor; assumption. Qed.

Lemma subseq_refl (A : Type) (l : list A) : subseq l l.
Proof. induction l; constructor; assumption. Qed.

Lemma subseq_trans (A : Type) (l1 l2 l3 : list A) :
  subseq l1 l2 -> subseq l2 l3 -> subseq l1 l3.
Proof.
  intros H12 H23. revert l1 H12.
  induction H23 as [ | x l2 l3 _ IH | x l2 l3 _ IH ]; intros l1 H12.
  - exact H12.
  - apply subseq_skip. now apply IH.
  - inversion H12 as [ | y l1' l2' H | y l1' l2' H ]; subst.
    + apply subseq_skip. now apply IH.
    + apply subseq_take. now apply IH.
Qed.

Lemma subseq_app (A : Type) (a a' b b' : list A) :
  subseq a a' -> subseq b b' -> subseq (a ++ b) (a' ++ b').
Proof.
  intros Ha Hb. induction Ha; cbn [app]; [ exact Hb | | ]; constructor; assumption.
Qed.

Lemma subseq_filter (A : Type) (P : A -> bool) l : subseq (filter P l) l.
Proof.
  induction l as [ | x l IH ]; cbn [filter]; [ constructor | ].
  destruct (P x); constructor; assumption.
Qed.

Lemma subseq_inner (A : Type) (u l v : list A) : subseq l (u ++ l ++ v).
Proof.
  rewrite <- (app_nil_l l) at 1. apply subseq_app; [ apply subseq_nil_l | ].
  rewrite <- (app_nil_r l) at 1. apply subseq_app; [ apply subseq_refl | apply subseq_nil_l ].
Qed.

Lemma exec_matched r p s p' s' :
  exec r p s = Some (p', s') -> s = matched s s' ++ s' /\ matches r p (matched s s') s'.
Proof.
  unfold exec. intros H. apply compile_sound in H.
  destruct H as (t & after & -> & Hm & H). injection H as _ <-.
  rewrite matched_app. auto.
Qed.

Lemma matches_word k p m after : matches (word k) p m after -> m = L k.
Proof.
  unfold word. intros H.
  apply matches_seq in H. destruct H as (m1 & m2 & -> & H1 & H2).
  apply matches_seq in H2. destruct H2 as (m3 & m4 & -> & H3 & H4).
  apply matches_lit in H3. inversion H1; subst. inversion H4; subst.
  cbn [app]. now rewrite app_nil_r.
Qed.

(** A global replacement keeps the characters selected by [P], in order,
    when every replacement keeps those of the text it replaces. *)
Section Grow.
Variables (r : regex) (f : str -> str) (P : ascii -> bool).
Hypothesis f_keeps : forall p m after,
    matches r p m after -> subseq (filter P m) (filter P (f m)).

Lemma replace_go_keeps fuel : forall p s,
    subseq (filter P s) (filter P (replace_go r f fuel p s)).
Proof.
  induction fuel as [ | fuel IH ]; intros p s; cbn [replace_go]; [ apply subseq_refl | ].
  assert (Hskip : subseq (filter P s)
                    (filter P match s with
                              | [] => []
                              | c :: t => c :: replace_go r f fuel (Some c) t
                              end)).
  { destruct s as [ | c t ]; [ constructor | ]. cbn [filter].
    destruct (P c); [ apply subseq_take | ]; apply IH. }
  destruct (exec r p s) as [ [p' s'] | ] eqn:E; [ | exact Hskip ].
  apply exec_matched in E. destruct E as [Es Em].
  destruct (matched s s') as [ | c m ] eqn:Ec.
  - rewrite filter_app. rewrite <- (app_nil_l (filter P s)).
    apply subseq_app; [ apply subseq_nil_l | exact Hskip ].
  - rewrite Es at 1. rewrite !filter_app.
    apply subseq_app; [ now apply f_keeps with (p := p) (after := s') | apply IH ].
Qed.

Lemma replace_keeps s : subseq (filter P s) (filter P (replace r f s)).
Proof. apply replace_go_keeps. Qed.
End Grow.

Lemma flat_map_keeps (P : ascii -> bool) (g : ascii -> str) :
  (forall c, P c = true -> exists rest, g c = c :: rest) ->
  forall m, subseq (filter P m) (filter P (flat_map g m)).
Proof.
  intros Hg. induction m as [ | c m IH ]; cbn [filter flat_map]; [ constructor | ].
  rewrite filter_app. destruct (P c) eqn:E.
  - destruct (Hg c E) as (rest & ->). cbn [filter]. rewrite E. cbn [app].
    apply subseq_take. rewrite <- (app_nil_l (filter P m)).
    apply subseq_app; [ apply subseq_nil_l | exact IH ].
  - rewrite <- (app_nil_l (filter P m)).
    apply subseq_app; [ apply subseq_nil_l | exact IH ].
Qed.

Lemma esc_keeps m : subseq (filter not_angle m) (filter not_angle (esc m)).
Proof.
  rewrite esc_flat_map.
  eapply subseq_trans; [ | apply flat_map_keeps ].
  eapply subseq_trans; [ | apply flat_map_keeps ].
  apply flat_map_keeps.
  - intros c _. cbv beta. destruct (Ascii.eqb_spec "&" c) as [ <- | ]; eexists; reflexivity.
  - intros c Hc. cbv beta.
    destruct (Ascii.eqb_spec "<" c) as [ <- | ]; [ discriminate | eexists; reflexivity ].
  - intros c Hc. cbv beta.
    destruct (Ascii.eqb_spec ">" c) as [ <- | ]; [ discriminate | eexists; reflexivity ].
Qed.

Lemma span_keeps cls a b :
  subseq (filter not_angle a) (filter not_angle b) ->
  subseq (filter not_angle a) (filter not_angle (span cls b)).
Proof.
  intros H. unfold span. rewrite !filter_app.
  eapply subseq_trans; [ exact H | apply subseq_inner ].
Qed.

Lemma esc_plain s : filter not_angle (esc s) = esc s.
Proof.
  pose proof (@esc_no_lt s) as Hl. pose proof (@esc_no_gt s) as Hg.
  induction (esc s) as [ | c t IH ]; [ reflexivity | ].
  cbn [filter]. unfold not_angle at 1.
  destruct (Ascii.eqb_spec c "<") as [ -> | _ ]; [ elim Hl; now left | ].
  destruct (Ascii.eqb_spec c ">") as [ -> | _ ]; [ elim Hg; now left | ].
  cbn [orb negb]. f_equal. apply IH; intros H; [ apply Hl | apply Hg ]; now right.
Qed.

Lemma fold_keywords_keeps ks : forall html,
    subseq (filter not_angle html) (filter not_angle (fold_left highlight_keyword ks html)).
Proof.
  induction ks as [ | k ks IH ]; intros html; cbn [fold_left]; [ apply subseq_refl | ].
  eapply subseq_trans; [ | apply IH ].
  unfold highlight_keyword. apply replace_keeps.
  intros p m after Hm. apply matches_word in Hm. subst m.
  apply span_keeps, subseq_refl.
Qed.
End Keeps.

(** ** Statistics *)

Section Stats.
Lemma split_nl_length s :
  length (split_nl s) = S (length (filter (Ascii.eqb "010") s)).
Proof.
  induction s as [ | c s IH ]; [ reflexivity | ].
  cbn [split_nl filter]. rewrite (Ascii.eqb_sym "010" c).
  destruct (Ascii.eqb c "010"); cbn [length]; [ now rewrite IH | ].
  destruct (split_nl s); [ discriminate | exact IH ].
Qed.

Lemma function_marker_iff s :
  test function_re s = true
  <-> occurs (L "function") s \/ occurs (L "def ") s \/ occurs (L "public ") s
      \/ occurs (L "private ") s \/ occurs (L "protected ") s \/ occurs (L "class ") s.
Proof.
  unfold function_re. cbn [alts]. rewrite !test_alt, !test_lit. tauto.
Qed.
End Stats.

(** ** Every [<] of the rendering begins a tag of the highlighter *)

Section Tags.
Lemma tag_run_app q u v :
  tag_run q (u ++ v) = match tag_run q u with Some q' => tag_run q' v | None => None end.
Proof.
  revert q. induction u as [ | c u IH ]; intros q; cbn [app tag_run]; [ reflexivity | ].
  destruct (tag_step q c); [ apply IH | reflexivity ].
Qed.

Ltac in_states :=
  try unfold tag_states; cbn [In];
  repeat first [ left; reflexivity | right ].

Ltac by_char c :=
  repeat match goal with
         | |- context [Ascii.eqb ?a c] =>
             destruct (Ascii.eqb_spec a c) as [ <- | ? ]; [ cbn | cbn -[Ascii.eqb] ]
         | |- context [Ascii.eqb c ?a] =>
             destruct (Ascii.eqb_spec c a) as [ -> | ? ]; [ cbn | cbn -[Ascii.eqb] ]
         end.

Ltac each_state Hq tac :=
  match type of Hq with
  | _ \/ _ => destruct Hq as [ <- | Hq ]; [ tac | each_state Hq tac ]
  | False => contradiction
  end.

(** The pending names stay among [tag_states]. *)
Lemma tag_step_states q c q' :
  In q tag_states -> tag_step q c = Some q' -> In q' tag_states.
Proof.
  intros Hq. unfold tag_states in Hq. cbn [In] in Hq.
  each_state Hq ltac:(unfold tag_step; cbn -[Ascii.eqb]; by_char c; intros H;
                       try discriminate H; injection H as <-; in_states).
Qed.

Lemma tag_run_states s : forall q q',
    In q tag_states -> tag_run q s = Some q' -> In q' tag_states.
Proof.
  induction s as [ | c s IH ]; intros q q' Hq; cbn [tag_run].
  - intros H. injection H as <-. exact Hq.
  - destruct (tag_step q c) as [ q1 | ] eqn:E; [ | discriminate ].
    apply IH. eapply tag_step_states; eauto.
Qed.

Lemma tag_step_plain q c q' :
  In q tag_states -> plain c = true -> tag_step q c = Some q' -> q = [] /\ q' = [].
Proof.
  intros Hq Hp. unfold tag_states in Hq. cbn [In] in Hq. revert Hp.
  each_state Hq ltac:(unfold tag_step; cbn -[Ascii.eqb plain]; by_char c; intros Hp H;
                       try discriminate Hp; try discriminate H;
                       injection H as <-; split; reflexivity).
Qed.

Lemma tag_run_plain_ends m : forall q q1,
    In q tag_states -> tag_run q m = Some q1 ->
    plain_first m = true -> plain_first (rev m) = true -> q = [] /\ q1 = [].
Proof.
  intros q q1 Hq Hr Hf Hl.
  assert (H0 : q = []).
  { destruct m as [ | c t ]; [ discriminate | ]. cbn [tag_run plain_first] in *.
    destruct (tag_step q c) as [ q2 | ] eqn:E; [ | discriminate ].
    now destruct (@tag_step_plain q c q2 Hq Hf E). }
  split; [ exact H0 | ].
  destruct (rev m) as [ | c r ] eqn:Er; [ discriminate | ].
  apply (f_equal (@rev ascii)) in Er. rewrite rev_involutive in Er. cbn [rev] in Er. subst m.
  rewrite tag_run_app in Hr.
  destruct (tag_run q (rev r)) as [ q2 | ] eqn:E2; [ | discriminate ].
  cbn [tag_run] in Hr.
  destruct (tag_step q2 c) as [ q3 | ] eqn:E3; [ | discriminate ].
  injection Hr as <-.
  pose proof (@tag_run_states (rev r) q q2 Hq E2) as H2.
  now destruct (@tag_step_plain q2 c q3 H2 Hl E3).
Qed.

Lemma tag_run_no_lt s : ~ In "<"%char s -> tag_run [] s = Some [].
Proof.
  induction s as [ | c s IH ]; intros H; [ reflexivity | ].
  cbn [tag_run tag_step]. destruct (Ascii.eqb_spec c "<") as [ -> | _ ].
  - elim H. now left.
  - apply IH. intros Hin. apply H. now right.
Qed.

Lemma advance_in c w' P : In w' (flat_map (advance c) P) -> In (c :: w') P.
Proof.
  intros H. apply in_flat_map in H. destruct H as (w & Hw & H).
  destruct w as [ | a w ]; [ contradiction | ]. cbn [advance] in H.
  destruct (Ascii.eqb_spec a c) as [ -> | _ ]; [ | contradiction ].
  destruct H as [ <- | [] ]. exact Hw.
Qed.

(** Once a [<] is read, the scanner returns to the outside only through
    one of the pending names. *)
Lemma tag_run_pending v : forall P,
    P <> [] -> tag_run P v = Some [] -> existsb (fun w => starts_with w v) P = true.
Proof.
  induction v as [ | c t IH ]; intros P HP; cbn [tag_run].
  - intros H. injection H as H. congruence.
  - destruct P as [ | w0 P ]; [ congruence | ]. cbn [tag_step].
    destruct (flat_map (advance c) (w0 :: P)) as [ | n0 ns ] eqn:E; [ discriminate | ].
    assert (Hin : forall w', In w' (n0 :: ns) -> In (c :: w') (w0 :: P)).
    { intros w' Hw. apply advance_in. now rewrite E. }
    destruct (existsb is_nil (n0 :: ns)) eqn:En.
    + intros _. apply existsb_exists in En. destruct En as (w' & Hw & Hn).
      destruct w' as [ | ? ? ]; [ | discriminate ].
      apply existsb_exists. exists [c]. split; [ now apply Hin | ].
      cbn [starts_with]. now rewrite Ascii.eqb_refl.
    + intros H. apply IH in H; [ | discriminate ].
      apply existsb_exists in H. destruct H as (w' & Hw & Hs).
      apply existsb_exists. exists (c :: w'). split; [ now apply Hin | ].
      cbn [starts_with]. now rewrite Ascii.eqb_refl.
Qed.

(** A text the scanner reads through holds [<] only before a tag name. *)
Lemma tag_run_sound s :
  tag_run [] s = Some [] ->
  forall u v, s = u ++ "<"%char :: v ->
              existsb (fun w => starts_with (L w) v) tag_openers = true.
Proof.
  intros Hs u v ->. rewrite tag_run_app in Hs.
  destruct (tag_run [] u) as [ q | ] eqn:Eu; [ | discriminate ].
  assert (Hq : In q tag_states) by (eapply tag_run_states; [ | exact Eu ]; now left).
  cbn [tag_run] in Hs.
  destruct (tag_step q "<") as [ q2 | ] eqn:E; [ | discriminate ].
  assert (E2 : q2 = map L tag_openers).
  { revert E. unfold tag_states in Hq. cbn [In] in Hq.
    each_state Hq ltac:(vm_compute; intros E; try discriminate E;
                         injection E as <-; reflexivity). }
  subst q2. apply tag_run_pending in Hs; [ | discriminate ].
  unfold tag_openers in *. cbn [map existsb] in *. exact Hs.
Qed.

(** A global replacement keeps what the scanner reads when every
    replacement is read as the text it replaces. *)
Section TagReplace.
Variables (r : regex) (f : str -> str).
Hypothesis f_same : forall p m after q q1,
    In q tag_states -> matches r p m after ->
    tag_run q m = Some q1 -> tag_run q (f m) = Some q1.

Lemma replace_go_tags fuel : forall p s q q1,
    In q tag_states -> tag_run q s = Some q1 ->
    tag_run q (replace_go r f fuel p s) = Some q1.
Proof.
  induction fuel as [ | fuel IH ]; intros p s q q1 Hq Hs; cbn [replace_go]; [ exact Hs | ].
  assert (Hskip : tag_run q match s with
                              | [] => []
                              | c :: t => c :: replace_go r f fuel (Some c) t
                              end = Some q1).
  { destruct s as [ | c t ]; [ exact Hs | ]. cbn [tag_run] in *.
    destruct (tag_step q c) as [ q2 | ] eqn:E; [ | discriminate ].
    apply IH; [ | exact Hs ]. eapply tag_step_states; eauto. }
  destruct (exec r p s) as [ [p' s'] | ] eqn:E; [ | exact Hskip ].
  apply exec_matched in E. destruct E as [Es Em].
  destruct (matched s s') as [ | c m ] eqn:Ec.
  - rewrite tag_run_app, (f_same Hq Em eq_refl). exact Hskip.
  - rewrite Es, tag_run_app in Hs.
    destruct (tag_run q (c :: m)) as [ q2 | ] eqn:E2; [ | discriminate ].
    rewrite tag_run_app, (f_same Hq Em E2). apply IH; [ | exact Hs ].
    eapply tag_run_states; eauto.
Qed.

Lemma replace_tags s : tag_run [] s = Some [] -> tag_run [] (replace r f s) = Some [].
Proof. apply replace_go_tags. now left. Qed.
End TagReplace.

(** The same for a text without any [<]. *)
Lemma replace_go_tags_plain r f fuel :
  (forall m, tag_run [] (f m) = Some []) ->
  forall p s, ~ In "<"%char s -> tag_run [] (replace_go r f fuel p s) = Some [].
Proof.
  intros Hf. induction fuel as [ | fuel IH ]; intros p s Hs; cbn [replace_go].
  - now apply tag_run_no_lt.
  - assert (Hskip : tag_run [] match s with
                                 | [] => []
                                 | c :: t => c :: replace_go r f fuel (Some c) t
                                 end = Some []).
    { destruct s as [ | c t ]; [ reflexivity | ]. cbn [tag_run tag_step].
      destruct (Ascii.eqb_spec c "<") as [ -> | _ ]; [ elim Hs; now left | ].
      apply IH. intros H. apply Hs. now right. }
    destruct (exec r p s) as [ [p' s'] | ] eqn:E; [ | exact Hskip ].
    apply exec_suffix in E. destruct E as [m0 E].
    destruct (matched s s').
    + now rewrite tag_run_app, Hf.
    + rewrite tag_run_app, Hf. apply IH. intros H. apply Hs. rewrite E.
      apply in_or_app. now right.
Qed.

Lemma tag_run_span cls body :
  tag_run [] (span_open cls) = Some [] -> tag_run [] body = Some [] ->
  tag_run [] (span cls body) = Some [].
Proof.
  intros Ho Hb. unfold span. rewrite tag_run_app, Ho. rewrite tag_run_app, Hb. reflexivity.
Qed.

Lemma tag_run_esc_span cls m :
  tag_run [] (span_open cls) = Some [] -> tag_run [] (span cls (esc m)) = Some [].
Proof. intros Ho. apply tag_run_span; [ exact Ho | apply tag_run_no_lt, esc_no_lt ]. Qed.

Lemma matches_chr f p m after : matches (Chr f) p m after -> exists c, m = [c] /\ f c = true.
Proof. inversion 1; subst; eauto. Qed.

Lemma matches_quoted q p m after :
  matches (quoted q) p m after -> exists mid, m = q :: mid ++ [q].
Proof.
  unfold quoted. intros H.
  apply matches_seq in H. destruct H as (m1 & m2 & -> & H1 & H2).
  apply matches_seq in H2. destruct H2 as (m3 & m4 & -> & _ & H4).
  apply matches_chr in H1. destruct H1 as (c1 & -> & E1).
  apply matches_chr in H4. destruct H4 as (c4 & -> & E4).
  apply Ascii.eqb_eq in E1, E4. subst. exists m3. reflexivity.
Qed.

Lemma plain_ends_quoted q mid :
  plain q = true ->
  plain_first (q :: mid ++ [q]) = true /\ plain_first (rev (q :: mid ++ [q])) = true.
Proof.
  intros H. split; [ exact H | ].
  cbn [rev]. rewrite rev_app_distr. exact H.
Qed.

Lemma string_same p m after q q1 :
  In q tag_states -> matches hl_string_re p m after ->
  tag_run q m = Some q1 -> tag_run q (span "text-green-300" (esc m)) = Some q1.
Proof.
  intros Hq Hm Hr.
  assert (He : plain_first m = true /\ plain_first (rev m) = true).
  { unfold hl_string_re in Hm. cbn [alts] in Hm.
    apply matches_alt in Hm. destruct Hm as [ Hm | Hm ];
      [ | apply matches_alt in Hm; destruct Hm as [ Hm | Hm ] ];
      apply matches_quoted in Hm; destruct Hm as (mid & ->);
      now apply plain_ends_quoted. }
  destruct He as [H1 H2].
  destruct (@tag_run_plain_ends m q q1 Hq Hr H1 H2) as [ -> -> ].
  now apply tag_run_esc_span.
Qed.

Lemma digit_plain c : is_digit c || Ascii.eqb "." c = true -> plain c = true.
Proof.
  intros H. destruct (plain c) eqn:E; [ reflexivity | ].
  unfold plain in E. apply negb_false_iff, existsb_exists in E.
  destruct E as (x & Hx & E). apply Ascii.eqb_eq in E. subst x.
  cbn [L list_ascii_of_string In] in Hx.
  repeat (destruct Hx as [ <- | Hx ]; [ discriminate H | ]). contradiction.
Qed.

Lemma matches_plus_chr f p m after :
  matches (Plus (Chr f)) p m after -> m <> [] /\ forallb f m = true.
Proof.
  unfold Plus. intros H.
  apply matches_seq in H. destruct H as (m1 & m2 & -> & H1 & H2).
  apply matches_chr in H1. destruct H1 as (c & -> & Hc).
  apply matches_star_chr in H2. split; [ discriminate | ].
  cbn [app forallb]. now rewrite Hc, H2.
Qed.

(** A number match is made of digits and dots. *)
Lemma matches_number p m after :
  matches hl_number_re p m after ->
  m <> [] /\ forallb (fun c => is_digit c || Ascii.eqb "." c) m = true.
Proof.
  unfold hl_number_re. intros H.
  apply matches_seq in H. destruct H as (m1 & m2 & -> & H1 & H2).
  inversion H1; subst. cbn [app].
  apply matches_seq in H2. destruct H2 as (m3 & m4 & -> & H3 & H4).
  inversion H4; subst. rewrite app_nil_r.
  apply matches_seq in H3. destruct H3 as (m5 & m6 & -> & H5 & H6).
  apply matches_plus_chr in H5. destruct H5 as [Hn H5].
  assert (Hd : forall l, forallb is_digit l = true ->
                         forallb (fun c => is_digit c || Ascii.eqb "." c) l = true).
  { intros l Hl. rewrite forallb_forall in *. intros x Hx. now rewrite (Hl x Hx). }
  split; [ destruct m5; [ congruence | discriminate ] | ].
  rewrite forallb_app, (Hd _ H5). cbn [andb].
  unfold Opt in H6. apply matches_alt in H6. destruct H6 as [ H6 | H6 ].
  - apply matches_seq in H6. destruct H6 as (m7 & m8 & -> & H7 & H8).
    apply matches_chr in H7. destruct H7 as (c & -> & Hc).
    apply matches_plus_chr in H8. destruct H8 as [_ H8].
    cbn [app forallb]. now rewrite Hc, orb_true_r, (Hd _ H8).
  - inversion H6; subst. reflexivity.
Qed.

Lemma plain_first_all P m :
  (forall c, P c = true -> plain c = true) -> m <> [] -> forallb P m = true ->
  plain_first m = true.
Proof.
  intros HP Hn Hm. destruct m as [ | c t ]; [ congruence | ].
  cbn [forallb plain_first] in *. apply andb_prop in Hm. now apply HP.
Qed.

Lemma number_same p m after q q1 :
  In q tag_states -> matches hl_number_re p m after ->
  tag_run q m = Some q1 -> tag_run q (span "text-yellow-300" m) = Some q1.
Proof.
  intros Hq Hm Hr. apply matches_number in Hm. destruct Hm as [Hn Hm].
  assert (H1 : plain_first m = true)
    by (eapply plain_first_all; [ apply digit_plain | exact Hn | exact Hm ]).
  assert (H2 : plain_first (rev m) = true).
  { eapply plain_first_all; [ apply digit_plain | | ].
    - intros H. apply (f_equal (@rev ascii)) in H. rewrite rev_involutive in H. now subst.
    - rewrite forallb_forall in *. intros x Hx. apply Hm. now apply in_rev. }
  destruct (@tag_run_plain_ends m q q1 Hq Hr H1 H2) as [ -> -> ].
  apply tag_run_span; [ reflexivity | exact Hr ].
Qed.

Lemma keyword_same k p m after q q1 :
  keyword_outside k = true ->
  In q tag_states -> matches (word k) p m after ->
  tag_run q m = Some q1 ->
  tag_run q (span "text-purple-300 font-semibold" (L k)) = Some q1.
Proof.
  intros Hk Hq Hm Hr. apply matches_word in Hm. subst m.
  unfold keyword_outside in Hk. rewrite forallb_forall in Hk.
  specialize (Hk q Hq). rewrite Hr in Hk.
  destruct q; [ | discriminate ]. destruct q1; [ | discriminate ].
  apply tag_run_span; [ reflexivity | exact Hr ].
Qed.

Lemma keywords_outside lang : forallb keyword_outside (allKeywords lang) = true.
Proof. destruct lang; vm_compute; reflexivity. Qed.

Lemma fold_keywords_tags ks : forall html,
    forallb keyword_outside ks = true -> tag_run [] html = Some [] ->
    tag_run [] (fold_left highlight_keyword ks html) = Some [].
Proof.
  induction ks as [ | k ks IH ]; intros html Hk Hh; cbn [fold_left]; [ exact Hh | ].
  cbn [forallb] in Hk. apply andb_prop in Hk. destruct Hk as [H1 H2].
  apply IH; [ exact H2 | ]. unfold highlight_keyword.
  apply replace_tags; [ | exact Hh ].
  intros p m after q q1. now apply keyword_same.
Qed.

(** The scanner reads through every rendering. *)
Lemma highlightCode_tags text lang : tag_run [] (highlightCode text lang) = Some [].
Proof.
  unfold highlightCode. destruct text as [ | c t ]; [ reflexivity | ].
  set (text := c :: t). cbv zeta.
  rewrite tag_run_app.
  replace (tag_run [] pre_open) with (Some (@nil str)) by reflexivity.
  rewrite tag_run_app.
  replace (tag_run [] (L "<code>")) with (Some (@nil str)) by reflexivity.
  rewrite tag_run_app.
  rewrite fold_keywords_tags; [ reflexivity | apply keywords_outside | ].
  apply replace_tags; [ intros p m after q q1; apply number_same | ].
  apply replace_tags; [ intros p m after q q1; apply string_same | ].
  apply replace_go_tags_plain; [ | apply esc_no_lt ].
  intros m. now apply tag_run_esc_span.
Qed.
End Tags.

(** ** Every [>] of the rendering ends a tag of the highlighter *)

Section Closing.
(** The fixed pieces of the markup. *)
Lemma fixed_pieces a :
  closes_tag a = false ->
  Ascii.eqb ">" a = false
  /\ forallb (pair_free a ">")
       [pre_open; L "<code>"; L "</code></pre>"; span_close;
        span_open "text-slate-400"; span_open "text-green-300";
        span_open "text-yellow-300"; span_open "text-purple-300 font-semibold";
        highlightCode [] java] = true.
Proof.
  destruct a as [ [ | ] [ | ] [ | ] [ | ] [ | ] [ | ] [ | ] [ | ] ];
    intros H; vm_compute in H; try discriminate H; vm_compute; split; reflexivity.
Qed.

Lemma replace_go_no_match r f fuel : forall p s,
    search r p s = false -> replace_go r f fuel p s = s.
Proof.
  induction fuel as [ | fuel IH ]; intros p s Hs; cbn [replace_go]; [ reflexivity | ].
  rewrite (search_false_here _ _ _ Hs).
  destruct s as [ | c t ]; [ reflexivity | ].
  f_equal. apply IH. eapply search_false_next; eauto.
Qed.

Lemma pair_free_factor a b u w v :
  pair_free a b (u ++ w ++ v) = true -> pair_free a b w = true.
Proof.
  intros H. apply pair_free_split in H. destruct H as [_ H].
  apply pair_free_split in H. now destruct H.
Qed.

Lemma test_word_occurs k s : test (word k) s = true -> occurs (L k) s.
Proof.
  intros H. apply test_matches in H. destruct H as (u & t & v & -> & H).
  apply matches_word in H. subst t. now exists u, v.
Qed.

Section Predecessor.
Variable a : ascii.
Hypothesis Ha : closes_tag a = false.

Lemma span_closing cls body :
  pair_free a ">" (span_open cls) = true -> pair_free a ">" body = true ->
  pair_free a ">" (span cls body) = true.
Proof.
  intros Ho Hb. destruct (fixed_pieces a Ha) as [Hg Hf].
  cbn [forallb] in Hf. repeat (apply andb_prop in Hf; destruct Hf as [? Hf]).
  unfold span. apply pair_free_app; [ exact Ho | | ].
  - apply pair_free_app; [ exact Hb | assumption | apply andb_false_r ].
  - unfold span_open. rewrite !app_assoc. change (L ">") with [">"%char].
    now rewrite ends_with_snoc, Hg.
Qed.

Lemma span_not_last cls body : ends_with a (span cls body) = false.
Proof.
  destruct (fixed_pieces a Ha) as [Hg _].
  unfold span, span_close.
  change (L "</span>") with (L "</span" ++ [">"%char]).
  now rewrite !app_assoc, ends_with_snoc.
Qed.

Lemma span_step r cls g s :
  pair_free a ">" (span_open cls) = true ->
  (forall m, pair_free a ">" m = true -> pair_free a ">" (g m) = true) ->
  pair_free a ">" s = true ->
  pair_free a ">" (replace r (fun m => span cls (g m)) s) = true.
Proof.
  intros Ho Hg Hs. apply replace_pair_free; [ | | | exact Hs ].
  - intros m Hm. apply span_closing; [ exact Ho | now apply Hg ].
  - intros m. apply span_head.
  - intros m. apply span_not_last.
Qed.

Lemma keyword_closing k html :
  pair_free a ">" html = true -> pair_free a ">" (highlight_keyword html k) = true.
Proof.
  intros Hh. destruct (fixed_pieces a Ha) as [_ Hf].
  cbn [forallb] in Hf. repeat (apply andb_prop in Hf; destruct Hf as [? Hf]).
  unfold highlight_keyword.
  destruct (pair_free a ">" (L k)) eqn:Ek.
  - apply span_step with (g := fun _ => L k); [ assumption | now intros | exact Hh ].
  - destruct (test (word k) html) eqn:Et.
    + apply test_word_occurs in Et. destruct Et as (u & v & E). rewrite E in Hh.
      apply pair_free_factor in Hh. congruence.
    + unfold replace. now rewrite replace_go_no_match.
Qed.

Lemma fold_keywords_closing ks : forall html,
    pair_free a ">" html = true ->
    pair_free a ">" (fold_left highlight_keyword ks html) = true.
Proof.
  induction ks as [ | k ks IH ]; intros html Hh; cbn [fold_left]; [ exact Hh | ].
  now apply IH, keyword_closing.
Qed.

Lemma highlightCode_closing text lang : pair_free a ">" (highlightCode text lang) = true.
Proof.
  destruct (fixed_pieces a Ha) as [Hg Hf].
  cbn [forallb] in Hf. repeat (apply andb_prop in Hf; destruct Hf as [? Hf]).
  unfold highlightCode. destruct text as [ | c t ]; [ assumption | ].
  set (text := c :: t). cbv zeta.
  apply pair_free_app; [ assumption | | rewrite andb_comm; reflexivity ].
  apply pair_free_app; [ assumption | | ].
  - apply pair_free_app; [ | assumption | apply andb_false_r ].
    apply fold_keywords_closing.
    apply span_step with (g := fun m => m); [ assumption | now intros | ].
    apply span_step with (g := esc);
      [ assumption | intros m _; apply pair_free_absent, esc_no_gt | ].
    apply span_step with (g := esc);
      [ assumption | intros m _; apply pair_free_absent, esc_no_gt | ].
    apply pair_free_absent, esc_no_gt.
  - change (L "<code>") with (L "<code" ++ [">"%char]).
    now rewrite ends_with_snoc, Hg.
Qed.
End Predecessor.

Lemma highlightCode_head text lang :
  exists rest, highlightCode text lang = "<"%char :: rest.
Proof. destruct text; eexists; reflexivity. Qed.

(** A [>] of the rendering stands after a character of [closes_tag]. *)
Lemma highlightCode_gt text lang u v :
  highlightCode text lang = u ++ ">"%char :: v ->
  exists u' a, u = u' ++ [a] /\ closes_tag a = true.
Proof.
  intros E. destruct (rev u) as [ | a r ] eqn:Er.
  - apply (f_equal (@rev ascii)) in Er. rewrite rev_involutive in Er. subst u.
    destruct (highlightCode_head text lang) as (rest & H). rewrite H in E. discriminate E.
  - apply (f_equal (@rev ascii)) in Er. rewrite rev_involutive in Er. cbn [rev] in Er.
    exists (rev r), a. split; [ exact Er | ].
    destruct (closes_tag a) eqn:Ea; [ reflexivity | ].
    pose proof (@highlightCode_closing a Ea text lang) as H.
    rewrite E, Er, <- app_assoc in H. cbn [app] in H.
    now rewrite pair_free_occurs in H.
Qed.

Lemma occursb_complete w s : occurs w s -> occursb w s = true.
Proof.
  intros (u & v & ->). induction u as [ | c u IH ].
  - cbn [app]. assert (H : starts_with w (w ++ v) = true).
    { induction w as [ | x w IHw ]; [ reflexivity | ].
      cbn [app starts_with]. now rewrite Ascii.eqb_refl. }
    destruct (w ++ v); cbn [occursb]; now rewrite H.
  - cbn [app occursb]. rewrite IH. apply orb_true_r.
Qed.
End Closing.

(** * The claims *)

(** C1 (as amended).  In a text all of whose numeric literals are single
    digits 0 or 1, each with a non-word character on both sides, the scanner
    reports no Magic Numbers issue.  A single digit from 2 to 9 between two
    non-word characters does trigger it, and so does the literal 42. *)
Theorem magic_numbers_by_digit :
  (forall text,
      single_digit_literals text = true -> digits_below_2 text = true ->
      reports "Magic Numbers" (analyzeIssues text) = false)
  /\ (forall pre a d b post,
         is_word a = false -> between "2" "9" d = true -> is_word b = false ->
         reports "Magic Numbers" (analyzeIssues (pre ++ a :: d :: b :: post)) = true)
  /\ (forall pre a b post,
         is_word a = false -> is_word b = false ->
         reports "Magic Numbers" (analyzeIssues (pre ++ a :: "4"%char :: "2"%char :: b :: post)) = true).
Proof.
  split; [ | split ].
  - intros text Hs Hd. destruct text as [ | c t ]; [ reflexivity | ].
    rewrite reports_magic by discriminate. now apply magic_quiet.
  - intros pre a d b post Ha Hd Hb.
    rewrite reports_magic by (destruct pre; discriminate).
    apply search_complete. now apply magic_single.
  - intros pre a b post Ha Hb.
    rewrite reports_magic by (destruct pre; discriminate).
    apply search_complete. now apply magic_double.
Qed.

Lemma magic_numbers_by_digit_witness :
  (single_digit_literals (L "x = 1;") = true /\ digits_below_2 (L "x = 1;") = true
   /\ reports "Magic Numbers" (analyzeIssues (L "x = 1;")) = false)
  /\ reports "Magic Numbers" (analyzeIssues (L "x = 5;")) = true
  /\ reports "Magic Numbers" (analyzeIssues (L "x = 42;")) = true.
Proof.
  destruct magic_numbers_by_digit as (H1 & H2 & H3).
  split; [ | split ].
  - split; [ reflexivity | split; [ reflexivity | ] ].
    apply H1; reflexivity.
  - apply (H2 (L "x =") " "%char "5"%char ";"%char []); reflexivity.
  - apply (H3 (L "x =") " "%char ";"%char []); reflexivity.
Defined.

(** C1 as stated fails: in [ 5 ] the only numeric literal is the single
    digit 5 between two spaces, and the scanner reports Magic Numbers. *)
Lemma magic_single_digit_counterexample :
  single_digit_literals (L " 5 ") = true
  /\ reports "Magic Numbers" (analyzeIssues (L " 5 ")) = true.
Proof. split; vm_compute; reflexivity. Qed.

(** C2 (the code departs from it).  Taking the markup away from the
    rendered string does not always give back the escaped input.  For the
    text [1] the number step writes [<span class=D text-yellow-300 D>1</span>]
    (D the double quote) and the keyword step then matches [class] inside
    that tag, so that the rendering shows [class=D text-yellow-300 D>1] where
    the escaped input is [1].  For the text [//<] the comment step escapes
    the already escaped text a second time: the rendering holds [//&amp;lt;]
    where the escaped input is [//&lt;]. *)
Theorem highlight_corrupts_rendering (lang : LanguageTag) :
  highlightCode (L "1") lang
  = pre_open ++ L "<code><span " ++ span "text-purple-300 font-semibold" (L "class")
      ++ L "=" ++ [dq] ++ L "text-yellow-300" ++ [dq] ++ L ">1</span></code></pre>"
  /\ visible_text (highlightCode (L "1") lang)
     = L "class=" ++ [dq] ++ L "text-yellow-300" ++ [dq] ++ L ">1"
  /\ esc (L "1") = L "1"
  /\ occurs (L "//&amp;lt;") (highlightCode (L "//<") lang)
  /\ esc (L "//<") = L "//&lt;".
Proof.
  repeat split; try (destruct lang; vm_compute; reflexivity).
  exists (firstn (length (highlightCode (L "//<") lang) - 30) (highlightCode (L "//<") lang)),
    (L "</span></code></pre>").
  destruct lang; vm_compute; reflexivity.
Qed.




(** C4.  Every field of the report is an integer between 0 and 100, and
    [complexityScore] and [clarityScore] are at least 10 (for every text,
    the empty one included, every issue list, documentation text and
    complexity level). *)
Theorem quality_scores_in_range (codeText : str) (foundIssues : list Issue)
        (docText : str) (complexity : Complexity) :
  let q := calculateQualityScore codeText foundIssues docText complexity in
  (0 <= maintainability q <= 100 /\ 0 <= commentScore q <= 100
   /\ 10 <= complexityScore q <= 100 /\ 10 <= clarityScore q <= 100
   /\ 0 <= docCompleteness q <= 100 /\ 0 <= risk q <= 100)%Z.
Proof.
  intros q.
  pose proof (commentScore_range codeText foundIssues docText complexity) as H1.
  pose proof (complexityScore_range codeText foundIssues docText complexity) as H2.
  pose proof (clarityScore_range codeText foundIssues docText complexity) as H3.
  pose proof (maintainability_eq codeText foundIssues docText complexity) as H4.
  pose proof (docCompleteness_range codeText foundIssues docText complexity) as H5.
  pose proof (risk_range codeText foundIssues docText complexity) as H6.
  cbv zeta in H1, H2, H3, H4, H5, H6. subst q. rewrite H4. clear H4.
  Z.div_mod_to_equations. lia.
Qed.

(** C5.  The classification is High exactly when there are more than 100
    lines or more than 10 function matches, otherwise Medium exactly when
    there are more than 50 lines or more than 5 matches, otherwise Low.  The
    statistics of every text are its line count and its number of matches,
    classified so; they are the ones published unless the text is blank, in
    which case the counts published are 0 and the level is Low. *)
Theorem complexity_classification :
  (forall lines functions : nat,
      (classify lines functions = High <-> 100 < lines \/ 10 < functions)
      /\ (classify lines functions = Medium <->
          ~ (100 < lines \/ 10 < functions) /\ (50 < lines \/ 5 < functions))
      /\ (classify lines functions = Low <->
          ~ (100 < lines \/ 10 < functions) /\ ~ (50 < lines \/ 5 < functions)))
  /\ (forall code,
         let st := structuralStats code in
         lines st = length (split_nl code)
         /\ functions st = length (match_all function_re code)
         /\ complexity st = classify (lines st) (functions st))
  /\ (forall code documentation,
         let st := codeStats (analysis code documentation) in
         complexity st = classify (lines st) (functions st)
         /\ st = match trim code with
                 | [] => {| lines := 0; functions := 0; complexity := Low |}
                 | _ => structuralStats code
                 end)
  /\ classify 101 0 = High /\ classify 60 0 = Medium /\ classify 10 1 = Low.
Proof.
  split; [ | split; [ | split; [ | repeat split ] ] ].
  - intros l f. unfold classify.
    destruct (Nat.ltb_spec 100 l); destruct (Nat.ltb_spec 10 f);
      destruct (Nat.ltb_spec 50 l); destruct (Nat.ltb_spec 5 f); cbn [orb];
      repeat split; intros; try discriminate; try lia; try reflexivity;
      intuition lia.
  - intros code. repeat split.
  - intros code documentation. unfold analysis.
    destruct (trim code); split; reflexivity.
Qed.

Lemma complexity_classification_witness :
  complexity (codeStats (analysis (L "def f(): pass") [])) = Low
  /\ lines (structuralStats (L "def f(): pass")) = 1
  /\ functions (structuralStats (L "def f(): pass")) = 1.
Proof.
  destruct complexity_classification as (Ht & Hs & Ha & _).
  destruct (Hs (L "def f(): pass")) as (Hl & Hf & _).
  destruct (Ha (L "def f(): pass") []) as (Hc & _).
  split; [ | split ].
  - rewrite Hc. apply (Ht 1 1). split; intros [ H | H ]; inversion H;
      repeat match goal with H' : _ <= _ |- _ => inversion H'; clear H' end.
  - rewrite Hl. reflexivity.
  - rewrite Hf. reflexivity.
Defined.

(** C6.  The rules are tried in order and the first match wins: a text
    whose lower-cased form holds a Python marker (the word def or import)
    and a JavaScript marker (the word function, const or let) is detected as
    python, although the JavaScript rule matches it too, and whatever the
    current language is. *)
Theorem python_rule_wins (language : LanguageTag) (text : str) :
  python_marker (toLowerCase text) ->
  javascript_marker (toLowerCase text) ->
  test javascript_re (toLowerCase text) = true
  /\ detectLanguage language text = python.
Proof.
  intros Hp Hj. split.
  - now apply javascript_rule.
  - now apply detect_python.
Qed.

Lemma python_rule_wins_witness :
  python_marker (toLowerCase (L "DEF f(): function"))
  /\ javascript_marker (toLowerCase (L "DEF f(): function"))
  /\ test javascript_re (toLowerCase (L "DEF f(): function")) = true
  /\ detectLanguage java (L "DEF f(): function") = python.
Proof.
  assert (Hp : python_marker (toLowerCase (L "DEF f(): function"))).
  { left. exists [], (L " f(): function"). repeat split; reflexivity. }
  assert (Hj : javascript_marker (toLowerCase (L "DEF f(): function"))).
  { left. exists (L "def f(): "), []. repeat split; reflexivity. }
  split; [ exact Hp | split; [ exact Hj | ] ].
  exact (@python_rule_wins java (L "DEF f(): function") Hp Hj).
Defined.

(** C7.  The nesting check folds over the lines with a depth counter that
    starts at 0.  Per line, the opener test (the line holds the word for,
    while, if or switch) adds 1, then the closer test (the line holds a
    closing brace or the word end) takes 1 away without going below 0, then
    the maximum is updated.  The issue is reported exactly when the maximum
    reaches 4, and four consecutive lines that hold an opening word and
    neither a closing brace nor the word end bring it there. *)
Theorem deep_nesting_check :
  (forall l, test opener_re l = true <-> opener_line l)
  /\ (forall l, test brace_re l || test end_re l = true <-> closer_line l)
  /\ (forall d m l,
         nest_step (d, m) l =
         (let d1 := if test opener_re l then d + 1 else d in
          let d2 := if test brace_re l || test end_re l then Z.max 0 (d1 - 1) else d1 in
          (d2, Z.max m d2))%Z)
  /\ (forall text, maxDepth text = snd (fold_left nest_step (split_nl text) (0, 0)%Z))
  /\ (forall text,
         text <> [] ->
         (reports "Deep nesting" (analyzeIssues text) = true <-> (4 <= maxDepth text)%Z))
  /\ (forall text pre l1 l2 l3 l4 post,
         split_nl text = pre ++ [l1; l2; l3; l4] ++ post ->
         Forall (fun l => opener_line l /\ ~ closer_line l) [l1; l2; l3; l4] ->
         (4 <= maxDepth text)%Z
         /\ reports "Deep nesting" (analyzeIssues text) = true).
Proof.
  split; [ exact test_opener | ].
  split; [ exact test_closer | ].
  split; [ exact nest_step_eq | ].
  split; [ reflexivity | ].
  split.
  - intros text Hn. rewrite reports_nesting by exact Hn. apply Z.leb_le.
  - intros text pre l1 l2 l3 l4 post E H.
    assert (Ho : forall l, In l [l1; l2; l3; l4] -> opens_only l).
    { rewrite Forall_forall in H. intros l Hl. apply H in Hl.
      now apply opens_only_lines. }
    pose proof (@four_openers text pre l1 l2 l3 l4 post E
                  (Ho l1 ltac:(cbn; auto)) (Ho l2 ltac:(cbn; auto))
                  (Ho l3 ltac:(cbn; auto)) (Ho l4 ltac:(cbn; auto))) as Hd.
    split; [ exact Hd | ].
    assert (Hn : text <> []).
    { intros ->. cbn [split_nl] in E.
      destruct pre as [ | x [ | y pre ] ]; discriminate. }
    rewrite reports_nesting by exact Hn. now apply Z.leb_le.
Qed.

Lemma deep_nesting_check_witness :
  let text := L "if (a) {" ++ "010"%char :: L " for (;;) {" ++ "010"%char
                :: L "  while (b) {" ++ "010"%char :: L "   switch (c) {" in
  (4 <= maxDepth text)%Z /\ reports "Deep nesting" (analyzeIssues text) = true.
Proof.
  intros text. destruct deep_nesting_check as (_ & Hc & _ & _ & _ & H).
  apply (H text [] (L "if (a) {") (L " for (;;) {") (L "  while (b) {")
           (L "   switch (c) {") []); [ reflexivity | ].
  assert (Hno : forall l, test brace_re l || test end_re l = false -> ~ closer_line l).
  { intros l Hl Hx. apply Hc in Hx. congruence. }
  repeat (apply Forall_cons; [ split; [ | apply Hno; reflexivity ] | ]).
  - right; right; left. exists [], (L " (a) {"). repeat split; reflexivity.
  - left. exists (L " "), (L " (;;) {"). repeat split; reflexivity.
  - right; left. exists (L "  "), (L " (b) {"). repeat split; reflexivity.
  - right; right; right. exists (L "   "), (L " (c) {"). repeat split; reflexivity.
  - apply Forall_nil.
Defined.

(** C8.  The scanner emits at most one issue of each kind, so that on its
    output the penalties of the scorer take two values only: 0 or 10 for
    nesting, 0 or 10 for long functions, 0 or 8 for magic numbers. *)
Theorem one_issue_per_kind (text : str) :
  let found := analyzeIssues text in
  (forall k, count_type k found <= 1)
  /\ (nestingPenalty found = 0 \/ nestingPenalty found = 10)%Z
  /\ (longFuncPenalty found = 0 \/ longFuncPenalty found = 10)%Z
  /\ (magicPenalty found = 0 \/ magicPenalty found = 8)%Z.
Proof.
  intros found.
  assert (H : forall k, count_type k found <= 1).
  { intros k. apply count_type_nodup.
    eapply subseq_nodup; [ apply analyzeIssues_types | apply issue_order_nodup ]. }
  split; [ exact H | ].
  unfold nestingPenalty, longFuncPenalty, magicPenalty.
  pose proof (H "Deep nesting"%string). pose proof (H "Long functions"%string).
  pose proof (H "Magic Numbers"%string). lia.
Qed.

(** C9.  The kinds of the issues returned follow the fixed order of the
    checks, kinds that are absent being left out; on the empty string the
    scanner returns no issue. *)
Theorem issues_in_fixed_order (text : str) :
  subseq (map type (analyzeIssues text)) issue_order /\ analyzeIssues [] = [].
Proof. split; [ apply analyzeIssues_types | reflexivity ]. Qed.

(** C10.  The risk score is at least 5 whatever the text, the issue list,
    the documentation and the complexity level; with no issue at all it is
    the complexity penalty, which is 5, 15 or 30. *)
Theorem risk_at_least_5 (codeText : str) (foundIssues : list Issue)
        (docText : str) (complexity : Complexity) :
  (5 <= risk (calculateQualityScore codeText foundIssues docText complexity))%Z
  /\ risk (calculateQualityScore codeText [] docText complexity)
     = complexityPenalty complexity
  /\ (5 <= complexityPenalty complexity)%Z.
Proof.
  pose proof (risk_range codeText foundIssues docText complexity) as H.
  pose proof (complexityPenalty_range complexity) as Hc.
  cbv zeta in H. repeat split; try lia.
  destruct complexity; reflexivity.
Qed.

(** * Further properties *)

(** X1.  The detector is a decision list over word occurrences in the
    lower-cased text: python when it holds the word def or import; otherwise
    javascript when it holds function, const or let; otherwise java for
    public class, private or throws; otherwise csharp for using, namespace or
    console.writeline; otherwise cpp when #include or std:: occurs; otherwise
    php when <?php occurs or it holds the word echo; otherwise the current
    language (in particular for the empty text). *)
Theorem detect_by_markers (language : LanguageTag) (text : str) :
  let lower := toLowerCase text in
  let detected := detectLanguage language text in
  (python_marker lower -> detected = python)
  /\ (~ python_marker lower -> javascript_marker lower -> detected = javascript)
  /\ (~ python_marker lower -> ~ javascript_marker lower -> java_marker lower ->
      detected = java)
  /\ (~ python_marker lower -> ~ javascript_marker lower -> ~ java_marker lower ->
      csharp_marker lower -> detected = csharp)
  /\ (~ python_marker lower -> ~ javascript_marker lower -> ~ java_marker lower ->
      ~ csharp_marker lower -> cpp_marker lower -> detected = cpp)
  /\ (~ python_marker lower -> ~ javascript_marker lower -> ~ java_marker lower ->
      ~ csharp_marker lower -> ~ cpp_marker lower -> php_marker lower ->
      detected = php)
  /\ (~ python_marker lower -> ~ javascript_marker lower -> ~ java_marker lower ->
      ~ csharp_marker lower -> ~ cpp_marker lower -> ~ php_marker lower ->
      detected = language).
Proof.
  intros lower detected. subst detected. rewrite detect_rules. fold lower. cbv zeta.
  pose proof (python_rule_iff lower). pose proof (javascript_rule_iff lower).
  pose proof (java_rule_iff lower). pose proof (csharp_rule_iff lower).
  pose proof (cpp_rule_iff lower). pose proof (php_rule_iff lower).
  destruct (test python_re lower); destruct (test javascript_re lower);
    destruct (test java_re lower); destruct (test csharp_re lower);
    destruct (test cpp_re lower); destruct (test php_re lower);
    repeat split; intros; try reflexivity; exfalso; intuition congruence.
Qed.

(** The built-in PHP example holds the word function and neither def nor
    import: it is detected as javascript. *)
Lemma detect_by_markers_witness :
  ~ python_marker (toLowerCase example_php)
  /\ javascript_marker (toLowerCase example_php)
  /\ detectLanguage php example_php = javascript.
Proof.
  assert (Hp : ~ python_marker (toLowerCase example_php)).
  { intros H. apply python_rule_iff in H. vm_compute in H. discriminate H. }
  assert (Hj : javascript_marker (toLowerCase example_php)).
  { apply javascript_rule_iff. vm_compute. reflexivity. }
  split; [ exact Hp | split; [ exact Hj | ] ].
  destruct (detect_by_markers php example_php) as (_ & H & _).
  exact (H Hp Hj).
Defined.

(** X2.  Detecting again on the same text changes nothing: the language found
    for a text is the one found when it is the current language already, so
    that pasting the same text twice leaves language and code as after the
    first paste. *)
Theorem detect_idempotent (language : LanguageTag) (text : str) :
  detectLanguage (detectLanguage language text) text = detectLanguage language text
  /\ handlePaste (fst (handlePaste language text)) text = handlePaste language text
  /\ fst (handlePaste language text) = detectLanguage language text
  /\ handleFile language text = (text, detectLanguage language text).
Proof.
  assert (H1 : detectLanguage (detectLanguage language text) text
               = detectLanguage language text).
  { rewrite !detect_rules. cbv zeta.
    destruct (test python_re _); [ reflexivity | ].
    destruct (test javascript_re _); [ reflexivity | ].
    destruct (test java_re _); [ reflexivity | ].
    destruct (test csharp_re _); [ reflexivity | ].
    destruct (test cpp_re _); [ reflexivity | ].
    destruct (test php_re _); reflexivity. }
  assert (H3 : fst (handlePaste language text) = detectLanguage language text).
  { unfold handlePaste. cbn [fst].
    destruct (detectLanguage language text); destruct language; reflexivity. }
  split; [ exact H1 | ]. split; [ | split; [ exact H3 | reflexivity ] ].
  unfold handlePaste at 1. rewrite H3, H1.
  unfold handlePaste.
  destruct (detectLanguage language text); destruct language; reflexivity.
Qed.

(** X3.  Of the six built-in examples only three are detected as their own
    language: the C++ example holds the word private and is detected as
    java, the PHP example holds the word function and is detected as
    javascript, the C# example holds public class and is detected as java. *)
Theorem examples_detected (current : LanguageTag) :
  detectLanguage current (loadExample java) = java
  /\ detectLanguage current (loadExample python) = python
  /\ detectLanguage current (loadExample javascript) = javascript
  /\ detectLanguage current (loadExample cpp) = java
  /\ detectLanguage current (loadExample php) = javascript
  /\ detectLanguage current (loadExample csharp) = java.
Proof. repeat split; vm_compute; reflexivity. Qed.

(** X4.  [escapeHtml] is the character-wise substitution of & by &amp;, of <
    by &lt; and of > by &gt;: the three global replacements, run one after
    the other, do not act on each other's output.  The result holds no <
    and no >, and it is longer than the text by 4 for every & and by 3 for
    every < or > at least. *)
Theorem escapeHtml_substitution (s : str) :
  escapeHtml s = flat_map entity s
  /\ ~ In "<"%char (escapeHtml s) /\ ~ In ">"%char (escapeHtml s)
  /\ length s + 3 * length (filter is_special s) <= length (escapeHtml s).
Proof.
  rewrite escapeHtml_esc.
  split; [ apply esc_entities | ].
  split; [ apply esc_no_lt | ].
  split; [ apply esc_no_gt | ].
  rewrite esc_entities. apply escape_length.
Qed.

(** X5.  Escaping loses nothing: reading the three entities back gives the
    text again, so that two different texts never have the same escaped
    form. *)
Theorem escapeHtml_lossless (s1 s2 : str) :
  unescapeHtml (escapeHtml s1) = s1
  /\ (escapeHtml s1 = escapeHtml s2 -> s1 = s2).
Proof.
  split; [ apply unescape_escape | ].
  intros H. rewrite <- (unescape_escape s1), <- (unescape_escape s2). now rewrite H.
Qed.

Lemma escapeHtml_lossless_witness :
  escapeHtml (L "a<b") = escapeHtml ("a"%char :: "<"%char :: L "b")
  /\ L "a<b" = "a"%char :: "<"%char :: L "b".
Proof.
  split; [ reflexivity | ].
  apply (proj2 (escapeHtml_lossless (L "a<b") ("a"%char :: "<"%char :: L "b"))).
  reflexivity.
Defined.

(** X6.  Escaping is not idempotent: escaping an escaped text again changes
    it exactly when the text holds one of the characters &, < and >. *)
Theorem escapeHtml_twice (s : str) :
  (escapeHtml (escapeHtml s) = escapeHtml s <-> existsb is_special s = false)
  /\ (escapeHtml s = s <-> existsb is_special s = false).
Proof.
  assert (H2 : escapeHtml s = s <-> existsb is_special s = false).
  { rewrite escapeHtml_esc, esc_entities. split.
    - intros H. apply filter_nil_existsb.
      pose proof (escape_length s) as Hl. rewrite H in Hl.
      destruct (filter is_special s); [ reflexivity | cbn [length] in Hl; lia ].
    - apply escape_plain. }
  split; [ | exact H2 ].
  rewrite <- H2. split.
  - intros H. apply (f_equal unescapeHtml) in H. now rewrite !unescape_escape in H.
  - intros H. now rewrite H.
Qed.

(** X7.  The scanner reports TODOs exactly when TODO, FIXME or XXX occurs in
    the text in any letter case, also inside a longer word. *)
Theorem todos_reported (text : str) :
  reports "TODOs" (analyzeIssues text) = true <-> has_todo text.
Proof.
  destruct text as [ | c t ].
  - split; [ discriminate | ].
    intros [ H | [ H | H ] ]; destruct H as (u & m & v & H & Hm);
      destruct u; destruct m; discriminate.
  - rewrite reports_todos. apply todo_iff.
Qed.

(** X8.  A non-empty text without any comment marker (/*, */, // or a # with
    a space after it) is always reported for Missing Comments; a text with
    at least one marker and fewer than 20 lines never is. *)
Theorem missing_comments_reported (text : str) :
  (text <> [] -> ~ has_comment_marker text ->
   reports "Missing Comments" (analyzeIssues text) = true)
  /\ (has_comment_marker text -> length (split_nl text) < 20 ->
      reports "Missing Comments" (analyzeIssues text) = false).
Proof.
  assert (Hm : test comment_re text = true <-> has_comment_marker text).
  { unfold comment_re, has_comment_marker. cbn [alts].
    rewrite !test_alt, !test_lit. tauto. }
  pose proof (match_all_count comment_re text) as Hc.
  destruct text as [ | c t ].
  - split; [ congruence | ]. intros H. apply Hm in H. discriminate.
  - rewrite reports_missing. unfold commentCount. split.
    + intros _ Hn. destruct (test comment_re (c :: t)); [ tauto | ].
      apply Nat.ltb_ge in Hc. apply Nat.ltb_lt.
      generalize (length (split_nl (c :: t)) / 10). intros q.
      pose proof (Nat.le_max_l 1 q). lia.
    + intros Hh Hl. apply Hm in Hh. rewrite Hh in Hc. apply Nat.ltb_lt in Hc.
      apply Nat.ltb_ge.
      assert (Hq : length (split_nl (c :: t)) / 10 < 2)
        by (apply Nat.Div0.div_lt_upper_bound; lia).
      revert Hq. generalize (length (split_nl (c :: t)) / 10). intros q Hq.
      rewrite Nat.max_l by lia. lia.
Qed.

Lemma missing_comments_reported_witness :
  reports "Missing Comments" (analyzeIssues (L "x = 1")) = true
  /\ reports "Missing Comments" (analyzeIssues (L "x = 1 // one")) = false.
Proof.
  split.
  - apply (proj1 (missing_comments_reported (L "x = 1"))); [ discriminate | ].
    intros H.
    assert (Hm : test comment_re (L "x = 1") = true).
    { unfold comment_re. cbn [alts]. rewrite !test_alt, !test_lit.
      unfold has_comment_marker in H. tauto. }
    discriminate Hm.
  - apply (proj2 (missing_comments_reported (L "x = 1 // one"))).
    + right; right; left. exists (L "x = 1 "), (L " one"). reflexivity.
    + cbn. lia.
Defined.

(** X9.  The scanner reports Deprecated patterns exactly when the text holds,
    in any letter case, auto_ptr, register, or gets followed by optional
    white space and an opening parenthesis. *)
Theorem deprecated_reported (text : str) :
  reports "Deprecated patterns" (analyzeIssues text) = true <-> has_deprecated text.
Proof.
  assert (H : test deprecated_re text = true <-> has_deprecated text).
  { unfold deprecated_re, has_deprecated. cbn [alts].
    rewrite !test_alt, !test_liti, gets_iff. tauto. }
  destruct text as [ | c t ].
  - rewrite <- H. split; discriminate.
  - now rewrite reports_deprecated.
Qed.

(** X10.  The scanner reports Null checks exactly when the text holds null,
    NULL or None somewhere and holds none of the four checks anywhere:
    == null or != null (with any white space before null), is not None, is
    None.  One check anywhere in the text silences the issue for the whole
    text. *)
Theorem null_checks_reported (text : str) :
  reports "Null checks" (analyzeIssues text) = true
  <-> has_null text /\ ~ has_null_check text.
Proof.
  destruct text as [ | c t ].
  - split; [ discriminate | ].
    intros [ [ H | [ H | H ] ] _ ]; apply occurs_nil in H; discriminate.
  - rewrite reports_null, andb_true_iff, negb_true_iff, null_iff.
    pose proof (null_check_iff (c :: t)) as H.
    destruct (test null_check_re (c :: t)); intuition congruence.
Qed.

(** X11.  The nesting depth never exceeds the number of lines that pass the
    opener test, so a text with fewer than four such lines is never reported
    for Deep nesting; and when every line that holds an opening word also
    holds a closing brace or the word end, the depth stays 0. *)
Theorem shallow_texts_not_reported (text : str) :
  (maxDepth text <= Z.of_nat (opener_count text))%Z
  /\ (opener_count text < 4 -> reports "Deep nesting" (analyzeIssues text) = false)
  /\ (Forall (fun l => opener_line l -> closer_line l) (split_nl text) ->
      maxDepth text = 0%Z /\ reports "Deep nesting" (analyzeIssues text) = false).
Proof.
  assert (H1 : (maxDepth text <= Z.of_nat (opener_count text))%Z).
  { unfold maxDepth, opener_count.
    pose proof (nest_fold_count (split_nl text) (d := 0) (m := 0) (n := 0)
                  ltac:(lia) ltac:(lia)). lia. }
  assert (Hr : (maxDepth text < 4)%Z -> reports "Deep nesting" (analyzeIssues text) = false).
  { intros Hd. destruct text as [ | c t ]; [ reflexivity | ].
    rewrite reports_nesting by discriminate. apply Z.leb_gt. exact Hd. }
  split; [ exact H1 | ]. split.
  - intros Hc. apply Hr. lia.
  - intros Hf.
    assert (H0 : maxDepth text = 0%Z).
    { unfold maxDepth. rewrite nest_fold_flat; [ reflexivity | ].
      eapply Forall_impl; [ | exact Hf ]. cbv beta. intros l Hl Ho.
      apply test_closer, Hl, test_opener, Ho. }
    split; [ exact H0 | apply Hr; lia ].
Qed.

Lemma shallow_texts_not_reported_witness :
  reports "Deep nesting" (analyzeIssues (L "if (a) { b(); }")) = false
  /\ maxDepth (L "if (a) { b(); }") = 0%Z.
Proof.
  split.
  - apply (proj1 (proj2 (shallow_texts_not_reported (L "if (a) { b(); }")))).
    vm_compute. lia.
  - apply (proj2 (proj2 (shallow_texts_not_reported (L "if (a) { b(); }")))).
    apply Forall_cons; [ | apply Forall_nil ].
    intros _. left. apply test_brace. vm_compute. reflexivity.
Defined.

(** X12.  The fragments of the long-function check are pieces of the text, so
    a text of at most 500 characters is never reported for Long functions;
    a text of more than 500 characters that holds none of the words
    function, def, public and private is one fragment and always is. *)
Theorem long_functions_reported (text : str) :
  (forall x, In x (split block_re text) -> length x <= length text)
  /\ (length text <= 500 -> reports "Long functions" (analyzeIssues text) = false)
  /\ (500 < length text -> ~ has_block_word text ->
      reports "Long functions" (analyzeIssues text) = true).
Proof.
  assert (Hx : forall x, In x (split block_re text) -> length x <= length text)
    by (intros x; apply split_length).
  split; [ exact Hx | ]. split.
  - intros Hl. destruct text as [ | c t ]; [ reflexivity | ].
    rewrite reports_long. unfold functionBlocks.
    destruct (filter (fun s => (500 <? length s)%nat) (split block_re (c :: t)))
      as [ | x l ] eqn:E; [ reflexivity | ].
    assert (Hin : In x (filter (fun s => (500 <? length s)%nat) (split block_re (c :: t))))
      by (rewrite E; now left).
    apply filter_In in Hin. destruct Hin as [Hin Hlong].
    apply Hx in Hin. apply Nat.ltb_lt in Hlong. lia.
  - intros Hl Hn. destruct text as [ | c t ]; [ cbn in Hl; lia | ].
    rewrite reports_long. unfold functionBlocks.
    assert (Ht : test block_re (c :: t) = false).
    { apply (@rule_false block_re (has_block_word (c :: t)) (c :: t)); [ | exact Hn ].
      unfold block_re, has_block_word. cbn [alts].
      rewrite !test_alt, !test_whole_word by reflexivity. tauto. }
    rewrite (split_no_match _ _ Ht). cbn [filter].
    apply Nat.ltb_lt in Hl. rewrite Hl. reflexivity.
Qed.

Lemma long_functions_reported_witness :
  reports "Long functions" (analyzeIssues (L "function f() { return 1; }")) = false
  /\ reports "Long functions" (analyzeIssues (repeat "x"%char 501)) = true.
Proof.
  split.
  - apply (proj1 (proj2 (long_functions_reported (L "function f() { return 1; }")))).
    cbn. lia.
  - apply (proj2 (proj2 (long_functions_reported (repeat "x"%char 501)))).
    + rewrite repeat_length. lia.
    + intros H.
      assert (Ht : test block_re (repeat "x"%char 501) = true).
      { unfold block_re. cbn [alts]. rewrite !test_alt, !test_whole_word by reflexivity.
        unfold has_block_word in H. tauto. }
      vm_compute in Ht. discriminate Ht.
Defined.

(** X13.  The statistics of a text: the line count is the number of line
    feeds plus one, and the function count is 0 exactly when the text holds
    none of function, def, public, private, protected and class (the last
    five with a space after them) as a substring, whether inside a longer
    word or not. *)
Theorem structural_counts (code : str) :
  lines (structuralStats code) = S (length (filter (Ascii.eqb "010") code))
  /\ (functions (structuralStats code) = 0
      <-> ~ (occurs (L "function") code \/ occurs (L "def ") code
             \/ occurs (L "public ") code \/ occurs (L "private ") code
             \/ occurs (L "protected ") code \/ occurs (L "class ") code)).
Proof.
  unfold structuralStats. cbn [lines functions]. split; [ apply split_nl_length | ].
  rewrite <- function_marker_iff.
  pose proof (match_all_count function_re code) as H.
  destruct (test function_re code); destruct (match_all function_re code);
    cbn [length] in *; split; intros; try congruence; try discriminate.
Qed.

(** X14.  The analysis and the prompt generator skip exactly the texts made
    of white space only: for such a text the statistics are hidden, no issue
    and no report is shown and no prompt is generated; for any other text
    the statistics and a report are shown, the issues are the scanner's, the
    line count is at least 1 and a prompt is generated. *)
Theorem blank_code_skipped (now : Z) (stamp : str) (language : LanguageTag)
        (code documentation : str) (docStyle : DocStyle) (audience : Audience)
        (found : list Issue) (prev : list HistoryItem.t) :
  (forallb is_space code = true ->
   analysis code documentation
   = {| codeStats := {| lines := 0; functions := 0; complexity := Low |};
        showStats := false; issues := []; qualityReport := None |}
   /\ generatePrompt now stamp language code docStyle audience found prev = None)
  /\ (forallb is_space code = false ->
      showStats (analysis code documentation) = true
      /\ qualityReport (analysis code documentation) <> None
      /\ issues (analysis code documentation) = analyzeIssues code
      /\ 1 <= lines (codeStats (analysis code documentation))
      /\ generatePrompt now stamp language code docStyle audience found prev <> None).
Proof.
  unfold analysis, generatePrompt.
  destruct (trim_cases code) as [ [ -> -> ] | [ -> (c & t & ->) ] ].
  - split; [ auto | discriminate ].
  - split; [ discriminate | ]. intros _.
    cbn [showStats qualityReport issues codeStats lines structuralStats].
    repeat split; try discriminate.
    destruct code as [ | x s ]; [ cbn; lia | ].
    cbn [split_nl]. destruct (Ascii.eqb x "010"); [ cbn [length]; lia | ].
    destruct (split_nl s); cbn [length]; lia.
Qed.

Lemma blank_code_skipped_witness :
  qualityReport (analysis (L "  ") []) = None
  /\ showStats (analysis (L " x ") []) = true.
Proof.
  split.
  - pose proof (proj1 (blank_code_skipped 0 [] java (L "  ") [] comprehensive general [] [])
                  eq_refl) as H.
    destruct H as [H _]. rewrite H. reflexivity.
  - apply (proj2 (blank_code_skipped 0 [] java (L " x ") [] comprehensive general [] [])
             eq_refl).
Defined.

(** X15.  Maintainability is the mean of the comment, complexity and clarity
    scores rounded to the nearest integer: three times its value is within
    1 of their sum.  It lies between 15 and 98. *)
Theorem maintainability_rounded_mean (codeText : str) (foundIssues : list Issue)
        (docText : str) (complexity : Complexity) :
  let q := calculateQualityScore codeText foundIssues docText complexity in
  (-1 <= 3 * maintainability q - (commentScore q + complexityScore q + clarityScore q) <= 1
   /\ 15 <= maintainability q <= 98)%Z.
Proof.
  intros q.
  pose proof (maintainability_eq codeText foundIssues docText complexity) as Hm.
  pose proof (commentScore_range codeText foundIssues docText complexity) as H1.
  pose proof (complexityScore_range codeText foundIssues docText complexity) as H2.
  pose proof (clarityScore_range codeText foundIssues docText complexity) as H3.
  fold q in Hm, H1, H2, H3. rewrite Hm.
  revert H1 H2 H3.
  generalize (commentScore q), (complexityScore q), (clarityScore q). intros a b c ? ? ?.
  Z.div_mod_to_equations. lia.
Qed.

(** X16.  The documentation text counts only by its presence.  Two
    documentation texts give the same maintainability, comment, complexity
    and clarity scores and the same risk; documentation completeness is 5
    per comment marker of the code plus 30 when the documentation holds
    anything but white space, capped at 100, so that typing documentation
    never lowers it and raises it by at most 30. *)
Theorem documentation_counts_by_presence (codeText : str) (foundIssues : list Issue)
        (complexity : Complexity) (doc1 doc2 : str) :
  let q1 := calculateQualityScore codeText foundIssues doc1 complexity in
  let q2 := calculateQualityScore codeText foundIssues doc2 complexity in
  (maintainability q1, commentScore q1, complexityScore q1, clarityScore q1, risk q1)
  = (maintainability q2, commentScore q2, complexityScore q2, clarityScore q2, risk q2)
  /\ docCompleteness q1
     = Z.min 100 (Z.of_nat (commentCount codeText) * 5
                  + (if forallb is_space doc1 then 0 else 30))%Z
  /\ (forallb is_space doc1 = true ->
      (docCompleteness q1 <= docCompleteness q2 <= docCompleteness q1 + 30)%Z).
Proof.
  intros q1 q2.
  assert (Hd : forall d,
             docCompleteness (calculateQualityScore codeText foundIssues d complexity)
             = Z.min 100 (Z.of_nat (commentCount codeText) * 5
                          + (if forallb is_space d then 0 else 30))%Z).
  { intros d. unfold calculateQualityScore, commentCount. cbn [docCompleteness].
    destruct (trim_cases d) as [ [ -> -> ] | [ -> (c & t & ->) ] ]; reflexivity. }
  split; [ reflexivity | ]. split; [ apply Hd | ].
  intros H1. unfold q1, q2. rewrite !Hd, H1.
  destruct (forallb is_space doc2); lia.
Qed.

Lemma documentation_counts_by_presence_witness :
  let q1 := calculateQualityScore (L "x = 1 // one") [] (L "  ") Low in
  let q2 := calculateQualityScore (L "x = 1 // one") [] (L "Sets x.") Low in
  (docCompleteness q1 <= docCompleteness q2 <= docCompleteness q1 + 30)%Z.
Proof.
  apply (proj2 (proj2 (documentation_counts_by_presence
                         (L "x = 1 // one") [] Low (L "  ") (L "Sets x.")))).
  reflexivity.
Defined.

(** X17.  In the report shown for a text, the scanner's issues are the ones
    scored, each kind at most once: the complexity score is 100 minus the
    complexity penalty minus 10 for Deep nesting and 10 for Long functions,
    the clarity score is 100 minus 8 for Magic Numbers and 25 for Missing
    Comments.  So the complexity score stays between 50 and 95, the clarity
    score between 67 and 100, the maintainability between 39 and 98, and the
    floors of 10 and the caps of the penalties never apply. *)
Theorem published_scores (code documentation : str) (q : QualityReport) :
  qualityReport (analysis code documentation) = Some q ->
  let found := issues (analysis code documentation) in
  let stats := codeStats (analysis code documentation) in
  let b k := (if reports k found then 1 else 0)%Z in
  (complexityScore q
   = 100 - complexityPenalty (complexity stats)
     - 10 * b "Deep nesting" - 10 * b "Long functions"
   /\ clarityScore q = 100 - 8 * b "Magic Numbers" - 25 * b "Missing Comments"
   /\ 50 <= complexityScore q <= 95
   /\ 67 <= clarityScore q <= 100
   /\ 39 <= maintainability q <= 98)%Z
  /\ length found <= 7.
Proof.
  intros Hq found stats b.
  assert (E : found = analyzeIssues code
              /\ complexity stats = complexity (structuralStats code)
              /\ q = calculateQualityScore code (analyzeIssues code) documentation
                       (complexity (structuralStats code))).
  { unfold found, stats. unfold analysis in *.
    destruct (trim code); [ discriminate | ]. injection Hq as <-. auto. }
  destruct E as (Ef & Es & Eq). unfold b. rewrite Es, Ef. clear b Es. clearbody found stats.
  subst found q. set (cx := complexity (structuralStats code)).
  pose proof (scored_complexity code documentation cx) as Hx.
  pose proof (scored_clarity code documentation cx) as Hc.
  pose proof (maintainability_eq code (analyzeIssues code) documentation cx) as Hm.
  pose proof (commentScore_range code (analyzeIssues code) documentation cx) as H1.
  pose proof (complexityPenalty_range cx) as Hp.
  split; [ | apply analyzeIssues_length ].
  rewrite Hm. rewrite Hx, Hc in *.
  revert H1. generalize (commentScore (calculateQualityScore code (analyzeIssues code)
                                         documentation cx)).
  intros a Ha.
  destruct (reports "Deep nesting" (analyzeIssues code));
    destruct (reports "Long functions" (analyzeIssues code));
    destruct (reports "Magic Numbers" (analyzeIssues code));
    destruct (reports "Missing Comments" (analyzeIssues code));
    repeat split; try lia; Z.div_mod_to_equations; lia.
Qed.

Lemma published_scores_witness :
  exists q, qualityReport (analysis (L "x = 1") []) = Some q
            /\ (50 <= complexityScore q <= 95)%Z.
Proof.
  eexists. split; [ reflexivity | ].
  apply (@published_scores (L "x = 1") [] _ eq_refl).
Defined.

(** X18.  A text that holds no comment marker (/*, */, // or a # with a space
    after it) gets a comment score of 0, a clarity score of at most 75, a
    documentation completeness of at most 30 and a maintainability of at
    most 57. *)
Theorem uncommented_code_scores (code documentation : str) (q : QualityReport) :
  qualityReport (analysis code documentation) = Some q ->
  ~ has_comment_marker code ->
  (commentScore q = 0 /\ clarityScore q <= 75 /\ docCompleteness q <= 30
   /\ maintainability q <= 57)%Z.
Proof.
  intros Hq Hn.
  assert (Eq : q = calculateQualityScore code (analyzeIssues code) documentation
                     (complexity (structuralStats code))).
  { unfold analysis in Hq. destruct (trim code); [ discriminate | ].
    injection Hq as <-. reflexivity. }
  assert (Hcode : code <> []) by (intros ->; discriminate Hq).
  subst q. clear Hq. set (cx := complexity (structuralStats code)).
  pose proof (scored_clarity code documentation cx) as Hc.
  pose proof (maintainability_eq code (analyzeIssues code) documentation cx) as Hm.
  pose proof (complexityScore_range code (analyzeIssues code) documentation cx) as H2.
  pose proof (uncommented_count Hn) as Hcount.
  assert (H0 : (commentScore (calculateQualityScore code (analyzeIssues code) documentation cx)
                = 0)%Z).
  { unfold calculateQualityScore; cbn [commentScore].
    unfold commentCount in Hcount. rewrite Hcount. change (Z.of_nat 0) with 0%Z.
    rewrite round_zero_ratio; [ reflexivity | ].
    pose proof (Nat.le_max_l 1 (match code with [] => 0 | _ => length (split_nl code) end)).
    lia. }
  assert (Hd : (docCompleteness (calculateQualityScore code (analyzeIssues code) documentation
                                   cx) <= 30)%Z).
  { unfold calculateQualityScore; cbn [docCompleteness].
    unfold commentCount in Hcount. rewrite Hcount.
    destruct (trim documentation); lia. }
  rewrite Hm, Hc, H0.
  destruct code as [ | c t ].
  - congruence.
  - rewrite (uncommented_missing Hn).
    destruct (reports "Magic Numbers" (analyzeIssues (c :: t)));
      repeat split; try lia; Z.div_mod_to_equations; lia.
Qed.

Lemma uncommented_code_scores_witness :
  exists q, qualityReport (analysis (L "x = 1") []) = Some q
            /\ commentScore q = 0%Z /\ (maintainability q <= 57)%Z.
Proof.
  eexists. split; [ reflexivity | ].
  assert (Hn : ~ has_comment_marker (L "x = 1")).
  { intros H. apply comment_marker_iff in H. vm_compute in H. discriminate H. }
  pose proof (@uncommented_code_scores (L "x = 1") [] _ eq_refl Hn) as H.
  split; [ apply H | apply H ].
Defined.

(** X19.  Highlighting only adds characters to the escaped text: the text
    with its ampersands and angle brackets replaced by entities is kept in
    the markup, character by character and in order. *)
Theorem highlight_keeps_text (text : str) (lang : LanguageTag) :
  subseq (esc text) (highlightCode text lang).
Proof.
  unfold highlightCode. destruct text as [ | c t ]; [ apply subseq_nil_l | ].
  set (text := c :: t). cbv zeta.
  rewrite app_assoc. eapply subseq_trans; [ | apply subseq_inner ].
  eapply subseq_trans; [ | apply subseq_filter with (P := not_angle) ].
  eapply subseq_trans; [ | apply fold_keywords_keeps ].
  eapply subseq_trans;
    [ | apply replace_keeps; intros p m after _; apply span_keeps, subseq_refl ].
  eapply subseq_trans;
    [ | apply replace_keeps; intros p m after _; apply span_keeps, esc_keeps ].
  eapply subseq_trans;
    [ | apply replace_keeps; intros p m after _; apply span_keeps, esc_keeps ].
  rewrite esc_plain. apply subseq_refl.
Qed.

(** X20.  Generating a prompt puts one item in front of the history and keeps
    at most 100 items: the new history has min(100, n + 1) items for a
    history of n, the older items follow in their order, and loading the
    first item restores the code, language, style and audience the prompt
    was generated for.  The preview of the item is the code when it has at
    most 80 characters, and else its first 80 characters followed by three
    dots; the documentation is cleared. *)
Theorem history_newest_first (now : Z) (stamp : str) (language : LanguageTag) (code : str)
        (docStyle : DocStyle) (audience : Audience) (found : list Issue)
        (prev : list HistoryItem.t) (prompt documentation : str)
        (history : list HistoryItem.t) :
  generatePrompt now stamp language code docStyle audience found prev
  = Some (prompt, documentation, history) ->
  length history = Nat.min 100 (S (length prev))
  /\ (forall i, S i < 100 -> nth_error history (S i) = nth_error prev i)
  /\ (exists item,
         nth_error history 0 = Some item
         /\ loadHistoryItem item = (code, language, docStyle, audience)
         /\ length (HistoryItem.preview item) <= 83
         /\ (length code <= 80 -> HistoryItem.preview item = code)
         /\ (80 < length code -> HistoryItem.preview item = firstn 80 code ++ L "..."))
  /\ documentation = []
  /\ prompt = generatedPrompt language code docStyle audience found.
Proof.
  unfold generatePrompt. destruct (trim code) as [ | c t ]; [ discriminate | ].
  intros H.
  match type of H with
  | Some (?p, ?d, ?h) = _ =>
      assert (Ep : prompt = p) by congruence;
      assert (Ed : documentation = d) by congruence;
      assert (Eh : history = h) by congruence
  end.
  clear H. subst prompt documentation history.
  split; [ rewrite length_firstn; cbn [length]; reflexivity | ].
  split; [ intros i Hi; rewrite nth_error_firstn_lt by lia; reflexivity | ].
  split; [ | split; reflexivity ].
  eexists. split; [ reflexivity | ]. split; [ reflexivity | ].
  cbn [HistoryItem.preview].
  destruct (80 <? length code)%nat eqn:E.
  - apply Nat.ltb_lt in E. split; [ | split; [ lia | reflexivity ] ].
    rewrite length_app, length_firstn. change (length (L "...")) with 3. lia.
  - apply Nat.ltb_ge in E. rewrite app_nil_r, firstn_all2 by lia.
    split; [ lia | ]. split; [ reflexivity | lia ].
Qed.

Lemma history_newest_first_witness :
  exists prompt history,
    generatePrompt 0 [] java (L "x = 1") concise expert [] [] = Some (prompt, [], history)
    /\ length history = 1.
Proof.
  eexists. eexists. split; [ reflexivity | ].
  apply (@history_newest_first 0 [] java (L "x = 1") concise expert [] [] _ [] _ eq_refl).
Defined.

(** X21.  The issue summary at the end of the prompt is the word None exactly
    when the scanner found no issue; otherwise it lists the kinds found,
    in the scanner's order, and it can list all seven of them. *)
Theorem prompt_issue_summary :
  (forall text, issue_summary (analyzeIssues text) = L "None" <-> analyzeIssues text = [])
  /\ (forall text i rest,
         analyzeIssues text = i :: rest ->
         issue_summary (analyzeIssues text)
         = join (L ", ") (map (fun i => L (type i)) (analyzeIssues text)))
  /\ (exists text, map type (analyzeIssues text) = issue_order).
Proof.
  split; [ | split ].
  - intros text. apply issue_summary_none. intros i Hi.
    apply (@subseq_in _ _ _ (type i) (analyzeIssues_types text)). now apply in_map.
  - intros text i rest E. unfold issue_summary. rewrite E. cbn [map].
    destruct (join_head (L ", ") (L (type i)) (map (fun i => L (type i)) rest)) as (r & ->).
    pose proof (analyzeIssues_types text) as Hs.
    assert (Hin : In (type i) issue_order).
    { apply (@subseq_in _ _ _ (type i) Hs). rewrite E. now left. }
    unfold issue_order in Hin. cbn [In] in Hin.
    destruct Hin as [ <- | [ <- | [ <- | [ <- | [ <- | [ <- | [ <- | [] ] ] ] ] ] ] ];
      reflexivity.
  - exists (L "TODO 42 register null" ++ ["010"%char]
            ++ L "if" ++ ["010"%char] ++ L "if" ++ ["010"%char]
            ++ L "if" ++ ["010"%char] ++ L "if" ++ ["010"%char] ++ repeat "x"%char 501).
    vm_compute. reflexivity.
Qed.

Lemma prompt_issue_summary_witness :
  issue_summary (analyzeIssues (L "TODO x")) = L "TODOs, Missing Comments".
Proof.
  rewrite (proj1 (proj2 prompt_issue_summary) (L "TODO x") _ _ eq_refl).
  reflexivity.
Defined.
